(** * Busy-tourism web application: itinerary page and map view

    A shallow embedding of [src/pages/Itinerary.tsx] and
    [src/components/Map.tsx].  Event handlers and effect bodies are state
    transformers over an explicit world; closures carry the values they
    captured at render time; the mapping widget (Leaflet) is a heap of
    marker objects plus one map object. *)

From stdpp Require Import base numbers strings list gmap sets pretty.

Open Scope Z_scope.

(** ** Places *)

(** Geographic coordinates.  The source holds JS numbers; only their order
    is ever used (bounding boxes), so they are counted here in
    micro-degrees. *)
Record LatLng := { lat : Z; lng : Z }.

Record BusinessFeatures := { isBusinessFriendly : bool }.

Module TouristPlace.
Record t := {
  id : string;
  name : string;
  category : string;
  rating : Z;
  location : LatLng;
  businessFeatures : option BusinessFeatures
}.
End TouristPlace.
Abbreviation TouristPlace := TouristPlace.t.

Definition ids (ps : list TouristPlace) : list string :=
  TouristPlace.id <$> ps.

#[global] Instance LatLng_eq_dec : EqDecision LatLng.
Proof. solve_decision. Defined.
#[global] Instance BusinessFeatures_eq_dec : EqDecision BusinessFeatures.
Proof. solve_decision. Defined.
#[global] Instance TouristPlace_eq_dec : EqDecision TouristPlace.
Proof. solve_decision. Defined.

(** Notifications of the toast collaborator ([sonner]). *)
Inductive Toast :=
| ToastSuccess (msg : string)
| ToastError (msg : string).

(** ** The itinerary store *)

Module ItineraryStore.

(** Modelled from the spec: the itinerary store
    ([@/context/ItineraryContext], reached through [useItinerary]) is not
    among the sources; only its caller [Itinerary.tsx] is.  Section 4.1
    gives the contract: [add] inserts the place if its identifier is not
    already present and has no effect otherwise, [remove] deletes the
    entry with a matching identifier if present, [clear] empties the
    itinerary unconditionally, [list] returns the ordered sequence.  The
    scenario of section 8 fixes the order: a new place goes to the end. *)
Definition has (pid : string) (it : list TouristPlace) : bool :=
  bool_decide (pid ∈ ids it).

Definition add (p : TouristPlace) (it : list TouristPlace) : list TouristPlace :=
  if has (TouristPlace.id p) it then it else it ++ [p].

Definition remove (pid : string) (it : list TouristPlace) : list TouristPlace :=
  filter (λ p, TouristPlace.id p ≠ pid) it.

Definition clear (it : list TouristPlace) : list TouristPlace := [].

Definition list_ (it : list TouristPlace) : list TouristPlace := it.

Inductive Op :=
| Add (p : TouristPlace)
| Remove (pid : string).

Definition apply (it : list TouristPlace) (o : Op) : list TouristPlace :=
  match o with
  | Add p => add p it
  | Remove pid => remove pid it
  end.

(** Runs the operations left to right. *)
Definition run (ops : list Op) (it : list TouristPlace) : list TouristPlace :=
  foldl apply it ops.

(** The identifiers some operation adds, and those some operation
    removes. *)
Definition adds (ops : list Op) : gset string :=
  list_to_set (omap (λ o, match o with Add p => Some (TouristPlace.id p) | Remove _ => None end) ops).

Definition removes (ops : list Op) : gset string :=
  list_to_set (omap (λ o, match o with Remove i => Some i | Add _ => None end) ops).

(** [i] is added and not removed afterwards. *)
Definition added_last (i : string) (ops : list Op) : Prop :=
  ∃ pre p post, ops = pre ++ Add p :: post
                ∧ TouristPlace.id p = i
                ∧ Remove i ∉ post.

End ItineraryStore.

(** ** The itinerary page *)

Module ItineraryPage.

(** What the component sees and changes: the store's itinerary (through
    [useItinerary]), its own [showConfirmClear] state, the toasts it
    emitted, the timers it registered (each runs
    [setShowConfirmClear(false)] when due) and a clock in milliseconds.
    [clearCalls] counts invocations of the store's [clearItinerary]. *)
Record Page := {
  itinerary : list TouristPlace;
  showConfirmClear : bool;
  toasts : list Toast;
  timers : list Z;
  now : Z;
  clearCalls : nat
}.

Definition toast (t : Toast) (pg : Page) : Page :=
  {| itinerary := itinerary pg; showConfirmClear := showConfirmClear pg;
     toasts := toasts pg ++ [t]; timers := timers pg; now := now pg;
     clearCalls := clearCalls pg |}.

Definition setShowConfirmClear (b : bool) (pg : Page) : Page :=
  {| itinerary := itinerary pg; showConfirmClear := b;
     toasts := toasts pg; timers := timers pg; now := now pg;
     clearCalls := clearCalls pg |}.

Definition setTimeout (delay : Z) (pg : Page) : Page :=
  {| itinerary := itinerary pg; showConfirmClear := showConfirmClear pg;
     toasts := toasts pg; timers := timers pg ++ [now pg + delay]; now := now pg;
     clearCalls := clearCalls pg |}.

Definition clearItinerary (pg : Page) : Page :=
  {| itinerary := ItineraryStore.clear (itinerary pg);
     showConfirmClear := showConfirmClear pg;
     toasts := toasts pg; timers := timers pg; now := now pg;
     clearCalls := S (clearCalls pg) |}.

Definition handleShare (pg : Page) : Page :=
  if (length (itinerary pg) =? 0)%nat
  then toast (ToastError "You don't have any places to share") pg
  else toast (ToastSuccess "Sharing is not available in the demo") pg.

Definition handleDownload (pg : Page) : Page :=
  if (length (itinerary pg) =? 0)%nat
  then toast (ToastError "You don't have any places to download") pg
  else toast (ToastSuccess "Download is not available in the demo") pg.

Definition handleClearItinerary (pg : Page) : Page :=
  if showConfirmClear pg
  then setShowConfirmClear false (clearItinerary pg)
  else setTimeout 3000 (setShowConfirmClear true pg).

(** The clock moves on by [dt] milliseconds; every timer that is due by
    then runs its callback and is dropped. *)
Definition elapse (dt : Z) (pg : Page) : Page :=
  let t := now pg + dt in
  let due := filter (λ d, d ≤ t) (timers pg) in
  {| itinerary := itinerary pg;
     showConfirmClear := if bool_decide (due = []) then showConfirmClear pg else false;
     toasts := toasts pg;
     timers := filter (λ d, ¬ d ≤ t) (timers pg);
     now := t;
     clearCalls := clearCalls pg |}.

Inductive Event :=
| ClickShare
| ClickDownload
| ClickClear
| Elapse (dt : Z).

Definition step (pg : Page) (e : Event) : Page :=
  match e with
  | ClickShare => handleShare pg
  | ClickDownload => handleDownload pg
  | ClickClear => handleClearItinerary pg
  | Elapse dt => elapse dt pg
  end.

Definition run (es : list Event) (pg : Page) : Page := foldl step pg es.

(** A freshly mounted page over the itinerary [it]. *)
Definition mount (it : list TouristPlace) : Page :=
  {| itinerary := it; showConfirmClear := false; toasts := [];
     timers := []; now := 0; clearCalls := 0 |}.

(** The time a trace lets pass. *)
Definition duration (es : list Event) : Z :=
  foldr (λ e acc, match e with Elapse dt => dt + acc | _ => acc end) 0 es.

(** Every pending timer is due strictly later than now. *)
Definition timers_ahead (pg : Page) : Prop :=
  ∀ d, d ∈ timers pg → now pg < d.

(** If the confirmation is armed, the trace ends with an arming click
    whose timer is still pending and no later click on the button. *)
Definition armed_since (it : list TouristPlace) (es : list Event) (pg : Page) : Prop :=
  showConfirmClear pg = true →
  ∃ es1 es2, (es = es1 ++ ClickClear :: es2)
    ∧ showConfirmClear (run es1 (mount it)) = false
    ∧ (ClickClear ∉ es2)
    ∧ (now (run es1 (mount it)) + 3000) ∈ timers pg
    ∧ now pg = now (run es1 (mount it)) + duration es2.

End ItineraryPage.

(** ** The map view *)

Module MapView.

(** *** The mapping widget (Leaflet) *)

Inductive IconKind := DefaultPin | HighlightedPin.

(** An icon object made by [L.divIcon]; [iconRef] is its identity. *)
Record Icon := {
  iconKind : IconKind;
  iconSize : Z * Z;
  iconAnchor : Z * Z;
  iconRef : nat
}.

(** What the popup template of [updateMarkers] shows. *)
Record Popup := {
  popupName : string;
  popupCategory : string;
  popupRating : Z;
  popupBusinessFriendly : bool
}.

(** A marker object.  A handle is its index in the widget's store. *)
Record Marker := {
  latlng : LatLng;
  icon : Icon;
  popup : option Popup;
  popupOpen : bool;
  onMap : bool
}.

Record Bounds := { south : Z; west : Z; north : Z; east : Z }.

(** The viewport.  What Leaflet computes when it fits a box (a centre and
    a zoom level, through its projection) is left uninterpreted. *)
Inductive CenterSpec :=
| CenterAt (c : LatLng)
| CenterOfBox (b : Bounds) (padding : Z * Z).

Inductive ZoomSpec :=
| ZoomAt (z : Z)
| ZoomOfBox (b : Bounds) (padding : Z * Z).

Record TileLayer := { tileUrl : string; maxZoom : Z }.

Record LMap := {
  viewCenter : option CenterSpec;
  viewZoom : option ZoomSpec;
  tileLayers : list TileLayer;
  controls : list string;
  classes : list string
}.

Record Leaflet := {
  lmap : option LMap;        (* the map created on the container, if any *)
  markers : list Marker;     (* every marker object created so far *)
  iconsMade : nat;           (* icon objects created so far *)
  fuse : option nat          (* widget calls that still succeed before one throws *)
}.

(** *** The component *)

(** [hoveredPlaceId?: string | null]. *)
Inductive Hover :=
| HoverUndefined
| HoverNull
| HoverId (pid : string).

Record Comp := {
  defaultIcon : option Icon;
  highlightedIcon : option Icon;
  isMapInitialized : bool;
  mapRef : bool;                  (* [mapRef.current] is the container *)
  mapInstanceRef : bool;          (* [mapInstanceRef.current] is the map *)
  markersRef : gmap string nat;   (* own properties of [markersRef.current] *)
  markersProto : option nat       (* its prototype: [Object.prototype], or a marker *)
}.

(** What the closures of the three effects captured when they were
    created. *)
Record InitClosure := {
  initCell : nat;                 (* the effect run whose [isMounted] it reads *)
  initSawInitialized : bool;
  initCenter : LatLng;
  initZoom : Z
}.

Record UpdateClosure := {
  updPlaces : list TouristPlace;
  updDefaultIcon : Icon
}.

Record FrameClosure := {
  frHovered : Hover;
  frDefaultIcon : Icon;
  frHighlightedIcon : Icon
}.

(** A function suspended at [await import("leaflet")]. *)
Inductive Pending :=
| PendingInit (c : InitClosure)
| PendingUpdate (c : UpdateClosure).

(** Dependency lists are compared with [Object.is]: arrays and icons by
    identity, numbers, booleans and strings by value.  A defaulted
    [center] is a new array at every render. *)
Inductive Ident := Fresh | Ref (r : nat).

Record InitDeps := { d1Center : Ident; d1Zoom : Z; d1Initialized : bool }.
Record UpdateDeps := { d2Places : nat; d2DefaultIcon : option nat; d2Initialized : bool }.
Record HoverDeps := { d3Hovered : Hover; d3DefaultIcon : option nat; d3HighlightedIcon : option nat }.

Record Sched := {
  imports : list Pending;                       (* oldest first *)
  frames : list (nat * FrameClosure);           (* requested animation frames *)
  nextFrame : nat;
  nextCell : nat;
  initEffect : option (InitDeps * nat);         (* last run: dependencies, instance *)
  updateEffect : option UpdateDeps;
  hoverEffect : option (HoverDeps * option nat) (* ... and the frame its cleanup cancels *)
}.

Record World := {
  leaflet : Leaflet;
  comp : Comp;
  sched : Sched;
  toasts : list Toast;
  console : list string
}.

Module MapProps.
Record t := {
  places : list TouristPlace;
  placesRef : nat;                      (* identity of the array *)
  center : option (nat * LatLng);       (* identity and value, when given *)
  zoom : option Z;
  hoveredPlaceId : Hover
}.
End MapProps.
Abbreviation MapProps := MapProps.t.

#[global] Instance IconKind_eq_dec : EqDecision IconKind.
Proof. solve_decision. Defined.
#[global] Instance Icon_eq_dec : EqDecision Icon.
Proof. solve_decision. Defined.
#[global] Instance Hover_eq_dec : EqDecision Hover.
Proof. solve_decision. Defined.
#[global] Instance Ident_eq_dec : EqDecision Ident.
Proof. solve_decision. Defined.

(** *** Field updates *)

Definition on_leaflet (f : Leaflet → Leaflet) (w : World) : World :=
  {| leaflet := f (leaflet w); comp := comp w; sched := sched w;
     toasts := toasts w; console := console w |}.
Definition on_comp (f : Comp → Comp) (w : World) : World :=
  {| leaflet := leaflet w; comp := f (comp w); sched := sched w;
     toasts := toasts w; console := console w |}.
Definition on_sched (f : Sched → Sched) (w : World) : World :=
  {| leaflet := leaflet w; comp := comp w; sched := f (sched w);
     toasts := toasts w; console := console w |}.
Definition add_toast (t : Toast) (w : World) : World :=
  {| leaflet := leaflet w; comp := comp w; sched := sched w;
     toasts := toasts w ++ [t]; console := console w |}.
Definition add_console (msg : string) (w : World) : World :=
  {| leaflet := leaflet w; comp := comp w; sched := sched w;
     toasts := toasts w; console := console w ++ [msg] |}.

Definition set_lmap (m : option LMap) (l : Leaflet) : Leaflet :=
  {| lmap := m; markers := markers l; iconsMade := iconsMade l; fuse := fuse l |}.
Definition set_markers (ms : list Marker) (l : Leaflet) : Leaflet :=
  {| lmap := lmap l; markers := ms; iconsMade := iconsMade l; fuse := fuse l |}.
Definition set_iconsMade (n : nat) (l : Leaflet) : Leaflet :=
  {| lmap := lmap l; markers := markers l; iconsMade := n; fuse := fuse l |}.
Definition set_fuse (f : option nat) (l : Leaflet) : Leaflet :=
  {| lmap := lmap l; markers := markers l; iconsMade := iconsMade l; fuse := f |}.

Definition set_defaultIcon (i : option Icon) (c : Comp) : Comp :=
  {| defaultIcon := i; highlightedIcon := highlightedIcon c;
     isMapInitialized := isMapInitialized c; mapRef := mapRef c;
     mapInstanceRef := mapInstanceRef c; markersRef := markersRef c;
     markersProto := markersProto c |}.
Definition set_highlightedIcon (i : option Icon) (c : Comp) : Comp :=
  {| defaultIcon := defaultIcon c; highlightedIcon := i;
     isMapInitialized := isMapInitialized c; mapRef := mapRef c;
     mapInstanceRef := mapInstanceRef c; markersRef := markersRef c;
     markersProto := markersProto c |}.
Definition set_isMapInitialized (b : bool) (c : Comp) : Comp :=
  {| defaultIcon := defaultIcon c; highlightedIcon := highlightedIcon c;
     isMapInitialized := b; mapRef := mapRef c;
     mapInstanceRef := mapInstanceRef c; markersRef := markersRef c;
     markersProto := markersProto c |}.
Definition set_mapRef (b : bool) (c : Comp) : Comp :=
  {| defaultIcon := defaultIcon c; highlightedIcon := highlightedIcon c;
     isMapInitialized := isMapInitialized c; mapRef := b;
     mapInstanceRef := mapInstanceRef c; markersRef := markersRef c;
     markersProto := markersProto c |}.
Definition set_mapInstanceRef (b : bool) (c : Comp) : Comp :=
  {| defaultIcon := defaultIcon c; highlightedIcon := highlightedIcon c;
     isMapInitialized := isMapInitialized c; mapRef := mapRef c;
     mapInstanceRef := b; markersRef := markersRef c;
     markersProto := markersProto c |}.
Definition set_markersRef (r : gmap string nat) (c : Comp) : Comp :=
  {| defaultIcon := defaultIcon c; highlightedIcon := highlightedIcon c;
     isMapInitialized := isMapInitialized c; mapRef := mapRef c;
     mapInstanceRef := mapInstanceRef c; markersRef := r;
     markersProto := markersProto c |}.
Definition set_markersProto (p : option nat) (c : Comp) : Comp :=
  {| defaultIcon := defaultIcon c; highlightedIcon := highlightedIcon c;
     isMapInitialized := isMapInitialized c; mapRef := mapRef c;
     mapInstanceRef := mapInstanceRef c; markersRef := markersRef c;
     markersProto := p |}.

Definition set_imports (q : list Pending) (s : Sched) : Sched :=
  {| imports := q; frames := frames s; nextFrame := nextFrame s;
     nextCell := nextCell s; initEffect := initEffect s;
     updateEffect := updateEffect s; hoverEffect := hoverEffect s |}.
Definition set_frames (fs : list (nat * FrameClosure)) (s : Sched) : Sched :=
  {| imports := imports s; frames := fs; nextFrame := nextFrame s;
     nextCell := nextCell s; initEffect := initEffect s;
     updateEffect := updateEffect s; hoverEffect := hoverEffect s |}.
Definition set_nextFrame (n : nat) (s : Sched) : Sched :=
  {| imports := imports s; frames := frames s; nextFrame := n;
     nextCell := nextCell s; initEffect := initEffect s;
     updateEffect := updateEffect s; hoverEffect := hoverEffect s |}.
Definition set_nextCell (n : nat) (s : Sched) : Sched :=
  {| imports := imports s; frames := frames s; nextFrame := nextFrame s;
     nextCell := n; initEffect := initEffect s;
     updateEffect := updateEffect s; hoverEffect := hoverEffect s |}.
Definition set_initEffect (e : option (InitDeps * nat)) (s : Sched) : Sched :=
  {| imports := imports s; frames := frames s; nextFrame := nextFrame s;
     nextCell := nextCell s; initEffect := e;
     updateEffect := updateEffect s; hoverEffect := hoverEffect s |}.
Definition set_updateEffect (e : option UpdateDeps) (s : Sched) : Sched :=
  {| imports := imports s; frames := frames s; nextFrame := nextFrame s;
     nextCell := nextCell s; initEffect := initEffect s;
     updateEffect := e; hoverEffect := hoverEffect s |}.
Definition set_hoverEffect (e : option (HoverDeps * option nat)) (s : Sched) : Sched :=
  {| imports := imports s; frames := frames s; nextFrame := nextFrame s;
     nextCell := nextCell s; initEffect := initEffect s;
     updateEffect := updateEffect s; hoverEffect := e |}.

(** *** Effects: state and exceptions

    A computation changes the world and either returns or throws; what it
    changed before it threw stays changed, as in JavaScript. *)

Inductive Res (A : Type) :=
| Done (a : A)
| Thrown (error : string).
Arguments Done {A} a.
Arguments Thrown {A} error.

Definition M (A : Type) : Type := World → Res A * World.

#[global] Instance M_ret : MRet M := λ A a w, (Done a, w).

#[global] Instance M_bind : MBind M := λ A B f m w,
  match m w with
  | (Done a, w') => f a w'
  | (Thrown e, w') => (Thrown e, w')
  end.

Definition gets {A} (f : World → A) : M A := λ w, (Done (f w), w).
Definition modify (f : World → World) : M unit := λ w, (Done (), f w).
Definition throw {A} (e : string) : M A := λ w, (Thrown e, w).

(** [try { body } catch (error) { handler }] *)
Definition try_catch (body : M unit) (handler : string → M unit) : M unit := λ w,
  match body w with
  | (Done a, w') => (Done a, w')
  | (Thrown e, w') => handler e w'
  end.

Fixpoint forEach {A} (l : list A) (f : A → M unit) : M unit :=
  match l with
  | [] => mret ()
  | x :: l' => f x;; forEach l' f
  end.

(** The world a computation leaves. *)
Definition exec {A} (m : M A) (w : World) : World := snd (m w).

(** Every call into the widget goes through [call]: it throws when the
    fuse has run out, and burns one unit of it otherwise.  With no fuse
    nothing throws. *)
Definition call (what : string) : M unit := λ w,
  match fuse (leaflet w) with
  | None => (Done (), w)
  | Some (S n) => (Done (), on_leaflet (set_fuse (Some n)) w)
  | Some O => (Thrown what, on_leaflet (set_fuse None) w)
  end.

(** *** Widget primitives *)

Definition L_import : M unit := call "import(leaflet)".

Definition L_divIcon (k : IconKind) (size anchor : Z * Z) : M Icon :=
  call "L.divIcon";;
  n ← gets (λ w, iconsMade (leaflet w));
  modify (on_leaflet (set_iconsMade (S n)));;
  mret {| iconKind := k; iconSize := size; iconAnchor := anchor; iconRef := n |}.

(** [L.map(el)]: with no options given, the [zoomControl] option is on and
    the new map comes with a zoom control at the top left. *)
Definition L_map : M unit :=
  call "L.map";;
  m ← gets (λ w, lmap (leaflet w));
  match m with
  | Some _ => throw "Map container is already initialized."
  | None =>
      modify (on_leaflet (set_lmap (Some
        {| viewCenter := None; viewZoom := None; tileLayers := [];
           controls := ["topleft"]; classes := [] |})))
  end.

Definition on_map (what : string) (f : LMap → LMap) : M unit :=
  call what;;
  modify (on_leaflet (λ l, set_lmap (f <$> lmap l) l)).

Definition map_setView (c : LatLng) (z : Z) : M unit :=
  on_map "map.setView" (λ m,
    {| viewCenter := Some (CenterAt c); viewZoom := Some (ZoomAt z);
       tileLayers := tileLayers m; controls := controls m; classes := classes m |}).

Definition L_tileLayer (url : string) (mz : Z) : M TileLayer :=
  call "L.tileLayer";;
  mret {| tileUrl := url; maxZoom := mz |}.

Definition tileLayer_addTo (t : TileLayer) : M unit :=
  on_map "tileLayer.addTo" (λ m,
    {| viewCenter := viewCenter m; viewZoom := viewZoom m;
       tileLayers := tileLayers m ++ [t]; controls := controls m; classes := classes m |}).

Definition DomUtil_addClass (cls : string) : M unit :=
  call "map.getContainer";;
  on_map "L.DomUtil.addClass" (λ m,
    {| viewCenter := viewCenter m; viewZoom := viewZoom m;
       tileLayers := tileLayers m; controls := controls m; classes := classes m ++ [cls] |}).

Definition L_Control_Zoom (position : string) : M string :=
  call "new L.Control.Zoom";;
  mret position.

Definition map_addControl (ctl : string) : M unit :=
  on_map "map.addControl" (λ m,
    {| viewCenter := viewCenter m; viewZoom := viewZoom m;
       tileLayers := tileLayers m; controls := controls m ++ [ctl]; classes := classes m |}).

(** Reading [mapInstanceRef.current] to call a method on it. *)
Definition the_map : M unit :=
  b ← gets (λ w, mapInstanceRef (comp w));
  if b : bool then mret () else throw "TypeError: mapInstanceRef.current is null".

(** [panTo] moves the centre and keeps the zoom. *)
Definition panView (c : LatLng) (m : LMap) : LMap :=
  {| viewCenter := Some (CenterAt c); viewZoom := viewZoom m;
     tileLayers := tileLayers m; controls := controls m; classes := classes m |}.

Definition map_panTo (c : LatLng) : M unit :=
  the_map;;
  on_map "map.panTo" (panView c).

(** [fitBounds] sets centre and zoom from the box and the padding. *)
Definition fitView (b : Bounds) (padding : Z * Z) (m : LMap) : LMap :=
  {| viewCenter := Some (CenterOfBox b padding);
     viewZoom := Some (ZoomOfBox b padding);
     tileLayers := tileLayers m; controls := controls m; classes := classes m |}.

Definition map_fitBounds (b : option Bounds) (padding : Z * Z) : M unit :=
  the_map;;
  call "map.fitBounds";;
  match b with
  | None => throw "Bounds are not valid."
  | Some b => modify (on_leaflet (λ l, set_lmap (fitView b padding <$> lmap l) l))
  end.

Definition alter_marker (f : Marker → Marker) (h : nat) : World → World :=
  on_leaflet (λ l, set_markers (alter f h (markers l)) l).

Definition with_icon (i : Icon) (m : Marker) : Marker :=
  {| latlng := latlng m; icon := i; popup := popup m;
     popupOpen := popupOpen m; onMap := onMap m |}.
Definition with_popup (p : option Popup) (m : Marker) : Marker :=
  {| latlng := latlng m; icon := icon m; popup := p;
     popupOpen := popupOpen m; onMap := onMap m |}.
Definition with_popupOpen (b : bool) (m : Marker) : Marker :=
  {| latlng := latlng m; icon := icon m; popup := popup m;
     popupOpen := b; onMap := onMap m |}.
Definition with_onMap (b : bool) (m : Marker) : Marker :=
  {| latlng := latlng m; icon := icon m; popup := popup m;
     popupOpen := popupOpen m; onMap := b |}.

(** [L.marker([lat, lng], { icon })]: a new marker, not yet on the map. *)
Definition L_marker (ll : LatLng) (i : Icon) : M nat :=
  call "L.marker";;
  h ← gets (λ w, length (markers (leaflet w)));
  modify (on_leaflet (λ l, set_markers (markers l ++
    [{| latlng := ll; icon := i; popup := None; popupOpen := false; onMap := false |}]) l));;
  mret h.

Definition marker_addTo (h : nat) : M unit :=
  the_map;;
  call "marker.addTo";;
  modify (alter_marker (with_onMap true) h).

Definition marker_bindPopup (h : nat) (p : Popup) : M unit :=
  call "marker.bindPopup";;
  modify (alter_marker (with_popup (Some p)) h).

(** Taking a marker off the map takes its open popup with it. *)
Definition marker_remove (h : nat) : M unit :=
  call "marker.remove";;
  modify (alter_marker (λ m, with_onMap false (with_popupOpen false m)) h).

Definition marker_setIcon (h : nat) (i : Icon) : M unit :=
  call "marker.setIcon";;
  modify (alter_marker (with_icon i) h).

Definition marker_closePopup (h : nat) : M unit :=
  call "marker.closePopup";;
  modify (alter_marker (with_popupOpen false) h).

(** A popup opens only if one is bound and the marker is on the map. *)
Definition marker_openPopup (h : nat) : M unit :=
  call "marker.openPopup";;
  modify (alter_marker (λ m,
    with_popupOpen (bool_decide (is_Some (popup m)) && onMap m || popupOpen m) m) h).

Definition marker_getLatLng (h : nat) : M LatLng :=
  call "marker.getLatLng";;
  m ← gets (λ w, markers (leaflet w) !! h);
  match m with
  | Some m => mret (latlng m)
  | None => throw "TypeError: marker is undefined"
  end.

(** [LatLngBounds.extend], and the box of a group of points. *)
Definition extend (b : option Bounds) (p : LatLng) : option Bounds :=
  Some match b with
       | None => {| south := lat p; west := lng p; north := lat p; east := lng p |}
       | Some b => {| south := Z.min (south b) (lat p); west := Z.min (west b) (lng p);
                      north := Z.max (north b) (lat p); east := Z.max (east b) (lng p) |}
       end.

Definition boundsOf (ps : list LatLng) : option Bounds := foldl extend None ps.

Definition positions (hs : list nat) (w : World) : list LatLng :=
  omap (λ h, latlng <$> markers (leaflet w) !! h) hs.

(** [L.featureGroup(markerArray).getBounds()] *)
Definition featureGroup_getBounds (hs : list nat) : M (option Bounds) :=
  call "L.featureGroup";;
  call "group.getBounds";;
  gets (λ w, boundsOf (positions hs w)).

(** *** The component's own operations *)

Definition setDefaultIcon (i : Icon) : M unit :=
  modify (on_comp (set_defaultIcon (Some i))).
Definition setHighlightedIcon (i : Icon) : M unit :=
  modify (on_comp (set_highlightedIcon (Some i))).
Definition setIsMapInitialized (b : bool) : M unit :=
  modify (on_comp (set_isMapInitialized b)).
Definition console_error (msg : string) : M unit := modify (add_console msg).
Definition toast_error (msg : string) : M unit := modify (add_toast (ToastError msg)).

(** *** The registry, a plain object

    [markersRef.current] is an object literal used as a map.  Its own
    properties are the registered markers; what is not an own property is
    looked up in its prototype, which is [Object.prototype] until the name
    [__proto__] is assigned to: that assignment reaches the setter of
    [Object.prototype], which makes the assigned object the prototype and
    creates no own property. *)

(** The names [Object.prototype] answers to, all with a function or an
    object. *)
Definition objectPrototypeNames : list string :=
  ["constructor"; "__defineGetter__"; "__defineSetter__"; "hasOwnProperty";
   "__lookupGetter__"; "__lookupSetter__"; "isPrototypeOf"; "propertyIsEnumerable";
   "toString"; "valueOf"; "__proto__"; "toLocaleString"].

(** Names a marker on the map answers to with a function or an object,
    besides those of [Object.prototype] (Leaflet 1.9: the members of
    [L.Marker], [L.Layer], [L.Evented] and [L.Class], and the fields set by
    the constructor, [addTo] and [bindPopup]). *)
Definition markerNames : list string :=
  ["options"; "initialize"; "callInitHooks"; "_initHooks"; "_initHooksCalled";
   "on"; "off"; "fire"; "listens"; "once"; "addEventParent"; "removeEventParent";
   "addEventListener"; "removeEventListener"; "clearAllEventListeners";
   "addOneTimeEventListener"; "fireEvent"; "hasEventListeners";
   "_on"; "_off"; "_listens"; "_propagateEvent"; "_events";
   "addTo"; "remove"; "removeFrom"; "getPane"; "addInteractiveTarget";
   "removeInteractiveTarget"; "getAttribution"; "_layerAdd";
   "bindPopup"; "unbindPopup"; "openPopup"; "closePopup"; "togglePopup";
   "isPopupOpen"; "setPopupContent"; "getPopup"; "_openPopup"; "_movePopup";
   "bindTooltip"; "unbindTooltip"; "openTooltip"; "closeTooltip"; "toggleTooltip";
   "isTooltipOpen"; "setTooltipContent"; "getTooltip"; "_openTooltip"; "_moveTooltip";
   "_initTooltipInteractions"; "_addFocusListeners"; "_addFocusListenersOnLayer";
   "_setAriaDescribedByOnLayer";
   "onAdd"; "onRemove"; "getEvents"; "getLatLng"; "setLatLng"; "setZIndexOffset";
   "getIcon"; "setIcon"; "getElement"; "update"; "setOpacity";
   "_initIcon"; "_setPos"; "_updateZIndex"; "_animateZoom"; "_initInteraction";
   "_updateOpacity"; "_bringToFront"; "_resetZIndex"; "_panOnFocus";
   "_getPopupAnchor"; "_getTooltipAnchor"; "_removeIcon"; "_removeShadow";
   "_latlng"; "_leaflet_id"; "_map"; "_mapToAdd"; "_zoomAnimated"; "_icon";
   "_zIndex"; "_popup"; "_popupHandlersAdded"; "dragging"].

(** What reading a property yields: a marker, something else that is
    truthy, or [undefined]. *)
Inductive Value :=
| IsMarker (h : nat)
| IsOther
| IsUndefined.

(** [markersRef.current[key]] *)
Definition registry_get (key : string) (w : World) : Value :=
  match markersRef (comp w) !! key with
  | Some h => IsMarker h
  | None =>
      match markersProto (comp w) with
      | None =>
          if bool_decide (key ∈ objectPrototypeNames) then IsOther else IsUndefined
      | Some h =>
          if bool_decide (key = "__proto__") then IsMarker h
          else if bool_decide (key ∈ objectPrototypeNames ++ markerNames) then IsOther
          else IsUndefined
      end
  end.

(** [markersRef.current[key] = marker] *)
Definition registry_set (key : string) (marker : nat) (c : Comp) : Comp :=
  if bool_decide (key = "__proto__") then set_markersProto (Some marker) c
  else set_markersRef (<[key := marker]> (markersRef c)) c.

(** [markersRef.current = {}] *)
Definition registry_fresh (c : Comp) : Comp :=
  set_markersProto None (set_markersRef ∅ c).

(** [Object.entries] and [Object.values]: own properties only. *)
Definition Object_entries (w : World) : list (string * nat) :=
  map_to_list (markersRef (comp w)).
Definition Object_values (w : World) : list nat :=
  (map_to_list (markersRef (comp w))).*2.

(** [isMounted] of an effect run is true until the cleanup of that run has
    been called, that is, while the run is the current one. *)
Definition isMounted (c : InitClosure) (w : World) : bool :=
  match initEffect (sched w) with
  | Some (_, cell) => bool_decide (cell = initCell c)
  | None => false
  end.

(** The guard of [initializeMap]:
    [!isMounted || !mapRef.current || isMapInitialized]. *)
Definition initGuard (c : InitClosure) (w : World) : bool :=
  negb (isMounted c w) || negb (mapRef (comp w)) || initSawInitialized c.

(** What [initializeMap] does once past its guard: the icons, the map
    with its view, tile layer and class, the instance and the flag, the
    zoom control. *)
Definition initializeMap_setup (c : InitClosure) : M unit :=
  defaultIconInstance ← L_divIcon DefaultPin (24, 24) (12, 24);
  highlightedIconInstance ← L_divIcon HighlightedPin (32, 32) (16, 32);
  setDefaultIcon defaultIconInstance;;
  setHighlightedIcon highlightedIconInstance;;
  L_map;;
  map_setView (initCenter c) (initZoom c);;
  tiles ← L_tileLayer "https://{s}.tile.openstreetmap.org/{z}/{x}/{y}.png" 19;
  tileLayer_addTo tiles;;
  DomUtil_addClass "transition-all duration-300";;
  modify (on_comp (set_mapInstanceRef true));;
  setIsMapInitialized true;;
  ctl ← L_Control_Zoom "bottomright";
  map_addControl ctl.

(** The [try] block of [initializeMap], from the point where
    [await import("leaflet")] settles.  The function is entered inside its
    [try], so a rejected import lands in the [catch]. *)
Definition initializeMap_try (c : InitClosure) : M unit :=
  L_import;;
  blocked ← gets (initGuard c);
  if blocked : bool then mret () else initializeMap_setup c.

Definition initializeMap (c : InitClosure) : M unit :=
  try_catch (initializeMap_try c)
    (λ error,
       console_error ("Error initializing map: " +:+ error);;
       toast_error "Failed to load map. Please refresh the page.").

Definition popupOf (place : TouristPlace) : Popup :=
  {| popupName := TouristPlace.name place;
     popupCategory := TouristPlace.category place;
     popupRating := TouristPlace.rating place;
     popupBusinessFriendly :=
       match TouristPlace.businessFeatures place with
       | Some f => isBusinessFriendly f
       | None => false
       end |}.

(** The body of [places.forEach] in [updateMarkers]. *)
Definition addMarker (dIcon : Icon) (place : TouristPlace) : M unit :=
  marker ← L_marker (TouristPlace.location place) dIcon;
  marker_addTo marker;;
  marker_bindPopup marker (popupOf place);;
  modify (on_comp (registry_set (TouristPlace.id place) marker)).

(** The [try] block of [updateMarkers], from the point where the import
    settles. *)
Definition updateMarkers_try (c : UpdateClosure) : M unit :=
  L_import;;
  old ← gets Object_values;
  forEach old marker_remove;;
  modify (on_comp registry_fresh);;
  forEach (updPlaces c) (addMarker (updDefaultIcon c));;
  if (0 <? length (updPlaces c))%nat then
    markerArray ← gets Object_values;
    box ← featureGroup_getBounds markerArray;
    map_fitBounds box (50, 50)
  else mret ().

(** [updateMarkers] after its guard and its [await]. *)
Definition updateMarkers_resume (c : UpdateClosure) : M unit :=
  try_catch (updateMarkers_try c)
    (λ error, console_error ("Error updating markers: " +:+ error)).

Definition enqueue (k : Pending) : World → World :=
  on_sched (λ s, set_imports (imports s ++ [k]) s).

(** [updateMarkers] up to its [await]: the guard, then the import is
    requested and the rest waits for it. *)
Definition updateMarkers (places : list TouristPlace) (dIcon : option Icon)
    (w : World) : World :=
  match mapInstanceRef (comp w), dIcon with
  | true, Some d => enqueue (PendingUpdate {| updPlaces := places; updDefaultIcon := d |}) w
  | _, _ => w
  end.

(** [id !== hoveredPlaceId] *)
Definition differs (pid : string) (h : Hover) : bool :=
  match h with
  | HoverId s => bool_decide (pid ≠ s)
  | _ => true
  end.

(** [hoveredPlaceId && markersRef.current[hoveredPlaceId]]: the identifier
    must be truthy, so neither absent nor the empty string, and then the
    registry is read. *)
Definition hoveredMarker (h : Hover) (w : World) : Value :=
  match h with
  | HoverId s => if bool_decide (s = EmptyString) then IsUndefined else registry_get s w
  | _ => IsUndefined
  end.

Definition highlightMarker (c : FrameClosure) : M unit :=
  entries ← gets Object_entries;
  forEach entries (λ '(pid, marker),
    if differs pid (frHovered c) then
      marker_setIcon marker (frDefaultIcon c);;
      marker_closePopup marker
    else mret ());;
  target ← gets (hoveredMarker (frHovered c));
  match target with
  | IsMarker marker =>
      marker_setIcon marker (frHighlightedIcon c);;
      marker_openPopup marker;;
      ll ← marker_getLatLng marker;
      map_panTo ll
  | IsOther => throw "TypeError: marker.setIcon is not a function"
  | IsUndefined => mret ()
  end.

(** *** Rendering: the three effects *)

Definition centerIdent (p : MapProps) : Ident :=
  match MapProps.center p with
  | Some (r, _) => Ref r
  | None => Fresh
  end.

Definition centerValue (p : MapProps) : LatLng :=
  match MapProps.center p with
  | Some (_, c) => c
  | None => {| lat := 23022500; lng := 72571400 |}
  end.

Definition zoomValue (p : MapProps) : Z := default 12 (MapProps.zoom p).

Definition sameIdent (a b : Ident) : bool :=
  match a, b with
  | Ref x, Ref y => bool_decide (x = y)
  | _, _ => false
  end.

Definition sameInitDeps (a b : InitDeps) : bool :=
  sameIdent (d1Center a) (d1Center b)
  && bool_decide (d1Zoom a = d1Zoom b)
  && bool_decide (d1Initialized a = d1Initialized b).

Definition sameUpdateDeps (a b : UpdateDeps) : bool :=
  bool_decide (d2Places a = d2Places b)
  && bool_decide (d2DefaultIcon a = d2DefaultIcon b)
  && bool_decide (d2Initialized a = d2Initialized b).

Definition sameHoverDeps (a b : HoverDeps) : bool :=
  bool_decide (d3Hovered a = d3Hovered b)
  && bool_decide (d3DefaultIcon a = d3DefaultIcon b)
  && bool_decide (d3HighlightedIcon a = d3HighlightedIcon b).

(** First effect: on a change of [center, zoom, isMapInitialized] the
    previous run is cleaned up (its [isMounted] becomes false) and
    [initializeMap()] is called, which goes as far as its [await]. *)
Definition initEffectRun (p : MapProps) (w : World) : World :=
  let deps := {| d1Center := centerIdent p; d1Zoom := zoomValue p;
                 d1Initialized := isMapInitialized (comp w) |} in
  let changed := match initEffect (sched w) with
                 | Some (old, _) => negb (sameInitDeps old deps)
                 | None => true
                 end in
  if changed then
    let cell := nextCell (sched w) in
    enqueue (PendingInit {| initCell := cell;
                            initSawInitialized := isMapInitialized (comp w);
                            initCenter := centerValue p;
                            initZoom := zoomValue p |})
      (on_sched (λ s, set_initEffect (Some (deps, cell)) (set_nextCell (S cell) s)) w)
  else w.

(** Second effect: on a change of [places, defaultIcon, isMapInitialized],
    [if (isMapInitialized) updateMarkers()]. *)
Definition updateEffectRun (p : MapProps) (w : World) : World :=
  let deps := {| d2Places := MapProps.placesRef p;
                 d2DefaultIcon := iconRef <$> defaultIcon (comp w);
                 d2Initialized := isMapInitialized (comp w) |} in
  let changed := match updateEffect (sched w) with
                 | Some old => negb (sameUpdateDeps old deps)
                 | None => true
                 end in
  if changed then
    let w1 := on_sched (set_updateEffect (Some deps)) w in
    if isMapInitialized (comp w)
    then updateMarkers (MapProps.places p) (defaultIcon (comp w)) w1
    else w1
  else w.

Definition cancelAnimationFrame (fid : nat) : World → World :=
  on_sched (λ s, set_frames (filter (λ f, f.1 ≠ fid) (frames s)) s).

(** Third effect: on a change of [hoveredPlaceId, defaultIcon,
    highlightedIcon] the frame of the previous run is canceled; unless the
    guard returns early, [highlightMarker] is requested for the next
    animation frame. *)
Definition hoverEffectRun (p : MapProps) (w : World) : World :=
  let deps := {| d3Hovered := MapProps.hoveredPlaceId p;
                 d3DefaultIcon := iconRef <$> defaultIcon (comp w);
                 d3HighlightedIcon := iconRef <$> highlightedIcon (comp w) |} in
  let changed := match hoverEffect (sched w) with
                 | Some (old, _) => negb (sameHoverDeps old deps)
                 | None => true
                 end in
  if changed then
    let w1 := match hoverEffect (sched w) with
              | Some (_, Some fid) => cancelAnimationFrame fid w
              | _ => w
              end in
    match mapInstanceRef (comp w), defaultIcon (comp w), highlightedIcon (comp w) with
    | true, Some d, Some h =>
        let fid := nextFrame (sched w1) in
        on_sched (λ s,
          set_hoverEffect (Some (deps, Some fid))
            (set_nextFrame (S fid)
               (set_frames (frames s ++
                  [(fid, {| frHovered := MapProps.hoveredPlaceId p;
                            frDefaultIcon := d; frHighlightedIcon := h |})]) s))) w1
    | _, _, _ => on_sched (set_hoverEffect (Some (deps, None))) w1
    end
  else w.

(** A render commits (the container is attached to [mapRef]) and then
    runs the effects whose dependencies changed, in source order.  The
    cleanups touch nothing the other effects read, so each is run with its
    effect. *)
Definition render (p : MapProps) (w : World) : World :=
  hoverEffectRun p (updateEffectRun p (initEffectRun p (on_comp (set_mapRef true) w))).

Definition resume (k : Pending) : M unit :=
  match k with
  | PendingInit c => initializeMap c
  | PendingUpdate c => updateMarkers_resume c
  end.

(** *** The event loop *)

(** A render; the oldest pending import settling, with the widget call
    that will throw while its continuation runs (0 is the import itself),
    if any; an animation frame, which runs every requested callback. *)
Inductive Event :=
| Render (p : MapProps)
| ImportSettles (fault : option nat)
| AnimationFrame.

Definition step (w : World) (e : Event) : World :=
  match e with
  | Render p => render p w
  | ImportSettles fault =>
      match imports (sched w) with
      | [] => w
      | k :: q =>
          on_leaflet (set_fuse None)
            (exec (resume k)
               (on_sched (set_imports q) (on_leaflet (set_fuse fault) w)))
      end
  | AnimationFrame =>
      foldl (λ w' f, exec (highlightMarker f.2) w')
            (on_sched (set_frames []) w) (frames (sched w))
  end.

Definition run (es : list Event) (w : World) : World := foldl step w es.

(** Before the first render. *)
Definition initial : World :=
  {| leaflet := {| lmap := None; markers := []; iconsMade := 0; fuse := None |};
     comp := {| defaultIcon := None; highlightedIcon := None;
                isMapInitialized := false; mapRef := false;
                mapInstanceRef := false; markersRef := ∅; markersProto := None |};
     sched := {| imports := []; frames := []; nextFrame := 0; nextCell := 0;
                 initEffect := None; updateEffect := None; hoverEffect := None |};
     toasts := [];
     console := [] |}.

(** *** State changes render again *)



(** *** Observations *)

(** The markers that are on the map, by handle. *)
Definition onMapHandles (w : World) : list nat :=
  filter (λ h, onMap <$> markers (leaflet w) !! h = Some true)
         (seq 0 (length (markers (leaflet w)))).

Definition markerOf (w : World) (pid : string) : option Marker :=
  h ← markersRef (comp w) !! pid; markers (leaflet w) !! h.

Definition isHighlighted (m : Marker) : bool :=
  bool_decide (iconKind (icon m) = HighlightedPin).


End MapView.

(** ** Vocabulary of the statements about the map view *)

Module MapSpec.
Import MapView.

(** No widget call is going to throw. *)
Definition nofault (w : World) : Prop := fuse (leaflet w) = None.

(** What a pass leaves alone in the component. *)
Definition same_flags (w w' : World) : Prop :=
  defaultIcon (comp w') = defaultIcon (comp w)
  ∧ highlightedIcon (comp w') = highlightedIcon (comp w)
  ∧ isMapInitialized (comp w') = isMapInitialized (comp w)
  ∧ mapRef (comp w') = mapRef (comp w)
  ∧ mapInstanceRef (comp w') = mapInstanceRef (comp w).

(** No two identifiers share a marker. *)
Definition injective (reg : gmap string nat) : Prop :=
  ∀ a b h, reg !! a = Some h → reg !! b = Some h → a = b.

(** Every registered handle names a marker. *)
Definition handles_valid (w : World) : Prop :=
  ∀ pid h, markersRef (comp w) !! pid = Some h → is_Some (markers (leaflet w) !! h).

(** Each side of the box passes through one of the points. *)
Definition touches (b : Bounds) (ps : list LatLng) : Prop :=
  (∃ p, p ∈ ps ∧ lat p = south b) ∧ (∃ p, p ∈ ps ∧ lng p = west b)
  ∧ (∃ p, p ∈ ps ∧ lat p = north b) ∧ (∃ p, p ∈ ps ∧ lng p = east b).

(** *** The marker pass in closed form *)

(** The marker [addMarker] leaves on the map for a place. *)
Definition newMarker (d : Icon) (p : TouristPlace) : Marker :=
  {| latlng := TouristPlace.location p; icon := d; popup := Some (popupOf p);
     popupOpen := false; onMap := true |}.

Definition addOne (d : Icon) (w : World) (p : TouristPlace) : World :=
  on_comp (registry_set (TouristPlace.id p) (length (markers (leaflet w))))
    (on_leaflet (λ l, set_markers (markers l ++ [newMarker d p]) l) w).

Definition takeOff (w : World) (h : nat) : World :=
  alter_marker (λ m, with_onMap false (with_popupOpen false m)) h w.

Definition cleared (w : World) : World :=
  on_comp registry_fresh (foldl takeOff w (Object_values w)).

Definition rebuilt (c : UpdateClosure) (w : World) : World :=
  foldl (addOne (updDefaultIcon c)) (cleared w) (updPlaces c).

(** Some place has a name that is registered as an own property. *)
Definition registrable (ps : list TouristPlace) : Prop :=
  ∃ p, p ∈ ps ∧ TouristPlace.id p ≠ "__proto__".

Definition fitTo (b : Bounds) (padding : Z * Z) (w : World) : World :=
  on_leaflet (λ l, set_lmap (fitView b padding <$> lmap l) l) w.

Definition passed (c : UpdateClosure) (w : World) : World :=
  let w1 := rebuilt c w in
  match updPlaces c, boundsOf (positions (Object_values w1) w1) with
  | _ :: _, Some b => fitTo b (50, 50) w1
  | _ :: _, None => add_console "Error updating markers: Bounds are not valid." w1
  | [], _ => w1
  end.

(** *** The highlight pass in closed form *)

Definition reset (d : Icon) (m : Marker) : Marker :=
  with_popupOpen false (with_icon d m).

Definition resetOne (c : FrameClosure) (w : World) (e : string * nat) : World :=
  if differs e.1 (frHovered c) then alter_marker (reset (frDefaultIcon c)) e.2 w else w.

Definition lit (hi : Icon) (m : Marker) : Marker :=
  with_popupOpen (bool_decide (is_Some (popup m)) && onMap m || popupOpen m)
                 (with_icon hi m).

Definition highlighted (c : FrameClosure) (w : World) : World :=
  let w1 := foldl (resetOne c) w (Object_entries w) in
  match hoveredMarker (frHovered c) w with
  | IsMarker h =>
      match markers (leaflet w1) !! h with
      | Some m =>
          on_leaflet (λ l, set_lmap (panView (latlng m) <$> lmap l) l)
            (alter_marker (lit (frHighlightedIcon c)) h w1)
      | None => w1
      end
  | _ => w1
  end.

(** How the highlight pass ends when no widget call fails. *)
Definition highlightOutcome (c : FrameClosure) (w : World) : Res unit :=
  match hoveredMarker (frHovered c) w with
  | IsMarker h =>
      match markers (leaflet w) !! h with
      | Some _ => Done ()
      | None => Thrown "TypeError: marker is undefined"
      end
  | IsOther => Thrown "TypeError: marker.setIcon is not a function"
  | IsUndefined => Done ()
  end.

(** Some entry resets the marker [h]. *)
Definition touched (c : FrameClosure) (h : nat) (es : list (string * nat)) : bool :=
  bool_decide (Exists (λ e, e.2 = h ∧ differs e.1 (frHovered c) = true) es).

(** *** Invariants *)

(** [I] holds of whatever world the computation leaves, returning or
    throwing. *)
Definition preserves {A} (I : World → Prop) (m : M A) : Prop :=
  ∀ w, I w → I (exec m w).

(** What the [try] block of a marker pass and a highlight pass leave
    alone, relative to the world [w0] they started from. *)
Definition benign (w0 w : World) : Prop :=
  same_flags w0 w
  ∧ sched w = sched w0
  ∧ toasts w = toasts w0
  ∧ console w = console w0
  ∧ iconsMade (leaflet w) = iconsMade (leaflet w0)
  ∧ (is_Some (lmap (leaflet w)) ↔ is_Some (lmap (leaflet w0)))
  ∧ (length (markers (leaflet w0)) ≤ length (markers (leaflet w)))%nat.

(** A marker that is the prototype of the registry exists and is not
    registered. *)
Definition proto_apart (w : World) : Prop :=
  ∀ h, markersProto (comp w) = Some h →
    is_Some (markers (leaflet w) !! h) ∧ ∀ pid, markersRef (comp w) !! pid ≠ Some h.

Definition registry_ok (w : World) : Prop :=
  handles_valid w ∧ injective (markersRef (comp w)) ∧ proto_apart w.

(** The registry holds handles below [n], no two identifiers sharing one,
    and so is its prototype, apart from them. *)
Definition reg_ok (n : nat) (reg : gmap string nat) (pr : option nat) : Prop :=
  (∀ pid h, reg !! pid = Some h → (h < n)%nat) ∧ injective reg
  ∧ (∀ h, pr = Some h → (h < n)%nat ∧ ∀ pid, reg !! pid ≠ Some h).

(** A map instance is stored. *)
Definition live (w : World) : Prop := mapInstanceRef (comp w) = true.

Definition pendingInits (w : World) : list InitClosure :=
  omap (λ k, match k with PendingInit c => Some c | PendingUpdate _ => None end)
       (imports (sched w)).

(** Effect runs are numbered apart. *)
Definition cells_ok (w : World) : Prop :=
  NoDup (initCell <$> pendingInits w)
  ∧ (∀ c, c ∈ pendingInits w → (initCell c < nextCell (sched w))%nat)
  ∧ (∀ deps cell, initEffect (sched w) = Some (deps, cell) →
       (cell < nextCell (sched w))%nat).

(** At most one animation frame is requested, the one the cleanup of the
    hover effect would cancel. *)
Definition frames_ok (w : World) : Prop :=
  match frames (sched w) with
  | [] => True
  | [(fid, fc)] => live w ∧ ∃ deps, hoverEffect (sched w) = Some (deps, Some fid)
  | _ => False
  end.

(** What holds between any two events. *)
Definition Inv (w : World) : Prop :=
  nofault w
  ∧ isMapInitialized (comp w) = mapInstanceRef (comp w)
  ∧ (live w → mapRef (comp w) = true ∧ is_Some (lmap (leaflet w))
              ∧ is_Some (defaultIcon (comp w)) ∧ is_Some (highlightedIcon (comp w)))
  ∧ registry_ok w
  ∧ cells_ok w
  ∧ (live w → ∀ c, PendingInit c ∈ imports (sched w) → initGuard c w = true)
  ∧ (∀ c, PendingUpdate c ∈ imports (sched w) → live w)
  ∧ (∀ deps, updateEffect (sched w) = Some deps → d2Initialized deps = true →
       isMapInitialized (comp w) = true)
  ∧ frames_ok w.







End MapSpec.

(** ** Sample data *)

Module Sample.
Import MapView.

Definition p1 : TouristPlace :=
  {| TouristPlace.id := "p1"; TouristPlace.name := "Sabarmati Ashram";
     TouristPlace.category := "Heritage"; TouristPlace.rating := 47;
     TouristPlace.location := {| lat := 23060800; lng := 72580900 |};
     TouristPlace.businessFeatures := None |}.

Definition p2 : TouristPlace :=
  {| TouristPlace.id := "p2"; TouristPlace.name := "Kankaria Lake";
     TouristPlace.category := "Leisure"; TouristPlace.rating := 44;
     TouristPlace.location := {| lat := 23006300; lng := 72601100 |};
     TouristPlace.businessFeatures := Some {| isBusinessFriendly := true |} |}.


(** A place whose identifier is the empty string. *)
Definition unnamed : TouristPlace :=
  {| TouristPlace.id := EmptyString; TouristPlace.name := "Law Garden";
     TouristPlace.category := "Market"; TouristPlace.rating := 42;
     TouristPlace.location := {| lat := 23026500; lng := 72560400 |};
     TouristPlace.businessFeatures := None |}.

(** A place whose identifier is [__proto__]. *)
Definition proto : TouristPlace :=
  {| TouristPlace.id := "__proto__"; TouristPlace.name := "Science City";
     TouristPlace.category := "Museum"; TouristPlace.rating := 43;
     TouristPlace.location := {| lat := 23080300; lng := 72493600 |};
     TouristPlace.businessFeatures := None |}.

Definition props (ps : list TouristPlace) (r : nat) (h : Hover) : MapProps :=
  {| MapProps.places := ps; MapProps.placesRef := r; MapProps.center := None;
     MapProps.zoom := None; MapProps.hoveredPlaceId := h |}.

(** The two icons the first initialization makes. *)
Definition pin : Icon :=
  {| iconKind := DefaultPin; iconSize := (24, 24); iconAnchor := (12, 24); iconRef := 0 |}.
Definition bigPin : Icon :=
  {| iconKind := HighlightedPin; iconSize := (32, 32); iconAnchor := (16, 32); iconRef := 1 |}.

(** Mounted with no places, initialized, first (empty) marker pass and
    first highlight pass done. *)
Definition ready : World :=
  run [Render (props [] 0 HoverUndefined); ImportSettles None;
       Render (props [] 0 HoverUndefined); ImportSettles None; ImportSettles None;
       AnimationFrame] initial.

(** The events that lead to [ready], then a render with two places whose
    imports settle. *)
Definition shownBy : list Event :=
  [Render (props [] 0 HoverUndefined); ImportSettles None;
   Render (props [] 0 HoverUndefined); ImportSettles None; ImportSettles None;
   AnimationFrame;
   Render (props [p1; p2] 1 HoverUndefined); ImportSettles None; ImportSettles None].

Definition shown : World := run shownBy initial.

(** A mounted component whose first initialization has not settled. *)
Definition mounting : World := run [Render (props [p1] 0 HoverUndefined)] initial.

End Sample.

(** ** The itinerary page as rendered *)

Module ItineraryView.
Import ItineraryPage.

(** A [<button>]: what it shows, whether it is disabled, and the handler
    a click runs. *)
Record Button := {
  label : string;
  className : string;
  disabled : bool;
  onClick : Page → Page
}.

(** Below the header: the map with the list of cards (one per place, keyed
    by the place's identifier), or the empty state. *)
Inductive Body :=
| Planned (mapPlaces : list TouristPlace) (mapClassName : string)
          (cards : list (string * TouristPlace))
| EmptyState.

Record View := {
  summary : string;
  share : Button;
  download : Button;
  clearAll : Button;
  body : Body
}.

(** The [return] of the component, as far as it depends on the state:
    the summary line, the three buttons, and what is shown below them. *)
Definition render (pg : Page) : View :=
  let n := length (itinerary pg) in
  {| summary :=
       if (0 <? n)%nat
       then "You have " +:+ pretty n +:+ " place"
            +:+ (if negb (n =? 1)%nat then "s" else EmptyString)
            +:+ " in your itinerary"
       else "Start adding places to your itinerary from the Explore page";
     share :=
       {| label := "Share";
          className := "inline-flex items-center gap-2 bg-secondary text-foreground px-3 py-2 rounded-lg font-medium transition-all hover:bg-secondary/80";
          disabled := (n =? 0)%nat;
          onClick := handleShare |};
     download :=
       {| label := "Download";
          className := "inline-flex items-center gap-2 bg-secondary text-foreground px-3 py-2 rounded-lg font-medium transition-all hover:bg-secondary/80";
          disabled := (n =? 0)%nat;
          onClick := handleDownload |};
     clearAll :=
       {| label := if showConfirmClear pg then "Confirm Clear" else "Clear All";
          className :=
            "inline-flex items-center gap-2 px-3 py-2 rounded-lg font-medium transition-all "
            +:+ (if showConfirmClear pg
                 then "bg-destructive text-destructive-foreground hover:bg-destructive/90"
                 else "bg-secondary text-foreground hover:bg-secondary/80");
          disabled := (n =? 0)%nat;
          onClick := handleClearItinerary |};
     body :=
       if (0 <? n)%nat
       then Planned (itinerary pg) "mb-6 lg:mb-0 sticky top-20"
                    ((λ place, (TouristPlace.id place, place)) <$> itinerary pg)
       else EmptyState |}.

(** A click on a button runs its handler unless the button is disabled:
    a disabled button dispatches no click. *)
Definition press (b : Button) (pg : Page) : Page :=
  if disabled b then pg else onClick b pg.

Inductive Control := ShareButton | DownloadButton | ClearButton.

Definition button (k : Control) (v : View) : Button :=
  match k with
  | ShareButton => share v
  | DownloadButton => download v
  | ClearButton => clearAll v
  end.

(** The store hands the page another itinerary (a card removed a place,
    say). *)
Definition set_itinerary (it : list TouristPlace) (pg : Page) : Page :=
  {| itinerary := it; showConfirmClear := showConfirmClear pg;
     toasts := toasts pg; timers := timers pg; now := now pg;
     clearCalls := clearCalls pg |}.

(** What happens to a mounted page: a click on one of its buttons as
    rendered for the current state, time passing, the store changing. *)
Inductive UiEvent :=
| Press (k : Control)
| Wait (dt : Z)
| StoreChanged (it : list TouristPlace).

Definition ui_step (pg : Page) (e : UiEvent) : Page :=
  match e with
  | Press k => press (button k (render pg)) pg
  | Wait dt => elapse dt pg
  | StoreChanged it => set_itinerary it pg
  end.

Definition ui_run (es : list UiEvent) (pg : Page) : Page := foldl ui_step pg es.

(** The page is left to itself: nothing but its own clear changes the
    itinerary. *)
Definition own (e : UiEvent) : Prop :=
  match e with
  | StoreChanged _ => False
  | _ => True
  end.

(** The two toasts of the placeholders. *)
Definition notAvailable (t : Toast) : Prop :=
  t = ToastSuccess "Sharing is not available in the demo"
  ∨ t = ToastSuccess "Download is not available in the demo".

(** Clicks on the clear button in a trace of handler calls. *)
Definition clearClicks (es : list Event) : nat :=
  foldr (λ e n, match e with ClickClear => S n | _ => n end) 0%nat es.

(** Time does not run backwards. *)
Definition forward (e : Event) : Prop :=
  match e with
  | Elapse dt => 0 ≤ dt
  | _ => True
  end.

(** While the page is left to itself, a timer is pending only from an
    arming click: one while the confirmation shows, none when it does not
    and the clear button is enabled. *)
Definition lone_timer (pg : Page) : Prop :=
  (showConfirmClear pg = true → ∃ t, timers pg = [t] ∧ now pg < t)
  ∧ (showConfirmClear pg = false → itinerary pg ≠ [] → timers pg = []).

End ItineraryView.

(** ** The map view: what it renders, and its life cycle *)

Module MapLifecycle.
Import MapView.

(** [String.prototype.includes]: [sub] occurs somewhere in [s]. *)
Fixpoint startsWith (s sub : string) {struct sub} : bool :=
  match sub, s with
  | EmptyString, _ => true
  | String a sub', String b s' => bool_decide (a = b) && startsWith s' sub'
  | String _ _, EmptyString => false
  end.

Fixpoint includes (s sub : string) : bool :=
  startsWith s sub
  || match s with
     | EmptyString => false
     | String _ s' => includes s' sub
     end.

(** The inline style of the container:
    [height: className?.includes("h-") ? undefined : "400px"]. *)
Definition styleHeight (className : option string) : option string :=
  match className with
  | Some c => if includes c "h-" then None else Some "400px"
  | None => Some "400px"
  end.

(** The component unmounts: the cleanups of the first and third effect run
    ([isMounted = false], [cancelAnimationFrame(animationFrame)]; the
    second effect returns none) and the container is detached from
    [mapRef].  Nothing removes the map or the markers. *)
Definition unmount (w : World) : World :=
  let w1 := match hoverEffect (sched w) with
            | Some (_, Some fid) => cancelAnimationFrame fid w
            | _ => w
            end in
  on_comp (set_mapRef false)
    (on_sched (λ s, set_initEffect None (set_updateEffect None (set_hoverEffect None s))) w1).

(** The map object once [initializeMap] has run to its end: the zoom
    control it adds at the bottom right comes on top of the one a new map
    has at the top left. *)
Definition builtMap (c : InitClosure) : LMap :=
  {| viewCenter := Some (CenterAt (initCenter c));
     viewZoom := Some (ZoomAt (initZoom c));
     tileLayers := [{| tileUrl := "https://{s}.tile.openstreetmap.org/{z}/{x}/{y}.png";
                       maxZoom := 19 |}];
     controls := ["topleft"; "bottomright"];
     classes := ["transition-all duration-300"] |}.

(** The two icons it makes, the [n]-th and the next icon object. *)
Definition defaultPin (n : nat) : Icon :=
  {| iconKind := DefaultPin; iconSize := (24, 24); iconAnchor := (12, 24); iconRef := n |}.
Definition highlightedPin (n : nat) : Icon :=
  {| iconKind := HighlightedPin; iconSize := (32, 32); iconAnchor := (16, 32);
     iconRef := S n |}.

(** Identifiers that are pairwise distinct and can all be registered. *)
Definition distinct_keys (ps : list TouristPlace) : Prop :=
  NoDup (ids ps) ∧ "__proto__" ∉ ids ps.

(** No failure is injected, and no rendered list holds two places under
    one identifier or a place named [__proto__]. *)
Definition tidy (e : Event) : Prop :=
  match e with
  | Render p => distinct_keys (MapProps.places p)
  | ImportSettles f => f = None
  | AnimationFrame => True
  end.

(** On the map is what is registered, and every pass still to come is
    over pairwise distinct identifiers, none of them [__proto__]. *)
Definition neat (w : World) : Prop :=
  (∀ h, h ∈ onMapHandles w ↔ h ∈ Object_values w)
  ∧ ∀ c, PendingUpdate c ∈ imports (sched w) → distinct_keys (updPlaces c).

End MapLifecycle.

(** ** More sample data *)

Module Scenario.
Import MapView Sample.

(** The closure of the initialization the first render requests. *)
Definition firstInit : InitClosure :=
  {| initCell := 0; initSawInitialized := false;
     initCenter := {| lat := 23022500; lng := 72571400 |}; initZoom := 12 |}.

(** The first initialization fails when it sets the view: the map is on
    the container, the instance is not stored. *)
Definition stuckBy : list Event :=
  [Render (props [p1] 0 HoverUndefined); ImportSettles (Some 4%nat)].

(** Two renders with different lists, every import settled, the frame
    fired. *)
Definition tidyRun : list Event :=
  [Render (props [p1; p2] 0 (HoverId "p1")); ImportSettles None;
   Render (props [p1; p2] 0 (HoverId "p1")); ImportSettles None; ImportSettles None;
   AnimationFrame;
   Render (props [p2] 1 (HoverId "p1")); ImportSettles None; ImportSettles None].

End Scenario.

(** * Properties *)

(** ** The itinerary store *)

Section StoreFacts.
Import ItineraryStore.

Lemma store_run_snoc ops o it : run (ops ++ [o]) it = apply (run ops it) o.
Proof. unfold run. by rewrite foldl_app. Qed.

Lemma elem_ids_add i p it :
  i ∈ ids (add p it) ↔ i = TouristPlace.id p ∨ i ∈ ids it.
Proof.
  unfold add, has. case_bool_decide as Hin.
  - split; [by right | by intros [-> | ?]].
  - unfold ids. rewrite fmap_app, elem_of_app. cbn.
    rewrite list_elem_of_singleton. tauto.
Qed.

Lemma elem_ids_remove i j it :
  i ∈ ids (remove j it) ↔ i ≠ j ∧ i ∈ ids it.
Proof.
  unfold remove, ids. rewrite !list_elem_of_fmap. split.
  - intros (p & -> & Hp). apply list_elem_of_filter in Hp as [Hne Hp]. eauto.
  - intros (Hne & p & -> & Hp). exists p. split; [done |].
    by apply list_elem_of_filter.
Qed.

Lemma NoDup_ids_add p it : NoDup (ids it) → NoDup (ids (add p it)).
Proof.
  intros Hnd. unfold add, has. case_bool_decide as Hin; [done |].
  unfold ids. rewrite fmap_app. apply NoDup_app. split_and!; [done | | apply NoDup_singleton].
  intros x Hx. cbn. rewrite list_elem_of_singleton. by intros ->.
Qed.

Lemma NoDup_ids_remove j it : NoDup (ids it) → NoDup (ids (remove j it)).
Proof.
  unfold remove, ids. induction it as [| p it IH]; [done |].
  rewrite fmap_cons, NoDup_cons. intros [Hp Hnd].
  rewrite filter_cons. case_decide; [| by apply IH].
  rewrite fmap_cons, NoDup_cons. split; [| by apply IH].
  intros Hin. apply Hp. apply (elem_ids_remove _ j it) in Hin. tauto.
Qed.

Lemma added_last_snoc_add i p ops :
  added_last i (ops ++ [Add p]) ↔ TouristPlace.id p = i ∨ added_last i ops.
Proof.
  split.
  - intros (pre & q & post & Heq & Hq & Hpost).
    destruct (decide (post = [])) as [-> | Hne].
    + apply app_inj_tail in Heq as [_ Heq]. left. congruence.
    + destruct (exists_last Hne) as (post' & o & ->).
      rewrite app_comm_cons, app_assoc in Heq.
      apply app_inj_tail in Heq as [-> <-]. right.
      exists pre, q, post'. split_and!; [done | done |].
      intros Hin. apply Hpost. apply elem_of_app. by left.
  - intros [Hp | (pre & q & post & -> & Hq & Hpost)].
    + exists ops, p, []. split_and!; [done | done | apply not_elem_of_nil].
    + exists pre, q, (post ++ [Add p]). split_and!; [by rewrite <- app_assoc | done |].
      rewrite elem_of_app, list_elem_of_singleton. intros [? | ?]; [done | discriminate].
Qed.

Lemma added_last_snoc_remove i j ops :
  added_last i (ops ++ [Remove j]) ↔ i ≠ j ∧ added_last i ops.
Proof.
  split.
  - intros (pre & q & post & Heq & Hq & Hpost).
    destruct (decide (post = [])) as [-> | Hne].
    + apply app_inj_tail in Heq as [_ Heq]. discriminate.
    + destruct (exists_last Hne) as (post' & o & ->).
      rewrite app_comm_cons, app_assoc in Heq.
      apply app_inj_tail in Heq as [-> <-]. split.
      * intros ->. apply Hpost. apply elem_of_app. right. by apply list_elem_of_singleton.
      * exists pre, q, post'. split_and!; [done | done |].
        intros Hin. apply Hpost. apply elem_of_app. by left.
  - intros (Hne & pre & q & post & -> & Hq & Hpost).
    exists pre, q, (post ++ [Remove j]). split_and!; [by rewrite <- app_assoc | done |].
    rewrite elem_of_app, list_elem_of_singleton. intros [? | ?]; [done | congruence].
Qed.

Lemma added_last_nil i : ¬ added_last i [].
Proof. intros (pre & q & post & Heq & _). by destruct pre. Qed.

(** C2. After any sequence of adds and removes from the empty itinerary
    the identifiers are pairwise distinct; an identifier is in the
    itinerary exactly when some add of it is followed by no remove of it;
    and adding a place whose identifier is present returns the itinerary
    as it is. *)
Theorem itinerary_ids_after_ops (ops : list Op) :
  let it := run ops [] in
  NoDup (ids it)
  ∧ (∀ i, i ∈ ids it ↔ added_last i ops)
  ∧ (∀ p, TouristPlace.id p ∈ ids it → add p it = it).
Proof.
  cbn. split_and!.
  - induction ops as [| o ops IH] using rev_ind; [apply NoDup_nil_2 |].
    rewrite store_run_snoc. destruct o; cbn; [by apply NoDup_ids_add | by apply NoDup_ids_remove].
  - induction ops as [| o ops IH] using rev_ind.
    + intros i. split; [by intros ?%elem_of_nil | by intros ?%added_last_nil].
    + intros i. rewrite store_run_snoc. destruct o as [p | j]; cbn.
      * rewrite elem_ids_add, added_last_snoc_add, IH.
        split; (intros [? | ?]; [by left | by right]).
      * rewrite elem_ids_remove, added_last_snoc_remove, IH. done.
  - intros p Hin. unfold add, has. by rewrite bool_decide_eq_true_2.
Qed.
End StoreFacts.

(** ** The itinerary page *)

Section PageFacts.
Import ItineraryPage.

Lemma page_run_snoc es e pg : run (es ++ [e]) pg = step (run es pg) e.
Proof. unfold run. by rewrite foldl_app. Qed.

Lemma duration_snoc es e :
  duration (es ++ [e]) = duration es + duration [e].
Proof.
  unfold duration. induction es as [| x es IH]; cbn in *; [lia |].
  destruct x; rewrite ?IH; lia.
Qed.

Lemma armed_since_extend it es e pg pg' :
  e ≠ ClickClear →
  (showConfirmClear pg' = true → showConfirmClear pg = true) →
  (showConfirmClear pg' = true → ∀ d, d ∈ timers pg → d ∈ timers pg') →
  now pg' = now pg + duration [e] →
  armed_since it es pg → armed_since it (es ++ [e]) pg'.
Proof.
  intros He Harm Htim Hnow Hinv Ha.
  destruct (Hinv (Harm Ha)) as (es1 & es2 & -> & Hoff & Hno & Hin & Hn).
  exists es1, (es2 ++ [e]). split_and!.
  - by rewrite <- app_assoc.
  - done.
  - rewrite elem_of_app, list_elem_of_singleton. intros [? | ?]; [done | congruence].
  - by apply Htim.
  - rewrite duration_snoc. lia.
Qed.

Lemma page_invariant it es :
  let pg := run es (mount it) in timers_ahead pg ∧ armed_since it es pg.
Proof.
  cbn. induction es as [| e es [IHt IHa]] using rev_ind.
  - split; [by intros d ?%elem_of_nil | by intros ?].
  - rewrite page_run_snoc. set (pg := run es (mount it)) in *.
    destruct e as [| | | dt]; cbn.
    + split; [unfold handleShare; by destruct (_ =? _)%nat |].
      apply (armed_since_extend it es ClickShare pg); try done;
        unfold handleShare; destruct (_ =? _)%nat; cbn; auto; lia.
    + split; [unfold handleDownload; by destruct (_ =? _)%nat |].
      apply (armed_since_extend it es ClickDownload pg); try done;
        unfold handleDownload; destruct (_ =? _)%nat; cbn; auto; lia.
    + unfold handleClearItinerary. destruct (showConfirmClear pg) eqn:Harmed; cbn.
      * split; [done | by intros ?].
      * split.
        -- intros d [Hd | ->%list_elem_of_singleton]%elem_of_app; cbn; [by apply IHt | lia].
        -- intros _. exists es, []. split_and!; try done.
           ++ apply not_elem_of_nil.
           ++ apply elem_of_app. right. by apply list_elem_of_singleton.
           ++ subst pg. cbn. unfold duration. cbn. lia.
    + split.
      * intros d [Hd _]%list_elem_of_filter. cbn. lia.
      * apply (armed_since_extend it es (Elapse dt) pg); try done; cbn.
        -- case_bool_decide; [done | discriminate].
        -- case_bool_decide as Hdue; [| discriminate]. intros _ d Hd.
           apply list_elem_of_filter. split; [| done]. intros Hle.
           assert (d ∈ filter (λ d, d ≤ now pg + dt) (timers pg)) as Hin
             by by apply list_elem_of_filter.
           rewrite Hdue in Hin. by apply elem_of_nil in Hin.
        -- unfold duration. cbn. lia.
Qed.

(** Neither handler touches anything but the toasts. *)
Lemma toast_only t pg :
  itinerary (toast t pg) = itinerary pg
  ∧ showConfirmClear (toast t pg) = showConfirmClear pg
  ∧ timers (toast t pg) = timers pg
  ∧ clearCalls (toast t pg) = clearCalls pg.
Proof. done. Qed.

(** C8. Share and download.  With an empty itinerary the handler emits
    one error toast, with a non-empty one a toast saying that the feature
    is not available; either way that toast is all the handler adds:
    itinerary, confirmation, timers and clock are as before and the
    store's clear is not called.  Hence any sequence of clicks on the two
    buttons leaves all of these as they were and emits one toast per
    click. *)
Theorem share_download_only_notify (pg : Page) :
  (itinerary pg = [] →
     toasts (handleShare pg)
     = toasts pg ++ [ToastError "You don't have any places to share"]
     ∧ toasts (handleDownload pg)
       = toasts pg ++ [ToastError "You don't have any places to download"])
  ∧ (itinerary pg ≠ [] →
     toasts (handleShare pg)
     = toasts pg ++ [ToastSuccess "Sharing is not available in the demo"]
     ∧ toasts (handleDownload pg)
       = toasts pg ++ [ToastSuccess "Download is not available in the demo"])
  ∧ (∀ h, h = handleShare ∨ h = handleDownload →
       itinerary (h pg) = itinerary pg
       ∧ clearCalls (h pg) = clearCalls pg
       ∧ showConfirmClear (h pg) = showConfirmClear pg
       ∧ timers (h pg) = timers pg
       ∧ now (h pg) = now pg)
  ∧ (∀ es, Forall (λ e, e = ClickShare ∨ e = ClickDownload) es →
       let pg' := run es pg in
       itinerary pg' = itinerary pg
       ∧ clearCalls pg' = clearCalls pg
       ∧ showConfirmClear pg' = showConfirmClear pg
       ∧ timers pg' = timers pg
       ∧ now pg' = now pg
       ∧ length (toasts pg') = (length (toasts pg) + length es)%nat).
Proof.
  split_and!.
  - intros Hit. unfold handleShare, handleDownload. by rewrite Hit.
  - intros Hit. unfold handleShare, handleDownload.
    by destruct (itinerary pg).
  - intros h [-> | ->]; [unfold handleShare | unfold handleDownload];
      by destruct (_ =? _)%nat.
  - intros es. induction es as [| e es IH] using rev_ind; intros Hall.
    + cbn. split_and!; try done; lia.
    + apply Forall_app in Hall as [Hes He%Forall_inv].
      destruct (IH Hes) as (Hi & Hc & Hs & Ht & Hn & Hl).
      cbn zeta. rewrite page_run_snoc, length_app. cbn [length].
      destruct He as [-> | ->]; cbn [step];
        [unfold handleShare | unfold handleDownload];
        destruct (_ =? _)%nat; cbn; rewrite length_app; cbn;
        (split_and!; [done | done | done | done | done | lia]).
Qed.

(** C10. A click on the clear button while no confirmation is showing
    does not call the store and leaves the itinerary alone: it arms the
    confirmation and registers a timer that disarms it 3000 ms later.
    Over any run of the page, the store's clear is called only by a click
    on the button made while the confirmation is armed, that is, after an
    arming click less than 3000 ms earlier with no click on the button in
    between. *)
Theorem clear_needs_confirmation :
  (∀ pg, showConfirmClear pg = false →
     let pg' := handleClearItinerary pg in
     itinerary pg' = itinerary pg
     ∧ clearCalls pg' = clearCalls pg
     ∧ showConfirmClear pg' = true
     ∧ timers pg' = timers pg ++ [now pg + 3000]
     ∧ showConfirmClear (elapse 3000 pg') = false
     ∧ itinerary (elapse 3000 pg') = itinerary pg
     ∧ clearCalls (elapse 3000 pg') = clearCalls pg)
  ∧ (∀ it es e,
       let pg := run es (mount it) in
       clearCalls (step pg e) ≠ clearCalls pg →
       e = ClickClear
       ∧ showConfirmClear pg = true
       ∧ ∃ es1 es2, (es = es1 ++ ClickClear :: es2)
           ∧ showConfirmClear (run es1 (mount it)) = false
           ∧ (ClickClear ∉ es2)
           ∧ duration es2 < 3000).
Proof.
  split.
  - intros pg Hoff. unfold handleClearItinerary. rewrite Hoff. cbn.
    split_and!; try done.
    case_bool_decide as Hdue; [| done]. exfalso.
    assert (now pg + 3000 ∈ filter (λ d, d ≤ now pg + 3000) (timers pg ++ [now pg + 3000])) as Hin.
    { apply list_elem_of_filter. split; [lia |].
      apply elem_of_app. right. by apply list_elem_of_singleton. }
    rewrite Hdue in Hin. by apply elem_of_nil in Hin.
  - intros it es e pg Hcalls.
    destruct (page_invariant it es) as [Hahead Harmed]. fold pg in Hahead, Harmed.
    assert (e = ClickClear ∧ showConfirmClear pg = true) as [-> Hon].
    { destruct e; cbn in Hcalls.
      - unfold handleShare in Hcalls. by destruct (_ =? _)%nat.
      - unfold handleDownload in Hcalls. by destruct (_ =? _)%nat.
      - unfold handleClearItinerary in Hcalls.
        by destruct (showConfirmClear pg).
      - done. }
    split_and!; [done | done |].
    destruct (Harmed Hon) as (es1 & es2 & -> & Hoff & Hno & Hin & Hnow).
    exists es1, es2. split_and!; try done.
    apply Hahead in Hin. lia.
Qed.

(** A timer is never canceled, so the timer of an earlier arming may
    disarm a later one early: here the third click arms the confirmation
    at 2000 ms and the timer of the first click disarms it at 3000 ms. *)
Example stale_timer_disarms_early :
  let pg := run [ClickClear; Elapse 1000; ClickClear; Elapse 1000; ClickClear]
                (mount [Sample.p1]) in
  showConfirmClear pg = true ∧ showConfirmClear (elapse 1000 pg) = false.
Proof. by vm_compute. Qed.
End PageFacts.

(** ** The map view *)

Import MapView MapSpec.

Ltac unfold_world :=
  cbv [on_leaflet on_comp on_sched add_toast add_console
       set_lmap set_markers set_iconsMade set_fuse
       set_defaultIcon set_highlightedIcon set_isMapInitialized set_mapRef
       set_mapInstanceRef set_markersRef set_markersProto registry_fresh
       set_imports set_frames set_nextFrame set_nextCell set_initEffect
       set_updateEffect set_hoverEffect alter_marker enqueue cancelAnimationFrame
       leaflet comp sched toasts console lmap markers iconsMade fuse
       defaultIcon highlightedIcon isMapInitialized mapRef mapInstanceRef markersRef
       markersProto
       imports frames nextFrame nextCell initEffect updateEffect hoverEffect].
Ltac unfold_monad :=
  cbv [mbind M_bind mret M_ret gets modify throw call try_catch exec].

Section MapFacts.

Lemma alter_snoc {A} (f : A → A) (l : list A) (x : A) :
  alter f (length l) (l ++ [x]) = l ++ [f x].
Proof. induction l as [| y l IH]; cbn; [done | by rewrite IH]. Qed.

Lemma registry_set_flags k h c :
  defaultIcon (registry_set k h c) = defaultIcon c
  ∧ highlightedIcon (registry_set k h c) = highlightedIcon c
  ∧ isMapInitialized (registry_set k h c) = isMapInitialized c
  ∧ mapRef (registry_set k h c) = mapRef c
  ∧ mapInstanceRef (registry_set k h c) = mapInstanceRef c.
Proof. unfold registry_set. by case_bool_decide. Qed.

Lemma registry_set_own k h c :
  markersRef (registry_set k h c) =
  if bool_decide (k = "__proto__") then markersRef c else <[k := h]> (markersRef c).
Proof. unfold registry_set. by case_bool_decide. Qed.

Lemma registry_set_proto k h c :
  markersProto (registry_set k h c) =
  if bool_decide (k = "__proto__") then Some h else markersProto c.
Proof. unfold registry_set. by case_bool_decide. Qed.

Lemma addMarker_ok d p w :
  nofault w → mapInstanceRef (comp w) = true →
  addMarker d p w = (Done (), addOne d w p).
Proof.
  destruct w as [[lm ms im fu] [di hi ini mr mi reg pr] sch ts cs].
  unfold nofault. cbn. intros -> ->.
  unfold addMarker, addOne, L_marker, marker_addTo, marker_bindPopup, the_map.
  unfold_monad. unfold_world.
  rewrite !alter_snoc.
  reflexivity.
Qed.

Lemma run_bind {A B} (m : M A) (f : A → M B) w :
  (m ≫= f) w = match m w with
               | (Done a, w') => f a w'
               | (Thrown e, w') => (Thrown e, w')
               end.
Proof. reflexivity. Qed.

Lemma call_ok what w : nofault w → call what w = (Done (), w).
Proof. unfold nofault, call. by intros ->. Qed.

Lemma takeOff_frame w h :
  comp (takeOff w h) = comp w ∧ sched (takeOff w h) = sched w
  ∧ toasts (takeOff w h) = toasts w ∧ console (takeOff w h) = console w
  ∧ lmap (leaflet (takeOff w h)) = lmap (leaflet w)
  ∧ fuse (leaflet (takeOff w h)) = fuse (leaflet w)
  ∧ iconsMade (leaflet (takeOff w h)) = iconsMade (leaflet w).
Proof. done. Qed.

Lemma takeOff_all_frame hs w :
  comp (foldl takeOff w hs) = comp w ∧ sched (foldl takeOff w hs) = sched w
  ∧ toasts (foldl takeOff w hs) = toasts w ∧ console (foldl takeOff w hs) = console w
  ∧ lmap (leaflet (foldl takeOff w hs)) = lmap (leaflet w)
  ∧ fuse (leaflet (foldl takeOff w hs)) = fuse (leaflet w)
  ∧ iconsMade (leaflet (foldl takeOff w hs)) = iconsMade (leaflet w).
Proof.
  revert w. induction hs as [| h hs IH]; intros w; [done |].
  cbn [foldl]. destruct (IH (takeOff w h)) as (-> & -> & -> & -> & -> & -> & ->). done.
Qed.

Lemma takeOff_all_length hs w :
  length (markers (leaflet (foldl takeOff w hs))) = length (markers (leaflet w)).
Proof.
  revert w. induction hs as [| h hs IH]; intros w; [done |].
  cbn [foldl]. rewrite IH. cbn. by rewrite length_alter.
Qed.

Lemma takeOff_all_lookup hs w h :
  markers (leaflet (foldl takeOff w hs)) !! h =
  if bool_decide (h ∈ hs)
  then (λ m, with_onMap false (with_popupOpen false m)) <$> markers (leaflet w) !! h
  else markers (leaflet w) !! h.
Proof.
  revert w. induction hs as [| h' hs IH]; intros w; [done |].
  cbn [foldl]. rewrite IH. cbn [takeOff alter_marker on_leaflet leaflet set_markers markers].
  destruct (decide (h' = h)) as [-> | Hne].
  - rewrite list_lookup_alter_eq. rewrite (bool_decide_eq_true_2 (h ∈ h :: hs)) by left.
    case_bool_decide; [| done]. by destruct (markers (leaflet w) !! h).
  - rewrite list_lookup_alter_ne by done.
    rewrite (bool_decide_ext (h ∈ h' :: hs) (h ∈ hs)); [done |].
    rewrite elem_of_cons. split; [intros [-> | ?]; done | by right].
Qed.

Lemma forEach_remove_ok hs w :
  nofault w → forEach hs marker_remove w = (Done (), foldl takeOff w hs).
Proof.
  revert w. induction hs as [| h hs IH]; intros w Hnf; [done |].
  cbn [forEach foldl]. rewrite run_bind. unfold marker_remove at 1.
  rewrite run_bind, call_ok by done. cbn. by apply IH.
Qed.

Lemma addAll_frame d ps w :
  let w' := foldl (addOne d) w ps in
  same_flags w w' ∧ sched w' = sched w
  ∧ toasts w' = toasts w ∧ console w' = console w
  ∧ lmap (leaflet w') = lmap (leaflet w)
  ∧ fuse (leaflet w') = fuse (leaflet w)
  ∧ iconsMade (leaflet w') = iconsMade (leaflet w).
Proof.
  cbn. unfold same_flags. revert w. induction ps as [| p ps IH]; intros w; [done |].
  cbn [foldl]. destruct (IH (addOne d w p)) as ((-> & -> & -> & -> & ->) & -> & -> & -> & -> & -> & ->).
  cbn [addOne on_comp comp].
  destruct (registry_set_flags (TouristPlace.id p) (length (markers (leaflet w)))
              (comp (on_leaflet (λ l, set_markers (markers l ++ [newMarker d p]) l) w)))
    as (-> & -> & -> & -> & ->).
  done.
Qed.

Lemma addAll_snoc d ps p w :
  foldl (addOne d) w (ps ++ [p]) = addOne d (foldl (addOne d) w ps) p.
Proof. by rewrite foldl_app. Qed.

Lemma addAll_markers d ps w :
  markers (leaflet (foldl (addOne d) w ps)) = markers (leaflet w) ++ (newMarker d <$> ps).
Proof.
  induction ps as [| p ps IH] using rev_ind; [by rewrite app_nil_r |].
  rewrite addAll_snoc. cbn. rewrite IH, fmap_app. by rewrite <- app_assoc.
Qed.

Lemma addAll_registry d ps w :
  markersRef (comp w) = ∅ →
  let w' := foldl (addOne d) w ps in
  let base := length (markers (leaflet w)) in
  dom (markersRef (comp w')) = list_to_set (ids ps) ∖ {["__proto__"]}
  ∧ (∀ pid h, markersRef (comp w') !! pid = Some h →
       ∃ k p, h = (base + k)%nat ∧ ps !! k = Some p ∧ TouristPlace.id p = pid)
  ∧ (NoDup (ids ps) →
       ∀ k p, ps !! k = Some p → TouristPlace.id p ≠ "__proto__" →
         markersRef (comp w') !! TouristPlace.id p = Some (base + k)%nat).
Proof.
  intros Hempty. cbn. induction ps as [| p ps (IHdom & IHimg & IHinj)] using rev_ind.
  - cbn. rewrite Hempty. split_and!; [| by intros ?? | by intros ???].
    rewrite dom_empty_L. set_solver.
  - rewrite addAll_snoc. cbn [addOne on_comp comp on_leaflet].
    rewrite registry_set_own.
    rewrite addAll_markers, length_app, length_fmap.
    unfold ids. rewrite fmap_app, list_to_set_app_L. cbn [fmap list_fmap list_to_set].
    case_bool_decide as Hproto.
    + split_and!.
      * fold (ids ps). rewrite IHdom, Hproto. set_solver.
      * intros pid h (k & q & -> & Hk & <-)%IHimg. exists k, q. split_and!; [done | | done].
        by apply lookup_app_l_Some.
      * intros [Hnd _]%NoDup_app k q Hk Hq.
        apply lookup_app_Some in Hk as [Hk | [Hlen Hk]]; [by apply IHinj |].
        apply list_lookup_singleton_Some in Hk as [Hk <-]. done.
    + split_and!.
      * fold (ids ps). rewrite dom_insert_L, IHdom. set_solver.
      * intros pid h. rewrite lookup_insert. case_decide as Hpid.
        -- intros [= <-]. exists (length ps), p. split_and!; [done | | done].
           by rewrite lookup_app_r, Nat.sub_diag.
        -- intros (k & q & -> & Hk & <-)%IHimg. exists k, q. split_and!; [done | | done].
           by apply lookup_app_l_Some.
      * intros [Hnd [Hfresh _]]%NoDup_app k q Hk Hq.
        rewrite lookup_insert. apply lookup_app_Some in Hk as [Hk | [Hlen Hk]].
        -- case_decide as Hpid; [| by apply IHinj].
           exfalso. apply (Hfresh (TouristPlace.id q)).
           ++ apply list_elem_of_fmap. exists q. split; [done |]. by eapply list_elem_of_lookup_2.
           ++ rewrite Hpid. by apply list_elem_of_singleton.
        -- apply list_lookup_singleton_Some in Hk as [Hk <-].
           rewrite decide_True by done. f_equal. lia.
Qed.

(** The prototype after the places were added: the marker of the last
    place named [__proto__], if there is one. *)
Lemma addAll_proto d ps w :
  let w' := foldl (addOne d) w ps in
  let base := length (markers (leaflet w)) in
  ("__proto__" ∉ ids ps → markersProto (comp w') = markersProto (comp w))
  ∧ ("__proto__" ∈ ids ps →
       ∃ k p, markersProto (comp w') = Some (base + k)%nat
              ∧ ps !! k = Some p ∧ TouristPlace.id p = "__proto__").
Proof.
  cbn. induction ps as [| p ps (IHout & IHin)] using rev_ind.
  - split; [done |]. by intros ?%elem_of_nil.
  - rewrite addAll_snoc. cbn [addOne on_comp comp on_leaflet].
    rewrite registry_set_proto, addAll_markers, length_app, length_fmap.
    unfold ids. rewrite fmap_app. cbn [fmap list_fmap]. fold (ids ps).
    case_bool_decide as Hproto.
    + split.
      * intros Hout. exfalso. apply Hout, elem_of_app. right.
        rewrite Hproto. by apply list_elem_of_singleton.
      * intros _. exists (length ps), p. split_and!; [done | | done].
        by rewrite lookup_app_r, Nat.sub_diag.
    + split.
      * intros Hout. apply IHout. intros Hin. apply Hout, elem_of_app. by left.
      * intros [Hin | Hin%list_elem_of_singleton]%elem_of_app; [| done].
        destruct (IHin Hin) as (k & q & Hk & Hq & Hid). exists k, q.
        split_and!; [done | | done]. by apply lookup_app_l_Some.
Qed.

Lemma forEach_add_ok d ps w :
  nofault w → mapInstanceRef (comp w) = true →
  forEach ps (addMarker d) w = (Done (), foldl (addOne d) w ps).
Proof.
  revert w. induction ps as [| p ps IH]; intros w Hnf Href; [done |].
  cbn [forEach foldl]. rewrite run_bind, addMarker_ok by done. apply IH; [done |].
  cbn [addOne on_comp comp]. by rewrite (proj2 (proj2 (proj2 (proj2 (registry_set_flags _ _ _))))).
Qed.

(** *** Bounding boxes *)

Lemma extend_all_Some b ps : ∃ b', foldl extend (Some b) ps = Some b'.
Proof.
  revert b. induction ps as [| p ps IH]; intros b; [by exists b |].
  cbn [foldl]. unfold extend at 2. apply IH.
Qed.

Lemma boundsOf_Some ps : ps ≠ [] → ∃ b, boundsOf ps = Some b.
Proof. destruct ps as [| p ps]; [done |]. intros _. apply extend_all_Some. Qed.




Lemma touches_mono b ps qs : touches b ps → ps ⊆ qs → touches b qs.
Proof.
  intros ((p1 & ? & ?) & (p2 & ? & ?) & (p3 & ? & ?) & (p4 & ? & ?)) Hsub.
  split_and!; [exists p1 | exists p2 | exists p3 | exists p4]; auto.
Qed.



(** *** The marker pass when nothing throws *)

Lemma cleared_frame w :
  let w0 := cleared w in
  same_flags w w0 ∧ sched w0 = sched w ∧ toasts w0 = toasts w ∧ console w0 = console w
  ∧ lmap (leaflet w0) = lmap (leaflet w) ∧ fuse (leaflet w0) = fuse (leaflet w)
  ∧ iconsMade (leaflet w0) = iconsMade (leaflet w)
  ∧ markersRef (comp w0) = ∅
  ∧ length (markers (leaflet w0)) = length (markers (leaflet w))
  ∧ markersProto (comp w0) = None.
Proof.
  cbn. unfold cleared, same_flags. cbn.
  destruct (takeOff_all_frame (Object_values w) w) as (-> & -> & -> & -> & -> & -> & ->).
  by rewrite takeOff_all_length.
Qed.

Lemma rebuilt_frame c w :
  let w1 := rebuilt c w in
  same_flags w w1 ∧ sched w1 = sched w ∧ toasts w1 = toasts w ∧ console w1 = console w
  ∧ lmap (leaflet w1) = lmap (leaflet w) ∧ fuse (leaflet w1) = fuse (leaflet w)
  ∧ iconsMade (leaflet w1) = iconsMade (leaflet w).
Proof.
  cbn. unfold rebuilt.
  pose proof (addAll_frame (updDefaultIcon c) (updPlaces c) (cleared w)) as H1.
  pose proof (cleared_frame w) as H0. cbn in H0, H1. unfold same_flags in *.
  destruct H1 as ((? & ? & ? & ? & ?) & ? & ? & ? & ? & ? & ?).
  destruct H0 as ((? & ? & ? & ? & ?) & ? & ? & ? & ? & ? & ? & _).
  split_and!; congruence.
Qed.

Lemma rebuilt_markers c w :
  markers (leaflet (rebuilt c w)) =
  markers (leaflet (cleared w)) ++ (newMarker (updDefaultIcon c) <$> updPlaces c).
Proof. apply addAll_markers. Qed.

Lemma rebuilt_registry c w :
  let w1 := rebuilt c w in
  let base := length (markers (leaflet w)) in
  dom (markersRef (comp w1)) = list_to_set (ids (updPlaces c)) ∖ {["__proto__"]}
  ∧ (∀ pid h, markersRef (comp w1) !! pid = Some h →
       ∃ k p, h = (base + k)%nat ∧ updPlaces c !! k = Some p ∧ TouristPlace.id p = pid)
  ∧ (NoDup (ids (updPlaces c)) →
       ∀ k p, updPlaces c !! k = Some p → TouristPlace.id p ≠ "__proto__" →
         markersRef (comp w1) !! TouristPlace.id p = Some (base + k)%nat).
Proof.
  cbn. destruct (cleared_frame w) as (_ & _ & _ & _ & _ & _ & _ & Hreg & Hlen & _).
  rewrite <- Hlen. by apply addAll_registry.
Qed.

(** The registry's prototype after the pass. *)
Lemma rebuilt_proto c w :
  let w1 := rebuilt c w in
  let base := length (markers (leaflet w)) in
  ("__proto__" ∉ ids (updPlaces c) → markersProto (comp w1) = None)
  ∧ ("__proto__" ∈ ids (updPlaces c) →
       ∃ k p, markersProto (comp w1) = Some (base + k)%nat
              ∧ updPlaces c !! k = Some p ∧ TouristPlace.id p = "__proto__").
Proof.
  cbn. destruct (cleared_frame w) as (_ & _ & _ & _ & _ & _ & _ & _ & Hlen & Hpr).
  rewrite <- Hlen, <- Hpr. apply addAll_proto.
Qed.

(** A marker created for the [k]-th place. *)
Lemma rebuilt_new_marker c w k p :
  updPlaces c !! k = Some p →
  markers (leaflet (rebuilt c w)) !! (length (markers (leaflet w)) + k)%nat
  = Some (newMarker (updDefaultIcon c) p).
Proof.
  intros Hk. rewrite rebuilt_markers.
  destruct (cleared_frame w) as (_ & _ & _ & _ & _ & _ & _ & _ & <- & _).
  rewrite lookup_app_r by lia.
  replace (_ + k - _)%nat with k by lia. by rewrite list_lookup_fmap, Hk.
Qed.

(** A marker that existed before the pass. *)
Lemma rebuilt_old_marker c w h :
  (h < length (markers (leaflet w)))%nat →
  markers (leaflet (rebuilt c w)) !! h =
  if bool_decide (h ∈ Object_values w)
  then (λ m, with_onMap false (with_popupOpen false m)) <$> markers (leaflet w) !! h
  else markers (leaflet w) !! h.
Proof.
  intros Hh. rewrite rebuilt_markers.
  destruct (cleared_frame w) as (_ & _ & _ & _ & _ & _ & _ & _ & Hlen & _).
  rewrite lookup_app_l by lia. unfold cleared. cbn. apply takeOff_all_lookup.
Qed.

Lemma registered_marker c w pid h :
  markersRef (comp (rebuilt c w)) !! pid = Some h →
  ∃ p, p ∈ updPlaces c ∧ TouristPlace.id p = pid
       ∧ (length (markers (leaflet w)) ≤ h)%nat
       ∧ markers (leaflet (rebuilt c w)) !! h = Some (newMarker (updDefaultIcon c) p).
Proof.
  intros (k & p & -> & Hk & Hid)%rebuilt_registry. exists p. split_and!.
  - by eapply list_elem_of_lookup_2.
  - done.
  - lia.
  - by apply rebuilt_new_marker.
Qed.

Lemma elem_Object_values w h :
  h ∈ Object_values w ↔ ∃ pid, markersRef (comp w) !! pid = Some h.
Proof.
  unfold Object_values. rewrite list_elem_of_fmap. split.
  - intros ([pid h'] & -> & Hin%elem_of_map_to_list). by exists pid.
  - intros (pid & Hpid). exists (pid, h). split; [done |]. by apply elem_of_map_to_list.
Qed.

Lemma rebuilt_box c w :
  registrable (updPlaces c) →
  ∃ b, boundsOf (positions (Object_values (rebuilt c w)) (rebuilt c w)) = Some b.
Proof.
  intros (p & Hp & Hne). apply boundsOf_Some.
  destruct (rebuilt_registry c w) as (Hdom & _ & _). cbn in Hdom.
  assert (TouristPlace.id p ∈ dom (markersRef (comp (rebuilt c w)))) as Hin.
  { rewrite Hdom. apply elem_of_difference. split; [| by rewrite elem_of_singleton].
    apply elem_of_list_to_set, list_elem_of_fmap. by exists p. }
  apply elem_of_dom in Hin as [h Hh].
  pose proof Hh as (q & _ & _ & _ & Hq)%registered_marker.
  intros Hnil.
  assert (latlng (newMarker (updDefaultIcon c) q)
          ∈ positions (Object_values (rebuilt c w)) (rebuilt c w)) as Hpos.
  { unfold positions. apply list_elem_of_omap. exists h. split.
    - apply elem_Object_values. eauto.
    - by rewrite Hq. }
  rewrite Hnil in Hpos. by apply elem_of_nil in Hpos.
Qed.

Lemma updateMarkers_resume_ok c w :
  nofault w → mapInstanceRef (comp w) = true →
  updateMarkers_resume c w = (Done (), passed c w).
Proof.
  intros Hnf Href. unfold updateMarkers_resume, updateMarkers_try, try_catch, L_import.
  rewrite run_bind, call_ok by done.
  rewrite run_bind. unfold gets at 1.
  rewrite run_bind, forEach_remove_ok by done.
  rewrite run_bind. unfold modify at 1. fold (cleared w).
  destruct (cleared_frame w) as ((_ & _ & _ & _ & Href0) & _ & _ & _ & _ & Hnf0 & _).
  rewrite run_bind, forEach_add_ok; [| unfold nofault; congruence | congruence].
  fold (rebuilt c w). unfold passed.
  destruct (rebuilt_frame c w) as ((_ & _ & _ & _ & Href1) & _ & _ & _ & _ & Hnf1 & _).
  set (w1 := rebuilt c w) in *.
  destruct (updPlaces c) as [| p ps]; [done |].
  assert (nofault w1) as Hnf1' by (unfold nofault; congruence).
  cbn [length Nat.ltb Nat.leb].
  unfold featureGroup_getBounds, map_fitBounds, the_map, gets.
  repeat (rewrite run_bind || rewrite call_ok by done).
  rewrite Href1, Href. cbn [mret M_ret].
  repeat (rewrite run_bind || rewrite call_ok by done).
  by destruct (boundsOf _).
Qed.

(** What the viewport step of the pass leaves alone. *)
Lemma passed_console c w :
  console (passed c w) =
  match updPlaces c, boundsOf (positions (Object_values (rebuilt c w)) (rebuilt c w)) with
  | _ :: _, None => console (rebuilt c w) ++ ["Error updating markers: Bounds are not valid."]
  | _, _ => console (rebuilt c w)
  end.
Proof. unfold passed. cbn. destruct (updPlaces c); [done |]. by destruct (boundsOf _). Qed.

Lemma elem_onMapHandles w h :
  h ∈ onMapHandles w ↔ ∃ m, markers (leaflet w) !! h = Some m ∧ onMap m = true.
Proof.
  unfold onMapHandles. rewrite list_elem_of_filter, elem_of_seq. split.
  - intros [Hon _]. destruct (markers (leaflet w) !! h) as [m |]; [| done].
    exists m. split; [done |]. cbn in Hon. congruence.
  - intros (m & Hm & Hon). rewrite Hm. cbn. split; [by rewrite Hon |].
    apply lookup_lt_Some in Hm. lia.
Qed.

Lemma NoDup_onMapHandles w : NoDup (onMapHandles w).
Proof. apply NoDup_filter, NoDup_seq. Qed.

Lemma NoDup_Object_values w :
  injective (markersRef (comp w)) → NoDup (Object_values w).
Proof.
  intros Hinj. unfold Object_values. apply NoDup_fmap_2_strong; [| apply NoDup_map_to_list].
  intros [a h] [b h'] Ha%elem_of_map_to_list Hb%elem_of_map_to_list. cbn. intros <-.
  f_equal. by eapply Hinj.
Qed.


Lemma passed_markers c w :
  markers (leaflet (passed c w)) = markers (leaflet (rebuilt c w))
  ∧ comp (passed c w) = comp (rebuilt c w)
  ∧ sched (passed c w) = sched (rebuilt c w)
  ∧ toasts (passed c w) = toasts (rebuilt c w).
Proof. unfold passed. cbn. destruct (updPlaces c); [done |]. by destruct (boundsOf _). Qed.

Lemma passed_onMapHandles c w : onMapHandles (passed c w) = onMapHandles (rebuilt c w).
Proof. unfold onMapHandles. by destruct (passed_markers c w) as (-> & _). Qed.

Lemma passed_Object_values c w : Object_values (passed c w) = Object_values (rebuilt c w).
Proof. unfold Object_values. by destruct (passed_markers c w) as (_ & -> & _). Qed.

(** The markers on the map after a pass: the strays of before (on the
    map, not registered) and the new ones. *)
Lemma rebuilt_onMap c w h :
  h ∈ onMapHandles (rebuilt c w) ↔
  (h ∈ onMapHandles w ∧ h ∉ Object_values w)
  ∨ (length (markers (leaflet w)) ≤ h < length (markers (leaflet w)) + length (updPlaces c))%nat.
Proof.
  rewrite !elem_onMapHandles.
  destruct (decide (h < length (markers (leaflet w)))%nat) as [Hlt | Hge].
  - rewrite rebuilt_old_marker by done. case_bool_decide as Hreg.
    + split.
      * intros (m & Hm & Hon). destruct (markers (leaflet w) !! h); [| done].
        cbn in Hm. injection Hm as <-. done.
      * intros [[_ Hn] | ?]; [done | lia].
    + split; [intros ?; by left | intros [[? _] | ?]; [done | lia]].
  - split.
    + intros (m & Hm%lookup_lt_Some & _). right.
      rewrite rebuilt_markers, length_app, length_fmap in Hm.
      destruct (cleared_frame w) as (_ & _ & _ & _ & _ & _ & _ & _ & Hlen). lia.
    + intros [[(m & Hm%lookup_lt_Some & _) _] | Hrange]; [lia |].
      destruct (lookup_lt_is_Some_2 (updPlaces c) (h - length (markers (leaflet w)))%nat)
        as [p Hp]; [lia |].
      exists (newMarker (updDefaultIcon c) p). split; [| done].
      rewrite <- (rebuilt_new_marker c w _ p Hp). f_equal. lia.
Qed.

Lemma rebuilt_values_distinct c w :
  NoDup (ids (updPlaces c)) → "__proto__" ∉ ids (updPlaces c) →
  ∀ h, h ∈ Object_values (rebuilt c w) ↔
       (length (markers (leaflet w)) ≤ h < length (markers (leaflet w)) + length (updPlaces c))%nat.
Proof.
  intros Hnd Hout h. rewrite elem_Object_values. split.
  - intros (pid & (k & p & -> & Hk%lookup_lt_Some & _)%rebuilt_registry). lia.
  - intros Hrange.
    destruct (lookup_lt_is_Some_2 (updPlaces c) (h - length (markers (leaflet w)))%nat)
      as [p Hp]; [lia |].
    exists (TouristPlace.id p).
    destruct (rebuilt_registry c w) as (_ & _ & Hinj).
    rewrite (Hinj Hnd _ _ Hp).
    + f_equal. lia.
    + intros Hid. apply Hout. rewrite <- Hid. apply list_elem_of_fmap. exists p.
      split; [done |]. by eapply list_elem_of_lookup_2.
Qed.





Lemma resetAll_frame c es w :
  let w' := foldl (resetOne c) w es in
  comp w' = comp w ∧ sched w' = sched w ∧ toasts w' = toasts w ∧ console w' = console w
  ∧ lmap (leaflet w') = lmap (leaflet w) ∧ fuse (leaflet w') = fuse (leaflet w)
  ∧ iconsMade (leaflet w') = iconsMade (leaflet w)
  ∧ length (markers (leaflet w')) = length (markers (leaflet w)).
Proof.
  cbn. revert w. induction es as [| e es IH]; intros w; [done |].
  cbn [foldl]. destruct (IH (resetOne c w e)) as (-> & -> & -> & -> & -> & -> & -> & ->).
  unfold resetOne. destruct (differs _ _); [| done]. cbn. by rewrite length_alter.
Qed.

Lemma reset_idemp d m : reset d (reset d m) = reset d m.
Proof. done. Qed.

Lemma touched_nil c h : touched c h [] = false.
Proof. unfold touched. apply bool_decide_eq_false_2. by intros ?%Exists_nil. Qed.

Lemma touched_cons c h pid h' es :
  touched c h ((pid, h') :: es) =
  bool_decide (h' = h) && differs pid (frHovered c) || touched c h es.
Proof.
  unfold touched. apply eq_true_iff_eq.
  rewrite orb_true_iff, andb_true_iff, !bool_decide_eq_true, Exists_cons. done.
Qed.

Lemma resetAll_lookup c es w h :
  markers (leaflet (foldl (resetOne c) w es)) !! h =
  if touched c h es then reset (frDefaultIcon c) <$> markers (leaflet w) !! h
  else markers (leaflet w) !! h.
Proof.
  revert w. induction es as [| [pid h'] es IH]; intros w.
  - by rewrite touched_nil.
  - cbn [foldl]. rewrite IH, touched_cons. unfold resetOne. cbn [fst snd].
    destruct (differs pid (frHovered c)) eqn:Hd.
    + cbn [alter_marker on_leaflet leaflet set_markers markers].
      case_bool_decide as Hh.
      * subst h'. rewrite list_lookup_alter_eq. cbn [andb orb].
        destruct (touched c h es); [| done]. by destruct (markers (leaflet w) !! h).
      * by rewrite list_lookup_alter_ne.
    + by rewrite andb_false_r.
Qed.

Lemma forEach_reset_ok c es w :
  nofault w →
  forEach es (λ '(pid, marker),
    if differs pid (frHovered c) then
      marker_setIcon marker (frDefaultIcon c);; marker_closePopup marker
    else mret ()) w
  = (Done (), foldl (resetOne c) w es).
Proof.
  revert w. induction es as [| [pid h] es IH]; intros w Hnf; [done |].
  cbn [forEach foldl]. rewrite run_bind. unfold resetOne at 2. cbn [fst snd].
  destruct (differs pid (frHovered c)).
  - unfold marker_setIcon, marker_closePopup, modify.
    repeat (rewrite run_bind || rewrite call_ok by done).
    rewrite <- IH by done. f_equal.
    unfold alter_marker, reset. unfold_world. by rewrite list_alter_alter_eq.
  - cbn [mret M_ret]. by apply IH.
Qed.

Lemma alter_missing {A} (f : A → A) (l : list A) h : l !! h = None → alter f h l = l.
Proof.
  revert h. induction l as [| x l IH]; intros [| h]; cbn; try done.
  intros Hh. f_equal. by apply IH.
Qed.

Lemma hoveredMarker_ext hov w w' : comp w' = comp w → hoveredMarker hov w' = hoveredMarker hov w.
Proof. intros Hc. unfold hoveredMarker, registry_get. by rewrite Hc. Qed.

(** The highlight pass when no widget call fails: how it ends, and what
    it leaves. *)
Lemma highlightMarker_ok c w :
  nofault w → mapInstanceRef (comp w) = true →
  highlightMarker c w = (highlightOutcome c w, highlighted c w).
Proof.
  intros Hnf Href. unfold highlightMarker, highlighted, highlightOutcome.
  rewrite run_bind. unfold gets at 1.
  rewrite run_bind, forEach_reset_ok by done.
  destruct (resetAll_frame c (Object_entries w) w) as (Hc & _ & _ & _ & _ & Hf & _ & Hlen).
  set (w1 := foldl (resetOne c) w (Object_entries w)) in *.
  assert (nofault w1) as Hnf1 by (unfold nofault; congruence).
  rewrite run_bind. unfold gets at 1.
  rewrite (hoveredMarker_ext _ w w1) by done.
  destruct (hoveredMarker (frHovered c) w) as [h | |] eqn:Hh; [| done | done].
  assert (mapInstanceRef (comp w1) = true) as Href1 by congruence.
  assert (markers (leaflet w) !! h = None ↔ markers (leaflet w1) !! h = None) as Hnone.
  { rewrite !lookup_ge_None. by rewrite Hlen. }
  destruct (markers (leaflet w1) !! h) as [m |] eqn:Hm.
  - destruct (markers (leaflet w) !! h) as [m0 |] eqn:Hm0; [| by pose proof (proj1 Hnone eq_refl)].
    clear Hm0. clearbody w1. clear Hc Hf Hlen Hh Hnone.
    destruct w1 as [[lm ms im fu] [di hi ini mr mi reg pr] sch ts cs].
    unfold nofault in Hnf1. cbn in Hnf1, Href1, Hm. subst fu mi.
    unfold marker_setIcon, marker_openPopup, marker_getLatLng, map_panTo, the_map, on_map, lit.
    unfold_monad. unfold_world.
    rewrite list_alter_alter_eq, list_lookup_alter_eq, Hm. done.
  - destruct (markers (leaflet w) !! h) as [m0 |] eqn:Hm0;
      [by pose proof (proj2 Hnone eq_refl) |].
    clear Hm0. clearbody w1. clear Hc Hf Hlen Hh Hnone.
    destruct w1 as [[lm ms im fu] [di hi ini mr mi reg pr] sch ts cs].
    unfold nofault in Hnf1. cbn in Hnf1, Href1, Hm. subst fu mi.
    unfold marker_setIcon, marker_openPopup, marker_getLatLng, map_panTo, the_map, on_map, lit.
    unfold_monad. unfold_world.
    rewrite !(alter_missing _ ms) by done. rewrite Hm. done.
Qed.

Lemma highlightMarker_exec c w :
  nofault w → mapInstanceRef (comp w) = true →
  exec (highlightMarker c) w = highlighted c w.
Proof. intros Hnf Href. unfold exec. by rewrite highlightMarker_ok. Qed.

End MapFacts.

(** *** The highlight pass *)

Section HighlightFacts.

Lemma touched_true c h w :
  touched c h (Object_entries w) = true ↔
  ∃ pid, markersRef (comp w) !! pid = Some h ∧ differs pid (frHovered c) = true.
Proof.
  unfold touched, Object_entries. rewrite bool_decide_eq_true, Exists_exists. split.
  - intros ([pid h'] & Hin%elem_of_map_to_list & Hh & Hd). cbn in *. subst. eauto.
  - intros (pid & Hpid & Hd). exists (pid, h). split; [by apply elem_of_map_to_list | done].
Qed.

Lemma registry_get_own s w h :
  markersRef (comp w) !! s = Some h → registry_get s w = IsMarker h.
Proof. unfold registry_get. by intros ->. Qed.

(** A marker is read from the registry as an own property, or under
    [__proto__] as the prototype. *)
Lemma registry_get_IsMarker s w h :
  registry_get s w = IsMarker h →
  markersRef (comp w) !! s = Some h
  ∨ (markersRef (comp w) !! s = None ∧ s = "__proto__" ∧ markersProto (comp w) = Some h).
Proof.
  unfold registry_get. destruct (markersRef (comp w) !! s) as [h' |]; [intros [= ->]; by left |].
  destruct (markersProto (comp w)) as [h' |]; [| by case_bool_decide].
  case_bool_decide as Hs; [intros [= ->]; by right |]. by case_bool_decide.
Qed.

Lemma hoveredMarker_own s w h :
  s ≠ EmptyString → markersRef (comp w) !! s = Some h → hoveredMarker (HoverId s) w = IsMarker h.
Proof.
  intros Hs Hh. unfold hoveredMarker. rewrite bool_decide_eq_false_2 by done.
  by apply registry_get_own.
Qed.

Lemma hoveredMarker_IsMarker hov w h :
  hoveredMarker hov w = IsMarker h →
  ∃ s, hov = HoverId s ∧ s ≠ EmptyString ∧ registry_get s w = IsMarker h.
Proof.
  unfold hoveredMarker. destruct hov as [| | s]; [done | done |].
  case_bool_decide as Hs; [done |]. intros Hh. by exists s.
Qed.

Lemma differs_self s : differs s (HoverId s) = false.
Proof. cbn. by apply bool_decide_eq_false_2; intros ?. Qed.


Lemma highlighted_frame c w :
  let w' := highlighted c w in
  comp w' = comp w ∧ sched w' = sched w ∧ toasts w' = toasts w ∧ console w' = console w
  ∧ fuse (leaflet w') = fuse (leaflet w)
  ∧ iconsMade (leaflet w') = iconsMade (leaflet w)
  ∧ length (markers (leaflet w')) = length (markers (leaflet w))
  ∧ (is_Some (lmap (leaflet w')) ↔ is_Some (lmap (leaflet w))).
Proof.
  cbn. unfold highlighted.
  destruct (resetAll_frame c (Object_entries w) w) as (Hc & Hs & Ht & Hcs & Hl & Hf & Hi & Hlen).
  destruct (hoveredMarker _ w) as [h | |]; [| by rewrite Hl | by rewrite Hl].
  destruct (markers _ !! h) as [m |]; [| by rewrite Hl].
  cbn. rewrite length_alter, Hl, fmap_is_Some. done.
Qed.

(** The marker the hover selection names is reset by no entry. *)
Lemma target_untouched c w h :
  injective (markersRef (comp w)) → proto_apart w →
  hoveredMarker (frHovered c) w = IsMarker h →
  touched c h (Object_entries w) = false.
Proof.
  intros Hinj Hapart (s & Hs & _ & Hget)%hoveredMarker_IsMarker.
  destruct (touched c h (Object_entries w)) eqn:Ht; [| done].
  apply touched_true in Ht as (pid & Hpid & Hd).
  apply registry_get_IsMarker in Hget as [Hreg | (_ & _ & Hpr)].
  - rewrite (Hinj _ _ _ Hpid Hreg), Hs, differs_self in Hd. done.
  - destruct (Hapart h Hpr) as [_ Hno]. by destruct (Hno pid).
Qed.

(** A registered marker whose identifier differs from the hover selection
    is reset. *)
Lemma highlighted_other c w pid h :
  injective (markersRef (comp w)) → proto_apart w →
  markersRef (comp w) !! pid = Some h →
  differs pid (frHovered c) = true →
  markers (leaflet (highlighted c w)) !! h
  = reset (frDefaultIcon c) <$> markers (leaflet w) !! h.
Proof.
  intros Hinj Hapart Hpid Hd.
  assert (markers (leaflet (foldl (resetOne c) w (Object_entries w))) !! h
          = reset (frDefaultIcon c) <$> markers (leaflet w) !! h) as Hreset.
  { rewrite resetAll_lookup.
    assert (touched c h (Object_entries w) = true) as -> by (apply touched_true; eauto).
    done. }
  unfold highlighted.
  destruct (hoveredMarker _ w) as [h0 | |] eqn:Hh0; [| done | done].
  destruct (markers _ !! h0) as [m |] eqn:Hm; [| done].
  cbn. rewrite list_lookup_alter_ne; [done |].
  intros ->. pose proof (target_untouched c w h Hinj Hapart Hh0) as Ht.
  assert (touched c h (Object_entries w) = true) as Ht' by (apply touched_true; eauto).
  congruence.
Qed.

(** A registered marker whose identifier is the hover selection, when the
    pass lights no marker: it stays as it is. *)
Lemma highlighted_skipped c w pid h :
  injective (markersRef (comp w)) →
  markersRef (comp w) !! pid = Some h →
  differs pid (frHovered c) = false →
  (∀ h0, hoveredMarker (frHovered c) w ≠ IsMarker h0) →
  markers (leaflet (highlighted c w)) !! h = markers (leaflet w) !! h.
Proof.
  intros Hinj Hpid Hd Hno.
  assert (markers (leaflet (foldl (resetOne c) w (Object_entries w))) !! h
          = markers (leaflet w) !! h) as Hsame.
  { rewrite resetAll_lookup.
    destruct (touched c h (Object_entries w)) eqn:Ht; [| done].
    apply touched_true in Ht as (pid' & Hpid' & Hd').
    rewrite (Hinj _ _ _ Hpid' Hpid) in Hd'. congruence. }
  unfold highlighted.
  destruct (hoveredMarker _ w) as [h0 | |] eqn:Hh0; [| done | done].
  by destruct (Hno h0).
Qed.

(** The marker the hover selection names is lit, and the view pans to
    it. *)
Lemma highlighted_target c w h m :
  injective (markersRef (comp w)) → proto_apart w →
  hoveredMarker (frHovered c) w = IsMarker h →
  markers (leaflet w) !! h = Some m →
  markers (leaflet (highlighted c w)) !! h = Some (lit (frHighlightedIcon c) m)
  ∧ lmap (leaflet (highlighted c w)) = panView (latlng m) <$> lmap (leaflet w).
Proof.
  intros Hinj Hapart Hh Hm.
  assert (markers (leaflet (foldl (resetOne c) w (Object_entries w))) !! h = Some m) as Hsame.
  { by rewrite resetAll_lookup, (target_untouched c w h). }
  unfold highlighted. rewrite Hh, Hsame. cbn.
  rewrite list_lookup_alter_eq, Hsame.
  by destruct (resetAll_frame c (Object_entries w) w) as (_ & _ & _ & _ & -> & _).
Qed.

Lemma highlighted_no_target c w :
  (∀ h, hoveredMarker (frHovered c) w ≠ IsMarker h) →
  lmap (leaflet (highlighted c w)) = lmap (leaflet w).
Proof.
  intros Hh. unfold highlighted.
  destruct (resetAll_frame c (Object_entries w) w) as (_ & _ & _ & _ & Hl & _).
  destruct (hoveredMarker _ w) as [h | |]; [by destruct (Hh h) | done | done].
Qed.

(** What the highlight pass does to the registered markers and the view. *)
Lemma highlight_pass_facts (c : FrameClosure) (w : World) :
  nofault w → mapInstanceRef (comp w) = true → registry_ok w →
  let w' := exec (highlightMarker c) w in
  (markersRef (comp w') = markersRef (comp w)
   ∧ markersProto (comp w') = markersProto (comp w))
  ∧ (∀ pid m, markerOf w pid = Some m → differs pid (frHovered c) = true →
       markerOf w' pid = Some (reset (frDefaultIcon c) m)
       ∧ icon (reset (frDefaultIcon c) m) = frDefaultIcon c
       ∧ popupOpen (reset (frDefaultIcon c) m) = false)
  ∧ (∀ s m, frHovered c = HoverId s → s ≠ EmptyString → markerOf w s = Some m →
       (highlightMarker c w).1 = Done ()
       ∧ markerOf w' s = Some (lit (frHighlightedIcon c) m)
       ∧ icon (lit (frHighlightedIcon c) m) = frHighlightedIcon c
       ∧ (is_Some (popup m) → onMap m = true →
            popupOpen (lit (frHighlightedIcon c) m) = true)
       ∧ lmap (leaflet w') = panView (latlng m) <$> lmap (leaflet w)
       ∧ ∀ pid m', pid ≠ s → markerOf w' pid = Some m' →
           icon m' = frDefaultIcon c ∧ popupOpen m' = false)
  ∧ (frHovered c = HoverId EmptyString →
       (highlightMarker c w).1 = Done ()
       ∧ markerOf w' EmptyString = markerOf w EmptyString
       ∧ lmap (leaflet w') = lmap (leaflet w))
  ∧ ((frHovered c = HoverUndefined ∨ frHovered c = HoverNull
      ∨ ∃ s, frHovered c = HoverId s ∧ registry_get s w = IsUndefined) →
       (highlightMarker c w).1 = Done ()
       ∧ lmap (leaflet w') = lmap (leaflet w)
       ∧ ∀ pid m', markerOf w' pid = Some m' →
           icon m' = frDefaultIcon c ∧ popupOpen m' = false)
  ∧ (∀ s, frHovered c = HoverId s → s ≠ EmptyString → registry_get s w = IsOther →
       (highlightMarker c w).1 = Thrown "TypeError: marker.setIcon is not a function"
       ∧ lmap (leaflet w') = lmap (leaflet w)
       ∧ ∀ pid m', markerOf w' pid = Some m' →
           icon m' = frDefaultIcon c ∧ popupOpen m' = false)
  ∧ (∀ h m, frHovered c = HoverId "__proto__" →
       markersRef (comp w) !! "__proto__" = None →
       markersProto (comp w) = Some h → markers (leaflet w) !! h = Some m →
       (highlightMarker c w).1 = Done ()
       ∧ markers (leaflet w') !! h = Some (lit (frHighlightedIcon c) m)
       ∧ lmap (leaflet w') = panView (latlng m) <$> lmap (leaflet w)
       ∧ ∀ pid m', markerOf w' pid = Some m' →
           icon m' = frDefaultIcon c ∧ popupOpen m' = false).
Proof.
  intros Hnf Href (Hvalid & Hinj & Hapart). unfold exec.
  rewrite highlightMarker_ok by done. cbn [fst snd].
  destruct (highlighted_frame c w) as (Hc & _). unfold markerOf. rewrite Hc.
  assert (∀ pid m', differs pid (frHovered c) = true →
            markersRef (comp w) !! pid ≫= (λ h, markers (leaflet (highlighted c w)) !! h)
              = Some m' →
            icon m' = frDefaultIcon c ∧ popupOpen m' = false) as Hothers.
  { intros pid m' Hd Hm'. destruct (markersRef (comp w) !! pid) as [h |] eqn:Hpid; [| done].
    cbn in Hm'. rewrite (highlighted_other c w pid h) in Hm' by done.
    destruct (markers (leaflet w) !! h) as [m |]; [| done]. by injection Hm' as <-. }
  assert (∀ s, frHovered c = HoverId s → markersRef (comp w) !! s = None →
            ∀ pid m',
              markersRef (comp w) !! pid ≫= (λ h, markers (leaflet (highlighted c w)) !! h)
                = Some m' →
              icon m' = frDefaultIcon c ∧ popupOpen m' = false) as Hunreg.
  { intros s Hs Hnone pid m' Hm'. apply (Hothers pid); [| done].
    rewrite Hs. cbn. apply bool_decide_eq_true_2. intros ->. by rewrite Hnone in Hm'. }
  split_and!.
  - done.
  - done.
  - intros pid m Hm Hd. destruct (markersRef (comp w) !! pid) as [h |] eqn:Hpid; [| done].
    cbn in Hm. cbn. rewrite (highlighted_other c w pid h), Hm by done. done.
  - intros s m Hs Hne Hm. destruct (markersRef (comp w) !! s) as [h |] eqn:Hreg; [| done].
    cbn in Hm. cbn [mbind option_bind].
    assert (hoveredMarker (frHovered c) w = IsMarker h) as Hh
      by (rewrite Hs; by apply hoveredMarker_own).
    destruct (highlighted_target c w h m Hinj Hapart Hh Hm) as [-> ->].
    split_and!; try done.
    + unfold highlightOutcome. by rewrite Hh, Hm.
    + intros [p Hp] Hon. unfold lit. cbn. rewrite Hp, Hon.
      rewrite bool_decide_eq_true_2 by eauto. done.
    + intros pid m' Hpid. apply Hothers. rewrite Hs. cbn.
      by apply bool_decide_eq_true_2.
  - intros Hs.
    assert (hoveredMarker (frHovered c) w = IsUndefined) as Hh by by rewrite Hs.
    split_and!.
    + unfold highlightOutcome. by rewrite Hh.
    + destruct (markersRef (comp w) !! EmptyString) as [h |] eqn:Hreg; [| done]. cbn.
      apply (highlighted_skipped c w EmptyString); [done | done | | by rewrite Hh].
      rewrite Hs. apply differs_self.
    + apply highlighted_no_target. by rewrite Hh.
  - intros Hnone.
    assert (hoveredMarker (frHovered c) w = IsUndefined) as Hh.
    { destruct Hnone as [-> | [-> | (s & -> & Hs)]]; try done.
      cbn. by case_bool_decide. }
    split_and!.
    + unfold highlightOutcome. by rewrite Hh.
    + apply highlighted_no_target. by rewrite Hh.
    + destruct Hnone as [Hu | [Hn | (s & Hs & Hget)]].
      * intros pid m'. apply Hothers. by rewrite Hu.
      * intros pid m'. apply Hothers. by rewrite Hn.
      * apply (Hunreg s Hs). unfold registry_get in Hget.
        by destruct (markersRef (comp w) !! s).
  - intros s Hs Hne Hget.
    assert (hoveredMarker (frHovered c) w = IsOther) as Hh.
    { rewrite Hs. cbn. by rewrite bool_decide_eq_false_2. }
    split_and!.
    + unfold highlightOutcome. by rewrite Hh.
    + apply highlighted_no_target. by rewrite Hh.
    + apply (Hunreg s Hs). unfold registry_get in Hget.
      by destruct (markersRef (comp w) !! s).
  - intros h m Hs Hown Hpr Hm.
    assert (hoveredMarker (frHovered c) w = IsMarker h) as Hh.
    { rewrite Hs. cbn. unfold registry_get. by rewrite Hown, Hpr. }
    destruct (highlighted_target c w h m Hinj Hapart Hh Hm) as [-> ->].
    split_and!; try done.
    + unfold highlightOutcome. by rewrite Hh, Hm.
    + by apply (Hunreg "__proto__").
Qed.

(** C3. The highlight pass, when no widget call fails.  Every registered
    marker whose identifier differs from the hover selection gets the
    default icon and has its popup closed.  If the selection is an
    identifier other than the empty string and names a registered marker,
    that marker gets the highlighted icon, its popup opens (it has one and
    is on the map), the view is centred on it and the zoom is kept, and
    every other registered marker bears the default icon.  If the
    selection is the empty string, the marker registered under it is left
    as it is and the view stays: the selection is tested for truth, not
    against null.  If the selection is absent, or names nothing the
    registry or its prototype chain answers to, every registered marker
    gets the default icon and the view stays.  If it names something else
    the prototype chain answers to, the same happens and the pass throws.
    If it is [__proto__] and the prototype is a marker, that marker is lit
    and the view centred on it. *)
Theorem hover_highlight_pass (c : FrameClosure) (w : World) :
  nofault w → mapInstanceRef (comp w) = true → registry_ok w →
  let w' := exec (highlightMarker c) w in
  (markersRef (comp w') = markersRef (comp w)
   ∧ markersProto (comp w') = markersProto (comp w))
  ∧ (∀ pid m, markerOf w pid = Some m → differs pid (frHovered c) = true →
       markerOf w' pid = Some (reset (frDefaultIcon c) m)
       ∧ icon (reset (frDefaultIcon c) m) = frDefaultIcon c
       ∧ popupOpen (reset (frDefaultIcon c) m) = false)
  ∧ (∀ s m, frHovered c = HoverId s → s ≠ EmptyString → markerOf w s = Some m →
       (highlightMarker c w).1 = Done ()
       ∧ markerOf w' s = Some (lit (frHighlightedIcon c) m)
       ∧ icon (lit (frHighlightedIcon c) m) = frHighlightedIcon c
       ∧ (is_Some (popup m) → onMap m = true →
            popupOpen (lit (frHighlightedIcon c) m) = true)
       ∧ lmap (leaflet w') = panView (latlng m) <$> lmap (leaflet w)
       ∧ ∀ pid m', pid ≠ s → markerOf w' pid = Some m' →
           icon m' = frDefaultIcon c ∧ popupOpen m' = false)
  ∧ (frHovered c = HoverId EmptyString →
       (highlightMarker c w).1 = Done ()
       ∧ markerOf w' EmptyString = markerOf w EmptyString
       ∧ lmap (leaflet w') = lmap (leaflet w))
  ∧ ((frHovered c = HoverUndefined ∨ frHovered c = HoverNull
      ∨ ∃ s, frHovered c = HoverId s ∧ registry_get s w = IsUndefined) →
       (highlightMarker c w).1 = Done ()
       ∧ lmap (leaflet w') = lmap (leaflet w)
       ∧ ∀ pid m', markerOf w' pid = Some m' →
           icon m' = frDefaultIcon c ∧ popupOpen m' = false)
  ∧ (∀ s, frHovered c = HoverId s → s ≠ EmptyString → registry_get s w = IsOther →
       (highlightMarker c w).1 = Thrown "TypeError: marker.setIcon is not a function"
       ∧ lmap (leaflet w') = lmap (leaflet w)
       ∧ ∀ pid m', markerOf w' pid = Some m' →
           icon m' = frDefaultIcon c ∧ popupOpen m' = false)
  ∧ (∀ h m, frHovered c = HoverId "__proto__" →
       markersRef (comp w) !! "__proto__" = None →
       markersProto (comp w) = Some h → markers (leaflet w) !! h = Some m →
       (highlightMarker c w).1 = Done ()
       ∧ markers (leaflet w') !! h = Some (lit (frHighlightedIcon c) m)
       ∧ lmap (leaflet w') = panView (latlng m) <$> lmap (leaflet w)
       ∧ ∀ pid m', markerOf w' pid = Some m' →
           icon m' = frDefaultIcon c ∧ popupOpen m' = false).
Proof.
  intros Hnf Href Hreg w'.
  destruct (highlight_pass_facts c w Hnf Href Hreg)
    as (Hsame & Hothers & Htarget & Hempty & Hnone & Hthrows & Hproto).
  split; [exact Hsame |]. split; [exact Hothers |]. split; [exact Htarget |].
  split; [exact Hempty |]. split; [exact Hnone |]. split; [exact Hthrows |].
  exact Hproto.
Qed.
End HighlightFacts.

(** *** Properties kept by computations that may throw *)

Section Preserves.
Context (I : World → Prop).

Lemma preserves_ret {A} (a : A) : preserves I (mret a).
Proof. by intros w. Qed.

Lemma preserves_bind {A B} (m : M A) (f : A → M B) :
  preserves I m → (∀ a, preserves I (f a)) → preserves I (m ≫= f).
Proof.
  intros Hm Hf w Hw. unfold exec. rewrite run_bind.
  specialize (Hm w Hw). unfold exec in Hm.
  destruct (m w) as [[a | e] w1]; cbn in *; [by apply Hf | done].
Qed.

Lemma preserves_gets {A} (f : World → A) : preserves I (gets f).
Proof. by intros w. Qed.

Lemma preserves_throw {A} e : preserves I (@throw A e).
Proof. by intros w. Qed.

Lemma preserves_modify (f : World → World) :
  (∀ w, I w → I (f w)) → preserves I (modify f).
Proof. intros Hf w Hw. by apply Hf. Qed.

Lemma preserves_forEach {A} (l : list A) (f : A → M unit) :
  (∀ x, preserves I (f x)) → preserves I (forEach l f).
Proof.
  intros Hf. induction l as [| x l IH]; [apply preserves_ret |].
  cbn [forEach]. apply preserves_bind; [apply Hf | by intros _].
Qed.

Lemma preserves_try_catch (body : M unit) (handler : string → M unit) :
  preserves I body → (∀ e, preserves I (handler e)) →
  preserves I (try_catch body handler).
Proof.
  intros Hb Hh w Hw. unfold exec, try_catch.
  specialize (Hb w Hw). unfold exec in Hb.
  destruct (body w) as [[a | e] w1]; cbn in *; [done | by apply Hh].
Qed.

(** From here on [I] does not look at the fuse. *)
Hypothesis I_fuse : ∀ w f, I w → I (on_leaflet (set_fuse f) w).

Lemma preserves_call what : preserves I (call what).
Proof.
  intros w Hw. unfold exec, call.
  destruct (fuse (leaflet w)) as [[| n] |]; cbn; auto.
Qed.

Lemma preserves_the_map : preserves I the_map.
Proof.
  apply preserves_bind; [apply preserves_gets |].
  intros [|]; [apply preserves_ret | apply preserves_throw].
Qed.

Hypothesis I_alter : ∀ w f h, I w → I (alter_marker f h w).
Hypothesis I_view : ∀ w f, I w → I (on_leaflet (λ l, set_lmap (f <$> lmap l) l) w).

Lemma preserves_on_map what f : preserves I (on_map what f).
Proof.
  apply preserves_bind; [apply preserves_call | intros _].
  apply preserves_modify. auto.
Qed.

Lemma preserves_marker_remove h : preserves I (marker_remove h).
Proof.
  apply preserves_bind; [apply preserves_call | intros _].
  apply preserves_modify. auto.
Qed.

Lemma preserves_marker_setIcon h i : preserves I (marker_setIcon h i).
Proof.
  apply preserves_bind; [apply preserves_call | intros _].
  apply preserves_modify. auto.
Qed.

Lemma preserves_marker_closePopup h : preserves I (marker_closePopup h).
Proof.
  apply preserves_bind; [apply preserves_call | intros _].
  apply preserves_modify. auto.
Qed.

Lemma preserves_marker_openPopup h : preserves I (marker_openPopup h).
Proof.
  apply preserves_bind; [apply preserves_call | intros _].
  apply preserves_modify. auto.
Qed.

Lemma preserves_marker_getLatLng h : preserves I (marker_getLatLng h).
Proof.
  apply preserves_bind; [apply preserves_call | intros _].
  apply preserves_bind; [apply preserves_gets | intros [m |]];
    [apply preserves_ret | apply preserves_throw].
Qed.

Lemma preserves_map_panTo c : preserves I (map_panTo c).
Proof.
  apply preserves_bind; [apply preserves_the_map | intros _].
  apply preserves_on_map.
Qed.

Lemma preserves_getBounds hs : preserves I (featureGroup_getBounds hs).
Proof.
  apply preserves_bind; [apply preserves_call | intros _].
  apply preserves_bind; [apply preserves_call | intros _].
  apply preserves_gets.
Qed.

Lemma preserves_map_fitBounds b padding : preserves I (map_fitBounds b padding).
Proof.
  apply preserves_bind; [apply preserves_the_map | intros _].
  apply preserves_bind; [apply preserves_call | intros _].
  destruct b; [| apply preserves_throw].
  apply preserves_modify. auto.
Qed.

Lemma preserves_highlightMarker c : preserves I (highlightMarker c).
Proof.
  apply preserves_bind; [apply preserves_gets | intros es].
  apply preserves_bind.
  { apply preserves_forEach. intros [pid h]. destruct (differs _ _); [| apply preserves_ret].
    apply preserves_bind; [apply preserves_marker_setIcon | intros _].
    apply preserves_marker_closePopup. }
  intros _. apply preserves_bind; [apply preserves_gets | intros [h | |]];
    [| apply preserves_throw | apply preserves_ret].
  apply preserves_bind; [apply preserves_marker_setIcon | intros _].
  apply preserves_bind; [apply preserves_marker_openPopup | intros _].
  apply preserves_bind; [apply preserves_marker_getLatLng | intros ll].
  apply preserves_map_panTo.
Qed.

(** The marker pass, given that clearing the registry and adding one
    marker preserve [I]. *)
Hypothesis I_clear : ∀ w, I w → I (on_comp registry_fresh w).
Hypothesis I_addMarker : ∀ d p, preserves I (addMarker d p).

Lemma preserves_updateMarkers_try c : preserves I (updateMarkers_try c).
Proof.
  apply preserves_bind; [apply preserves_call | intros _].
  apply preserves_bind; [apply preserves_gets | intros old].
  apply preserves_bind; [apply preserves_forEach, preserves_marker_remove | intros _].
  apply preserves_bind; [by apply preserves_modify | intros _].
  apply preserves_bind; [by apply preserves_forEach | intros _].
  destruct (_ <? _)%nat; [| apply preserves_ret].
  apply preserves_bind; [apply preserves_gets | intros hs].
  apply preserves_bind; [apply preserves_getBounds | intros b].
  apply preserves_map_fitBounds.
Qed.
End Preserves.

Section RegistryFacts.
Lemma registry_ok_alt w :
  registry_ok w ↔
  reg_ok (length (markers (leaflet w))) (markersRef (comp w)) (markersProto (comp w)).
Proof.
  unfold registry_ok, reg_ok, handles_valid, proto_apart.
  split; intros (Hv & Hi & Hp); (split_and!; [| done |]).
  - intros pid h Hh. by apply lookup_lt_is_Some, (Hv pid).
  - intros h Hh. destruct (Hp h Hh) as [Hlt Hno]. split; [| done].
    by apply lookup_lt_is_Some.
  - intros pid h Hh. by apply lookup_lt_is_Some, (Hv pid).
  - intros h Hh. destruct (Hp h Hh) as [Hlt Hno]. split; [| done].
    by apply lookup_lt_is_Some.
Qed.

Lemma reg_ok_mono n n' reg pr : (n ≤ n')%nat → reg_ok n reg pr → reg_ok n' reg pr.
Proof.
  intros Hle (Hv & Hi & Hp). split_and!; [| done |].
  - intros pid h Hh%Hv. lia.
  - intros h Hh. destruct (Hp h Hh). split; [lia | done].
Qed.

Lemma reg_ok_empty n : reg_ok n ∅ None.
Proof. split_and!; [by intros ?? | by intros ???? | by intros ?]. Qed.

Lemma reg_ok_set n pid c :
  reg_ok n (markersRef c) (markersProto c) →
  reg_ok (S n) (markersRef (registry_set pid n c)) (markersProto (registry_set pid n c)).
Proof.
  intros (Hv & Hi & Hp). rewrite registry_set_own, registry_set_proto.
  case_bool_decide as Hpid.
  - split_and!; [| done |].
    + intros a h Hh%Hv. lia.
    + intros h [= <-]. split; [lia |]. intros a Ha%Hv. lia.
  - split_and!.
    + intros a h. rewrite lookup_insert. case_decide; [intros [= <-]; lia |].
      intros Hh%Hv. lia.
    + intros a b h. rewrite !lookup_insert. repeat case_decide; subst.
      * done.
      * intros [= <-] Hb%Hv. lia.
      * intros Ha%Hv [= <-]. lia.
      * apply Hi.
    + intros h Hh. destruct (Hp h Hh) as [Hlt Hno]. split; [lia |].
      intros a. rewrite lookup_insert. case_decide; [intros [= <-]; lia | apply Hno].
Qed.

Lemma registry_ok_fuse w f : registry_ok w → registry_ok (on_leaflet (set_fuse f) w).
Proof. done. Qed.

Lemma registry_ok_alter w f h : registry_ok w → registry_ok (alter_marker f h w).
Proof. rewrite !registry_ok_alt. cbn. by rewrite length_alter. Qed.

Lemma registry_ok_view w f :
  registry_ok w → registry_ok (on_leaflet (λ l, set_lmap (f <$> lmap l) l) w).
Proof. done. Qed.

Lemma registry_ok_clear w : registry_ok w → registry_ok (on_comp registry_fresh w).
Proof. rewrite !registry_ok_alt. intros _. apply reg_ok_empty. Qed.

Lemma registry_ok_addMarker d p : preserves registry_ok (addMarker d p).
Proof.
  intros w Hw. apply registry_ok_alt in Hw. apply registry_ok_alt.
  destruct w as [[lm ms im fu] [di hi ini mr mi reg pr] sch ts cs]. cbn in Hw.
  unfold exec, addMarker, L_marker, marker_addTo, marker_bindPopup, the_map.
  unfold_monad. unfold_world.
  destruct fu as [[| [| [| n]]] |]; destruct mi; cbn -[registry_set];
    rewrite ?length_alter, ?length_app; cbn -[registry_set]; rewrite ?Nat.add_1_r;
    try done; try (by apply reg_ok_set);
    by (eapply reg_ok_mono; [| done]; lia).
Qed.

Lemma benign_refl w : benign w w.
Proof. unfold benign, same_flags. split_and!; done. Qed.

Lemma benign_fuse w0 w f : benign w0 w → benign w0 (on_leaflet (set_fuse f) w).
Proof. done. Qed.

Lemma benign_alter w0 w f h : benign w0 w → benign w0 (alter_marker f h w).
Proof. unfold benign. cbn. by rewrite length_alter. Qed.

Lemma benign_view w0 w f :
  benign w0 w → benign w0 (on_leaflet (λ l, set_lmap (f <$> lmap l) l) w).
Proof. unfold benign. cbn. by rewrite fmap_is_Some. Qed.

Lemma benign_clear w0 w : benign w0 w → benign w0 (on_comp registry_fresh w).
Proof. done. Qed.

Lemma benign_addMarker w0 d p : preserves (benign w0) (addMarker d p).
Proof.
  pose proof (benign_fuse w0) as Hf. pose proof (benign_alter w0) as Ha.
  apply preserves_bind.
  { apply preserves_bind; [by apply preserves_call | intros _].
    apply preserves_bind; [apply preserves_gets | intros h].
    apply preserves_bind; [| intros _; apply preserves_ret].
    apply preserves_modify. unfold benign. cbn. intros w. rewrite length_app. cbn.
    intros (? & ? & ? & ? & ? & ? & ?). split_and!; try done. lia. }
  intros h. apply preserves_bind.
  { apply preserves_bind; [by apply preserves_the_map | intros _].
    apply preserves_bind; [by apply preserves_call | intros _].
    apply preserves_modify. auto. }
  intros _. apply preserves_bind.
  { apply preserves_bind; [by apply preserves_call | intros _].
    apply preserves_modify. auto. }
  intros _. apply preserves_modify. unfold benign, same_flags. intros w.
  cbn [on_comp comp leaflet sched toasts console].
  by destruct (registry_set_flags (TouristPlace.id p) h (comp w)) as (-> & -> & -> & -> & ->).
Qed.

(** Whatever throws in the [try] block of a marker pass, and wherever:
    flags, scheduler, toasts and console are as before. *)
Lemma updateMarkers_try_benign c w : benign w (exec (updateMarkers_try c) w).
Proof.
  apply (preserves_updateMarkers_try (benign w)); try apply benign_refl.
  - apply benign_fuse.
  - apply benign_alter.
  - apply benign_view.
  - apply benign_clear.
  - apply benign_addMarker.
Qed.

Lemma updateMarkers_try_registry c : preserves registry_ok (updateMarkers_try c).
Proof.
  apply preserves_updateMarkers_try.
  - apply registry_ok_fuse.
  - apply registry_ok_alter.
  - apply registry_ok_view.
  - apply registry_ok_clear.
  - apply registry_ok_addMarker.
Qed.

Lemma highlightMarker_benign c w : benign w (exec (highlightMarker c) w).
Proof.
  apply (preserves_highlightMarker (benign w)); try apply benign_refl.
  - apply benign_fuse.
  - apply benign_alter.
  - apply benign_view.
Qed.

Lemma highlightMarker_registry c : preserves registry_ok (highlightMarker c).
Proof.
  apply preserves_highlightMarker.
  - apply registry_ok_fuse.
  - apply registry_ok_alter.
  - apply registry_ok_view.
Qed.
End RegistryFacts.

(** *** Initialization *)

Ltac unfold_setup :=
  cbv [initializeMap_setup L_divIcon L_map
    map_setView L_tileLayer tileLayer_addTo DomUtil_addClass L_Control_Zoom
    map_addControl on_map setDefaultIcon setHighlightedIcon setIsMapInitialized
    mbind M_bind mret M_ret gets modify throw call try_catch exec
    on_leaflet on_comp on_sched add_toast add_console
       set_lmap set_markers set_iconsMade set_fuse
       set_defaultIcon set_highlightedIcon set_isMapInitialized set_mapRef
       set_mapInstanceRef set_markersRef set_markersProto
       leaflet comp sched toasts console lmap markers iconsMade fuse
       defaultIcon highlightedIcon isMapInitialized mapRef mapInstanceRef markersRef
       markersProto
       fst snd fmap option_fmap option_map].

(** Splits on the widget call at which the fuse runs out, if at any of
    the ten calls of the setup. *)
Ltac fuse_cases fu :=
  destruct fu as [[| [| [| [| [| [| [| [| [| [| ?]]]]]]]]]] |].

Section SetupFacts.

(** The setup either gets as far as storing the instance, and then the
    flag is set too, or leaves both alone. *)
Lemma initializeMap_setup_spec c w :
  let r := (initializeMap_setup c w).1 in
  let w' := (initializeMap_setup c w).2 in
  sched w' = sched w ∧ toasts w' = toasts w ∧ console w' = console w
  ∧ markers (leaflet w') = markers (leaflet w)
  ∧ markersRef (comp w') = markersRef (comp w)
  ∧ mapRef (comp w') = mapRef (comp w)
  ∧ ((mapInstanceRef (comp w') = mapInstanceRef (comp w)
      ∧ isMapInitialized (comp w') = isMapInitialized (comp w)
      ∧ ∃ e, r = Thrown e)
     ∨ (mapInstanceRef (comp w') = true ∧ isMapInitialized (comp w') = true
        ∧ is_Some (lmap (leaflet w')) ∧ is_Some (defaultIcon (comp w'))
        ∧ is_Some (highlightedIcon (comp w'))))
  ∧ (is_Some (lmap (leaflet w)) → is_Some (lmap (leaflet w')))
  ∧ (is_Some (defaultIcon (comp w)) → is_Some (defaultIcon (comp w')))
  ∧ (is_Some (highlightedIcon (comp w)) → is_Some (highlightedIcon (comp w'))).
Proof.
  destruct w as [[lm ms im fu] [di hi ini mr mi reg pr] sch ts cs].
  fuse_cases fu; destruct lm as [m |]; unfold_setup.
  all: split_and!; try done;
    first [ left; split_and!; [done | done | by eexists]
          | right; split_and!; by eauto 2 ].
Qed.

Lemma initializeMap_setup_proto c w :
  markersProto (comp (initializeMap_setup c w).2) = markersProto (comp w).
Proof.
  destruct w as [[lm ms im fu] [di hi ini mr mi reg pr] sch ts cs].
  fuse_cases fu; destruct lm as [m |]; by unfold_setup.
Qed.
End SetupFacts.

Section InitFacts.
Lemma initGuard_frame c w w' :
  initEffect (sched w') = initEffect (sched w) → mapRef (comp w') = mapRef (comp w) →
  initGuard c w' = initGuard c w.
Proof. unfold initGuard, isMounted. by intros -> ->. Qed.

(** With no fault and no map on the container yet, the setup runs to its
    end. *)
Lemma initializeMap_setup_ok c w :
  nofault w → lmap (leaflet w) = None →
  (initializeMap_setup c w).1 = Done ().
Proof.
  destruct w as [[lm ms im fu] [di hi ini mr mi reg pr] sch ts cs].
  unfold nofault. cbn. intros -> ->. by unfold_setup.
Qed.

(** A fault at one of the first eight calls of the setup (the ninth call
    of the function, counting the import) comes before the instance is
    stored. *)
Lemma initializeMap_setup_early c w n :
  fuse (leaflet w) = Some n → (n < 8)%nat →
  (∃ e, (initializeMap_setup c w).1 = Thrown e)
  ∧ mapInstanceRef (comp (initializeMap_setup c w).2) = mapInstanceRef (comp w)
  ∧ isMapInitialized (comp (initializeMap_setup c w).2) = isMapInitialized (comp w).
Proof.
  destruct w as [[lm ms im fu] [di hi ini mr mi reg pr] sch ts cs]. cbn. intros -> Hn.
  do 8 (destruct n as [| n]; [destruct lm; unfold_setup; eauto |]). lia.
Qed.

Lemma initializeMap_try_eq c w :
  initializeMap_try c w =
  match call "import(leaflet)" w with
  | (Done _, w1) => if initGuard c w1 then (Done (), w1) else initializeMap_setup c w1
  | (Thrown e, w1) => (Thrown e, w1)
  end.
Proof.
  unfold initializeMap_try, L_import. rewrite run_bind.
  destruct (call _ w) as [[[] | e] w1]; [| done].
  rewrite run_bind. unfold gets. by destruct (initGuard c w1).
Qed.

Lemma init_handler_eq e w :
  (console_error ("Error initializing map: " +:+ e);;
   toast_error "Failed to load map. Please refresh the page.") w
  = (Done (), add_toast (ToastError "Failed to load map. Please refresh the page.")
                (add_console ("Error initializing map: " +:+ e) w)).
Proof. done. Qed.

Lemma call_frame what w :
  let w1 := (call what w).2 in
  sched w1 = sched w ∧ comp w1 = comp w ∧ toasts w1 = toasts w
  ∧ console w1 = console w ∧ markers (leaflet w1) = markers (leaflet w)
  ∧ lmap (leaflet w1) = lmap (leaflet w)
  ∧ iconsMade (leaflet w1) = iconsMade (leaflet w).
Proof. cbn. unfold call. by destruct (fuse (leaflet w)) as [[| n] |]. Qed.

(** The whole function, after the import settled. *)
Lemma initializeMap_spec c w :
  let w' := exec (initializeMap c) w in
  sched w' = sched w
  ∧ markers (leaflet w') = markers (leaflet w)
  ∧ markersRef (comp w') = markersRef (comp w)
  ∧ mapRef (comp w') = mapRef (comp w)
  ∧ (initGuard c w = true →
       comp w' = comp w ∧ lmap (leaflet w') = lmap (leaflet w)
       ∧ iconsMade (leaflet w') = iconsMade (leaflet w))
  ∧ ((mapInstanceRef (comp w') = mapInstanceRef (comp w)
      ∧ isMapInitialized (comp w') = isMapInitialized (comp w))
     ∨ (initGuard c w = false
        ∧ mapInstanceRef (comp w') = true ∧ isMapInitialized (comp w') = true
        ∧ is_Some (lmap (leaflet w')) ∧ is_Some (defaultIcon (comp w'))
        ∧ is_Some (highlightedIcon (comp w'))))
  ∧ (is_Some (lmap (leaflet w)) → is_Some (lmap (leaflet w')))
  ∧ (is_Some (defaultIcon (comp w)) → is_Some (defaultIcon (comp w')))
  ∧ (is_Some (highlightedIcon (comp w)) → is_Some (highlightedIcon (comp w'))).
Proof.
  cbn. unfold exec, initializeMap, try_catch. rewrite initializeMap_try_eq.
  pose proof (call_frame "import(leaflet)" w) as Hframe. cbn in Hframe.
  destruct (call "import(leaflet)" w) as [[[] | e] w1]; cbn in Hframe;
    destruct Hframe as (Hs & Hc & Ht & Hcs & Hm & Hl & Hi).
  - rewrite (initGuard_frame c w w1) by congruence.
    destruct (initGuard c w) eqn:Hg.
    + cbn. rewrite Hl, Hi, Hc. split_and!; try congruence; try done. by left.
    + pose proof (initializeMap_setup_spec c w1) as Hsetup. cbn in Hsetup.
      destruct (initializeMap_setup c w1) as [[[] | e] w2];
        [| rewrite init_handler_eq]; cbn in Hsetup |- *;
        destruct Hsetup as (Hs2 & Ht2 & Hcs2 & Hm2 & Hr2 & Hmr2 & Hflag & Hl2 & Hd2 & Hh2);
        rewrite <- Hl, <- Hc;
        (split_and!; try congruence; try done;
         destruct Hflag as [(? & ? & _) | (? & ? & ? & ? & ?)];
           [left; done | right; done]).
  - rewrite init_handler_eq. cbn. rewrite ?Hl, ?Hi, ?Hc.
    split_and!; try congruence; try done. by left.
Qed.

(** Initialization leaves the prototype of the registry alone. *)
Lemma initializeMap_proto c w :
  markersProto (comp (exec (initializeMap c) w)) = markersProto (comp w).
Proof.
  unfold exec, initializeMap, try_catch. rewrite initializeMap_try_eq.
  pose proof (call_frame "import(leaflet)" w) as Hframe. cbn in Hframe.
  destruct (call "import(leaflet)" w) as [[[] | e] w1]; cbn in Hframe;
    destruct Hframe as (_ & Hc & _).
  - destruct (initGuard c w1); [cbn; by rewrite Hc |].
    pose proof (initializeMap_setup_proto c w1) as Hsetup.
    destruct (initializeMap_setup c w1) as [[[] | e] w2];
      [| rewrite init_handler_eq]; cbn in Hsetup |- *; by rewrite Hsetup, Hc.
  - rewrite init_handler_eq. cbn. by rewrite Hc.
Qed.
End InitFacts.

(** *** The invariant of the event loop *)

Section InvFacts.

Lemma elem_pendingInits c w : c ∈ pendingInits w ↔ PendingInit c ∈ imports (sched w).
Proof.
  unfold pendingInits. rewrite list_elem_of_omap. split.
  - intros ([c' | u] & Hin & Heq); [| done]. by injection Heq as ->.
  - intros Hin. by exists (PendingInit c).
Qed.

Lemma Inv_initial : Inv initial.
Proof.
  unfold Inv, initial, nofault, live, registry_ok, handles_valid, injective,
    cells_ok, frames_ok, pendingInits. cbn.
  split_and!; try done.
  - apply NoDup_nil_2.
  - by intros c ?%elem_of_nil.
  - by intros c ?%elem_of_nil.
Qed.

Lemma Inv_mapRef w : Inv w → Inv (on_comp (set_mapRef true) w).
Proof.
  intros (Hnf & Hflag & Hlive & Hreg & Hcells & Hguard & Hupd & Hseen & Hfr).
  unfold Inv. split_and!; try done.
  - intros Hl. destruct (Hlive Hl) as (_ & ? & ? & ?). done.
  - intros Hl c Hc. etrans; [| exact (Hguard Hl c Hc)].
    apply initGuard_frame; [done |]. destruct (Hlive Hl) as (Hmr & _). by rewrite Hmr.
Qed.

Lemma Inv_initEffectRun p w : Inv w → Inv (initEffectRun p w).
Proof.
  intros HI. unfold initEffectRun.
  destruct (match initEffect (sched w) with
            | Some (old, _) => negb (sameInitDeps old _)
            | None => true
            end); [| done].
  destruct HI as (Hnf & Hflag & Hlive & Hreg & (Hnd & Hlt & Hcur) & Hguard & Hupd & Hseen & Hfr).
  set (cnew := {| initCell := nextCell (sched w);
                  initSawInitialized := isMapInitialized (comp w);
                  initCenter := centerValue p; initZoom := zoomValue p |}).
  unfold Inv. split_and!; try done.
  - unfold cells_ok, pendingInits. cbn. rewrite omap_app. cbn. fold (pendingInits w).
    split_and!.
    + rewrite fmap_app. apply NoDup_app. split_and!; [done | | apply NoDup_singleton].
      intros x (c & -> & Hc%Hlt)%list_elem_of_fmap. cbn.
      rewrite list_elem_of_singleton. lia.
    + intros c [Hc%Hlt | ->%list_elem_of_singleton]%elem_of_app; cbn; lia.
    + intros deps cell [= _ <-]. lia.
  - intros Hl c. cbn. rewrite elem_of_app, list_elem_of_singleton.
    intros [Hc | [= ->]].
    + unfold initGuard, isMounted. cbn.
      apply elem_pendingInits, Hlt in Hc.
      rewrite bool_decide_eq_false_2 by lia. done.
    + unfold initGuard. cbn. rewrite Hflag, Hl. by rewrite !orb_true_r.
  - intros c. cbn. rewrite elem_of_app, list_elem_of_singleton.
    intros [Hc | [=]]. by eapply Hupd.
Qed.

Lemma Inv_updateEffectRun p w : Inv w → Inv (updateEffectRun p w).
Proof.
  intros HI. unfold updateEffectRun.
  destruct (match updateEffect (sched w) with
            | Some old => negb (sameUpdateDeps old _)
            | None => true
            end); [| done].
  destruct HI as (Hnf & Hflag & Hlive & Hreg & Hcells & Hguard & Hupd & Hseen & Hfr).
  assert (Inv (on_sched (set_updateEffect
            (Some {| d2Places := MapProps.placesRef p;
                     d2DefaultIcon := iconRef <$> defaultIcon (comp w);
                     d2Initialized := isMapInitialized (comp w) |})) w)) as HI1.
  { unfold Inv. split_and!; try done. cbn. by intros deps [= <-]. }
  destruct (isMapInitialized (comp w)) eqn:Hini; [| done].
  unfold updateMarkers. cbn [comp on_sched].
  destruct (mapInstanceRef (comp w)) eqn:Href; [| done].
  destruct (defaultIcon (comp w)) as [d |] eqn:Hd; [| done].
  unfold Inv. split_and!; try done.
  - cbn. congruence.
  - intros Hl. cbn. rewrite Hd. by apply Hlive.
  - destruct Hcells as (Hnd & Hlt & Hcur).
    unfold cells_ok, pendingInits in *. unfold enqueue. cbn. rewrite omap_app. cbn.
    rewrite app_nil_r. done.
  - intros Hl c. cbn. rewrite elem_of_app, list_elem_of_singleton.
    intros [Hc | [=]]. by apply Hguard.
Qed.

(** The invariant reads the scheduler only through the pending imports,
    the numbering of effect runs and the frames. *)
Lemma Inv_transfer w w' :
  leaflet w' = leaflet w → comp w' = comp w →
  imports (sched w') = imports (sched w) →
  nextCell (sched w') = nextCell (sched w) →
  initEffect (sched w') = initEffect (sched w) →
  updateEffect (sched w') = updateEffect (sched w) →
  frames_ok w' → Inv w → Inv w'.
Proof.
  intros Hl Hc Hi Hn He Hu Hfr (Hnf & Hflag & Hlive & Hreg & Hcells & Hguard & Hupd & Hseen & _).
  unfold Inv, nofault, live, registry_ok, handles_valid, proto_apart, cells_ok, pendingInits,
    initGuard, isMounted in *.
  rewrite Hl, Hc, Hi, Hn, He, Hu. done.
Qed.

Lemma Inv_hoverEffectRun p w : Inv w → Inv (hoverEffectRun p w).
Proof.
  intros HI. unfold hoverEffectRun.
  destruct (match hoverEffect (sched w) with
            | Some (old, _) => negb (sameHoverDeps old _)
            | None => true
            end); [| done].
  pose proof HI as (_ & _ & _ & _ & _ & _ & _ & _ & Hfr).
  set (w1 := match hoverEffect (sched w) with
             | Some (_, Some fid) => cancelAnimationFrame fid w
             | _ => w
             end).
  assert (leaflet w1 = leaflet w ∧ comp w1 = comp w ∧ imports (sched w1) = imports (sched w)
          ∧ nextCell (sched w1) = nextCell (sched w)
          ∧ initEffect (sched w1) = initEffect (sched w)
          ∧ updateEffect (sched w1) = updateEffect (sched w)
          ∧ frames (sched w1) = []) as (Hl1 & Hc1 & Hi1 & Hn1 & He1 & Hu1 & Hf1).
  { subst w1. unfold frames_ok in Hfr.
    destruct (frames (sched w)) as [| [fid' fc] [| ??]] eqn:Hfs; [| | done].
    - destruct (hoverEffect (sched w)) as [[deps [fid |]] |]; cbn; rewrite ?Hfs; done.
    - destruct Hfr as (_ & deps' & Hh). rewrite Hh. cbn. rewrite Hfs. cbn.
      rewrite decide_False by (cbn; intros Hne; by apply Hne). done. }
  destruct (mapInstanceRef (comp w)) eqn:Href;
    [destruct (defaultIcon (comp w)) as [d |] eqn:Hd;
     [destruct (highlightedIcon (comp w)) as [h |] eqn:Hh |] |].
  all: apply (Inv_transfer w); try done.
  all: unfold frames_ok, live; cbn; rewrite ?Hf1, ?Hc1; cbn; eauto.
Qed.

(** A marker pass, whatever throws: the failure is caught and logged, not
    toasted; flags and scheduler are as before. *)
Lemma updateMarkers_resume_spec c w :
  let w' := exec (updateMarkers_resume c) w in
  (updateMarkers_resume c w).1 = Done ()
  ∧ same_flags w w' ∧ sched w' = sched w ∧ toasts w' = toasts w
  ∧ iconsMade (leaflet w') = iconsMade (leaflet w)
  ∧ (is_Some (lmap (leaflet w')) ↔ is_Some (lmap (leaflet w)))
  ∧ (registry_ok w → registry_ok w')
  ∧ match (updateMarkers_try c w).1 with
    | Done _ => console w' = console w
    | Thrown e => console w' = console w ++ ["Error updating markers: " +:+ e]
    end.
Proof.
  cbn. pose proof (updateMarkers_try_benign c w) as Hb.
  pose proof (updateMarkers_try_registry c w) as Hr.
  unfold exec, updateMarkers_resume, try_catch in *.
  destruct (updateMarkers_try c w) as [[[] | e] w1]; cbn in *;
    destruct Hb as (Hfl & Hs & Ht & Hcs & Hi & Hl & _);
    split_and!; try done. by rewrite Hcs.
Qed.

Lemma Inv_settle_update c q f w :
  imports (sched w) = PendingUpdate c :: q →
  Inv w →
  Inv (on_leaflet (set_fuse None)
         (exec (updateMarkers_resume c)
            (on_sched (set_imports q) (on_leaflet (set_fuse f) w)))).
Proof.
  intros Hq (Hnf & Hflag & Hlive & Hreg & (Hnd & Hlt & Hcur) & Hguard & Hupd & Hseen & Hfr).
  set (w1 := on_sched (set_imports q) (on_leaflet (set_fuse f) w)).
  destruct (updateMarkers_resume_spec c w1)
    as (_ & (Hd & Hh & Hini & Hmr & Href) & Hs & _ & _ & Hl & Hr & _).
  set (w2 := exec (updateMarkers_resume c) w1) in *.
  assert (∀ k, k ∈ q → k ∈ imports (sched w)) as Hsub
    by (intros k Hk; rewrite Hq; by right).
  unfold Inv. split_and!.
  - done.
  - cbn. by rewrite Hini, Href.
  - unfold live. cbn. rewrite Href, Hmr, Hd, Hh, Hl. exact Hlive.
  - apply registry_ok_fuse, Hr. done.
  - unfold cells_ok, pendingInits in *. cbn. rewrite Hs. cbn.
    rewrite Hq in Hnd, Hlt. cbn in Hnd, Hlt. done.
  - unfold live. cbn. rewrite Href, Hs. cbn. intros Hl' k Hk.
    etrans; [| exact (Hguard Hl' k (Hsub _ Hk))].
    apply initGuard_frame; cbn; [by rewrite Hs | by rewrite Hmr].
  - unfold live. cbn. rewrite Href, Hs. cbn. intros k Hk. by eapply Hupd, Hsub.
  - cbn. rewrite Hs, Hini. exact Hseen.
  - unfold frames_ok, live in *. cbn. rewrite Hs, Href. exact Hfr.
Qed.

Lemma Inv_settle_init c q f w :
  imports (sched w) = PendingInit c :: q →
  Inv w →
  Inv (on_leaflet (set_fuse None)
         (exec (initializeMap c)
            (on_sched (set_imports q) (on_leaflet (set_fuse f) w)))).
Proof.
  intros Hq (Hnf & Hflag & Hlive & Hreg & (Hnd & Hlt & Hcur) & Hguard & Hupd & Hseen & Hfr).
  set (w1 := on_sched (set_imports q) (on_leaflet (set_fuse f) w)).
  destruct (initializeMap_spec c w1)
    as (Hs & Hm & Hr & Hmr & Hblocked & Hcase & Hl & Hd & Hh).
  set (w2 := exec (initializeMap c) w1) in *.
  assert (∀ k, k ∈ q → k ∈ imports (sched w)) as Hsub
    by (intros k Hk; rewrite Hq; by right).
  assert (live w → live w2) as Hmono.
  { unfold live. intros Hw. destruct Hcase as [[-> _] | (_ & -> & _)]; done. }
  assert (∀ c', initGuard c' w1 = initGuard c' w) as Hg1 by done.
  unfold pendingInits in Hnd, Hlt. rewrite Hq in Hnd, Hlt. cbn in Hnd, Hlt.
  apply NoDup_cons in Hnd as [Hfresh Hnd].
  unfold Inv. split_and!.
  - done.
  - cbn. destruct Hcase as [[E1 E2] | (_ & E1 & E2 & _)]; rewrite E1, E2; [exact Hflag | done].
  - unfold live. cbn. rewrite Hmr. intros Hw2.
    destruct Hcase as [[Href _] | (Hg & _ & _ & ? & ? & ?)].
    + rewrite Href in Hw2. destruct (Hlive Hw2) as (? & ? & ? & ?).
      split_and!; [done | by apply Hl | by apply Hd | by apply Hh].
    + split_and!; try done. change (mapRef (comp w) = true).
      rewrite Hg1 in Hg. unfold initGuard in Hg.
      destruct (mapRef (comp w)); [done |]. by rewrite orb_true_r in Hg.
  - apply registry_ok_fuse. apply registry_ok_alt.
    unfold w2. rewrite initializeMap_proto. fold w2. rewrite Hm, Hr.
    by apply registry_ok_alt in Hreg.
  - unfold cells_ok, pendingInits. cbn. rewrite Hs. cbn. split_and!; try done.
    intros c' Hc'. apply Hlt. by right.
  - unfold live. cbn. rewrite Hs. cbn. intros Hw2 c' Hc'.
    etrans; [apply (initGuard_frame _ w1); cbn; [by rewrite Hs | by rewrite Hmr] |].
    rewrite Hg1.
    destruct Hcase as [[Href _] | (Hg & _)].
    + rewrite Href in Hw2. by apply Hguard, Hsub.
    + rewrite Hg1 in Hg. unfold initGuard, isMounted in Hg |- *.
      destruct (initEffect (sched w)) as [[deps cell] |]; [| done].
      case_bool_decide as Hcell; [| done]. subst cell.
      rewrite bool_decide_eq_false_2; [done |]. intros Heq. apply Hfresh.
      rewrite Heq. apply list_elem_of_fmap. exists c'. split; [done |].
      apply list_elem_of_omap. by exists (PendingInit c').
  - unfold live. cbn. rewrite Hs. cbn. intros k Hk. by eapply Hmono, Hupd, Hsub.
  - cbn. rewrite Hs. cbn. intros deps Hdeps Hseen'.
    pose proof (Hseen deps Hdeps Hseen') as Hini. rewrite Hflag in Hini.
    apply Hmono in Hini. unfold live in Hini.
    destruct Hcase as [[E1 E2] | (_ & _ & E2 & _)]; [| done].
    rewrite E2. change (isMapInitialized (comp w) = true). rewrite Hflag.
    by rewrite <- Hini, E1.
  - unfold frames_ok in *. cbn. rewrite Hs. cbn.
    destruct (frames (sched w)) as [| [fid fc] [| ??]]; try done.
    destruct Hfr as [Hw ?]. split; [| done]. by apply Hmono in Hw.
Qed.

Lemma Inv_highlight fc w : Inv w → live w → frames (sched w) = [] →
  Inv (exec (highlightMarker fc) w)
  ∧ exec (highlightMarker fc) w = highlighted fc w.
Proof.
  intros HI Hw Hfs.
  pose proof HI as (Hnf & Hflag & Hlive & Hreg & (Hnd & Hlt & Hcur) & Hguard & Hupd & Hseen & Hfr).
  unfold exec. rewrite highlightMarker_ok; [| done | done]. cbn [snd].
  split; [| done].
  destruct (highlighted_frame fc w) as (Hc & Hs & _ & _ & Hf & _ & Hlen & Hl).
  unfold Inv, nofault, live, cells_ok, pendingInits, initGuard, isMounted, frames_ok in *.
  rewrite Hc, Hs, Hf, Hl. split_and!; try done.
  - apply registry_ok_alt. rewrite Hc, Hlen. by apply registry_ok_alt.
  - by rewrite Hfs.
Qed.

Lemma Inv_frame w : Inv w → Inv (step w AnimationFrame).
Proof.
  intros HI. pose proof HI as (_ & _ & _ & _ & _ & _ & _ & _ & Hfr).
  assert (Inv (on_sched (set_frames []) w)) as HI0 by by apply (Inv_transfer w).
  unfold frames_ok in Hfr. cbn [step].
  destruct (frames (sched w)) as [| [fid fc] [| ??]]; [done | | done].
  destruct Hfr as [Hw _]. cbn [foldl snd]. by apply Inv_highlight.
Qed.

Lemma Inv_render p w : Inv w → Inv (render p w).
Proof.
  intros HI. unfold render.
  by apply Inv_hoverEffectRun, Inv_updateEffectRun, Inv_initEffectRun, Inv_mapRef.
Qed.

Lemma step_render w p : step w (Render p) = render p w.
Proof. done. Qed.

(** Every event preserves the invariant. *)
Lemma Inv_step w e : Inv w → Inv (step w e).
Proof.
  intros HI. destruct e as [p | f |].
  - rewrite step_render. by apply Inv_render.
  - cbn [step]. destruct (imports (sched w)) as [| [c | c] q] eqn:Hq; [done | |].
    + by apply Inv_settle_init.
    + by apply Inv_settle_update.
  - by apply Inv_frame.
Qed.


Lemma run_app es1 es2 w : run (es1 ++ es2) w = run es2 (run es1 w).
Proof. unfold run. by rewrite foldl_app. Qed.

Lemma Inv_run es w : Inv w → Inv (run es w).
Proof.
  revert w. induction es as [| e es IH]; intros w HI; [done |].
  cbn. apply IH. by apply Inv_step.
Qed.

Lemma Inv_reachable es : Inv (run es initial).
Proof. apply Inv_run, Inv_initial. Qed.
End InvFacts.

(** *** The viewport *)

Section ViewportFacts.






(** *** Rendering *)


(** Rendering touches neither the widget nor the component's state, but
    for attaching the container. *)
Lemma initEffectRun_frame p w :
  let w' := initEffectRun p w in
  leaflet w' = leaflet w ∧ comp w' = comp w ∧ toasts w' = toasts w
  ∧ console w' = console w ∧ frames (sched w') = frames (sched w)
  ∧ nextFrame (sched w') = nextFrame (sched w)
  ∧ hoverEffect (sched w') = hoverEffect (sched w)
  ∧ updateEffect (sched w') = updateEffect (sched w).
Proof.
  cbn. unfold initEffectRun.
  destruct (initEffect (sched w)) as [[old cell] |]; [destruct (sameInitDeps _ _) |]; done.
Qed.

Lemma updateEffectRun_frame p w :
  let w' := updateEffectRun p w in
  leaflet w' = leaflet w ∧ comp w' = comp w ∧ toasts w' = toasts w
  ∧ console w' = console w ∧ frames (sched w') = frames (sched w)
  ∧ nextFrame (sched w') = nextFrame (sched w)
  ∧ hoverEffect (sched w') = hoverEffect (sched w).
Proof.
  cbn. unfold updateEffectRun, updateMarkers.
  destruct (updateEffect (sched w)) as [old |]; [destruct (sameUpdateDeps _ _) |]; cbn;
    try done;
    (destruct (isMapInitialized (comp w)); [| done];
     destruct (mapInstanceRef (comp w)); [| done]; by destruct (defaultIcon (comp w))).
Qed.

Lemma hoverEffectRun_frame p w :
  let w' := hoverEffectRun p w in
  leaflet w' = leaflet w ∧ comp w' = comp w ∧ toasts w' = toasts w
  ∧ console w' = console w ∧ imports (sched w') = imports (sched w).
Proof.
  cbn. unfold hoverEffectRun.
  set (changed := match hoverEffect (sched w) with
                  | Some (old, _) => negb (sameHoverDeps old _)
                  | None => true
                  end).
  destruct changed; [| done].
  assert (∀ w1 : World, w1 = match hoverEffect (sched w) with
                 | Some (_, Some fid) => cancelAnimationFrame fid w
                 | _ => w
                 end →
          leaflet w1 = leaflet w ∧ comp w1 = comp w ∧ toasts w1 = toasts w
          ∧ console w1 = console w ∧ imports (sched w1) = imports (sched w)) as Hw1.
  { intros w1 ->. by destruct (hoverEffect (sched w)) as [[? [?|]]|]. }
  destruct (Hw1 _ eq_refl) as (? & ? & ? & ? & ?).
  destruct (mapInstanceRef _); [| done].
  destruct (defaultIcon _); [| done]. by destruct (highlightedIcon _).
Qed.

Lemma render_frame p w :
  let w' := render p w in
  leaflet w' = leaflet w ∧ comp w' = set_mapRef true (comp w)
  ∧ toasts w' = toasts w ∧ console w' = console w.
Proof.
  cbn. unfold render.
  destruct (hoverEffectRun_frame p (updateEffectRun p (initEffectRun p (on_comp (set_mapRef true) w))))
    as (-> & -> & -> & -> & _).
  destruct (updateEffectRun_frame p (initEffectRun p (on_comp (set_mapRef true) w)))
    as (-> & -> & -> & -> & _).
  by destruct (initEffectRun_frame p (on_comp (set_mapRef true) w)) as (-> & -> & -> & -> & _).
Qed.




Lemma render_hover p w :
  hoverEffect (sched (render p w)) =
  hoverEffect (sched (hoverEffectRun p (updateEffectRun p (initEffectRun p (on_comp (set_mapRef true) w))))).
Proof. done. Qed.
End ViewportFacts.

(** *** Coalescing of highlight passes *)

Section CoalesceFacts.




End CoalesceFacts.

(** *** Marker passes and the highlight *)

Section RebuildFacts.



(** What a marker pass that meets no failure leaves. *)
Lemma pass_facts c w :
  nofault w → mapInstanceRef (comp w) = true →
  let w' := exec (updateMarkers_resume c) w in
  sched w' = sched w ∧ toasts w' = toasts w
  ∧ (registrable (updPlaces c) ∨ updPlaces c = [] → console w' = console w)
  ∧ same_flags w w'
  ∧ dom (markersRef (comp w')) = list_to_set (ids (updPlaces c)) ∖ {["__proto__"]}
  ∧ ∀ pid m, markerOf w' pid = Some m →
      icon m = updDefaultIcon c ∧ popupOpen m = false ∧ onMap m = true
      ∧ ∃ p, p ∈ updPlaces c ∧ TouristPlace.id p = pid
             ∧ latlng m = TouristPlace.location p.
Proof.
  intros Hnf Href. unfold exec. rewrite updateMarkers_resume_ok by done. cbn [snd].
  unfold same_flags, markerOf.
  rewrite passed_console.
  destruct (passed_markers c w) as (-> & -> & -> & ->).
  destruct (rebuilt_frame c w) as ((? & ? & ? & ? & ?) & -> & -> & -> & _).
  split_and!; try done.
  - intros [Hreg | Hnil]; [| by rewrite Hnil].
    destruct (rebuilt_box c w Hreg) as [b ->]. by destruct (updPlaces c).
  - apply rebuilt_registry.
  - intros pid m.
    destruct (markersRef (comp (rebuilt c w)) !! pid) as [h |] eqn:Hh; [| by cbn].
    cbn. apply registered_marker in Hh as (p & Hp & Hid & _ & ->).
    intros [= <-]. split_and!; try done. eauto.
Qed.

End RebuildFacts.

(** *** Guards *)

Section GuardFacts.


(** What an initialization does to toasts and console. *)
Lemma initializeMap_outcome c w :
  let r := (initializeMap_try c w).1 in
  let w' := exec (initializeMap c) w in
  (initializeMap c w).1 = Done ()
  ∧ match r with
    | Thrown e =>
        toasts w' = toasts w ++ [ToastError "Failed to load map. Please refresh the page."]
        ∧ console w' = console w ++ ["Error initializing map: " +:+ e]
    | Done _ => toasts w' = toasts w ∧ console w' = console w
    end.
Proof.
  cbn. unfold exec, initializeMap, try_catch. rewrite initializeMap_try_eq.
  pose proof (call_frame "import(leaflet)" w) as Hframe. cbn in Hframe.
  destruct (call "import(leaflet)" w) as [[[] | e] w1]; cbn in Hframe;
    destruct Hframe as (Hs & Hc & Ht & Hcs & Hm & Hl & Hi).
  - destruct (initGuard c w1); [cbn; by rewrite Ht, Hcs |].
    pose proof (initializeMap_setup_spec c w1) as Hsetup. cbn in Hsetup.
    destruct (initializeMap_setup c w1) as [[[] | e] w2]; cbn in Hsetup |- *;
      destruct Hsetup as (_ & Ht2 & Hcs2 & _).
    + by rewrite Ht2, Hcs2, Ht, Hcs.
    + rewrite init_handler_eq. cbn. by rewrite Ht2, Hcs2, Ht, Hcs.
  - rewrite init_handler_eq. cbn. by rewrite Ht, Hcs.
Qed.


(** While the flag is unset, or the default icon missing, the update
    effect queues nothing. *)
Lemma updateEffectRun_idle p w :
  isMapInitialized (comp w) = false ∨ mapInstanceRef (comp w) = false
  ∨ defaultIcon (comp w) = None →
  let w' := updateEffectRun p w in
  leaflet w' = leaflet w ∧ comp w' = comp w ∧ imports (sched w') = imports (sched w)
  ∧ frames (sched w') = frames (sched w).
Proof.
  intros Hidle. cbn. unfold updateEffectRun, updateMarkers.
  destruct (updateEffect (sched w)) as [old |]; [destruct (sameUpdateDeps _ _) |]; cbn;
    try done;
    (destruct (isMapInitialized (comp w)); [| done];
     destruct (mapInstanceRef (comp w)); [| done];
     destruct (defaultIcon (comp w)); [| done]);
    by destruct Hidle as [? | [? | ?]].
Qed.

(** Once the flag is set, with the instance and the default icon there,
    and the flag was unset when the update effect last ran, the effect
    requests a pass for the places of the render. *)
Lemma updateEffectRun_fires p w d :
  isMapInitialized (comp w) = true → mapInstanceRef (comp w) = true →
  defaultIcon (comp w) = Some d →
  (∀ deps, updateEffect (sched w) = Some deps → d2Initialized deps = false) →
  imports (sched (updateEffectRun p w))
  = imports (sched w)
    ++ [PendingUpdate {| updPlaces := MapProps.places p; updDefaultIcon := d |}].
Proof.
  intros Hflag Href Hd Hold. unfold updateEffectRun, updateMarkers.
  rewrite Hflag, Hd. cbn [set_updateEffect on_sched comp]. rewrite Href.
  destruct (updateEffect (sched w)) as [old |] eqn:Ho; [| done].
  unfold sameUpdateDeps. cbn [d2Initialized]. rewrite (Hold old eq_refl).
  rewrite (bool_decide_eq_false_2 (false = true)) by done.
  by rewrite andb_false_r.
Qed.

Lemma settle_init_eq c q f w :
  imports (sched w) = PendingInit c :: q →
  step w (ImportSettles f)
  = on_leaflet (set_fuse None)
      (exec (initializeMap c) (on_sched (set_imports q) (on_leaflet (set_fuse f) w))).
Proof. intros Hq. unfold step. by rewrite Hq. Qed.

Lemma settle_update_eq c q f w :
  imports (sched w) = PendingUpdate c :: q →
  step w (ImportSettles f)
  = on_leaflet (set_fuse None)
      (exec (updateMarkers_resume c)
         (on_sched (set_imports q) (on_leaflet (set_fuse f) w))).
Proof. intros Hq. unfold step. by rewrite Hq. Qed.

(** The retry: the initialization that sets the flag leaves the update
    effect's stored dependencies behind, so the next render requests a
    pass. *)
Lemma retry_aux f p w w1 :
  Inv w → w1 = step w (ImportSettles f) →
  isMapInitialized (comp w) = false → isMapInitialized (comp w1) = true →
  ∃ d q', defaultIcon (comp w1) = Some d
    ∧ imports (sched (render p w1))
      = q' ++ [PendingUpdate {| updPlaces := MapProps.places p; updDefaultIcon := d |}].
Proof.
  intros HI Hw1 Hoff Hon.
  assert (Inv w1) as HI1 by (subst w1; by apply Inv_step).
  assert (updateEffect (sched w1) = updateEffect (sched w)) as Hstored.
  { destruct (imports (sched w)) as [| [c | c] q] eqn:Hq.
    - subst w1. unfold step. by rewrite Hq.
    - rewrite (settle_init_eq c q f w Hq) in Hw1.
      destruct (initializeMap_spec c (on_sched (set_imports q) (on_leaflet (set_fuse f) w)))
        as (Hs & _). subst w1. cbn in Hs |- *. by rewrite Hs.
    - rewrite (settle_update_eq c q f w Hq) in Hw1.
      destruct (updateMarkers_resume_spec c
                  (on_sched (set_imports q) (on_leaflet (set_fuse f) w)))
        as (_ & _ & Hs & _). subst w1. cbn in Hs |- *. by rewrite Hs. }
  clear Hw1.
  destruct HI as (_ & _ & _ & _ & _ & _ & _ & Hseen & _).
  destruct HI1 as (_ & Hflag1 & Hlive1 & _).
  assert (mapInstanceRef (comp w1) = true) as Href1 by congruence.
  destruct (Hlive1 Href1) as (_ & _ & [d Hd] & _).
  exists d.
  pose proof (initEffectRun_frame p (on_comp (set_mapRef true) w1)) as Hframe.
  cbn in Hframe. destruct Hframe as (_ & Hc & _ & _ & _ & _ & _ & Hu).
  eexists. split; [done |]. unfold render.
  destruct (hoverEffectRun_frame p
              (updateEffectRun p (initEffectRun p (on_comp (set_mapRef true) w1))))
    as (_ & _ & _ & _ & ->).
  apply updateEffectRun_fires.
  - by rewrite Hc.
  - by rewrite Hc.
  - by rewrite Hc.
  - intros deps Hdeps. rewrite Hu in Hdeps. cbn in Hdeps. rewrite Hstored in Hdeps.
    destruct (d2Initialized deps) eqn:Hdi; [| done].
    rewrite (Hseen deps Hdeps Hdi) in Hoff. done.
Qed.

(** A pending initialization that settles on a live instance changes
    nothing, whatever fails. *)
Lemma blocked_aux c q f w :
  Inv w → live w → imports (sched w) = PendingInit c :: q →
  comp (step w (ImportSettles f)) = comp w
  ∧ leaflet (step w (ImportSettles f)) = leaflet w.
Proof.
  intros HI Hlive Hq. rewrite (settle_init_eq c q f w Hq).
  destruct HI as (Hnf & _ & _ & _ & _ & Hguard & _).
  assert (initGuard c (on_sched (set_imports q) (on_leaflet (set_fuse f) w)) = true) as Hg.
  { etrans; [| apply (Hguard Hlive c)]; [| rewrite Hq; by left].
    apply initGuard_frame; done. }
  destruct (initializeMap_spec c (on_sched (set_imports q) (on_leaflet (set_fuse f) w)))
    as (_ & Hm & _ & _ & Hsame & _).
  destruct (Hsame Hg) as (Hc & Hl & Hi).
  split; [done |].
  unfold nofault in Hnf.
  remember (exec (initializeMap c) (on_sched (set_imports q) (on_leaflet (set_fuse f) w)))
    as w2 eqn:Hw2. clear Hw2.
  cbn [on_leaflet leaflet on_sched] in Hm, Hl, Hi |- *.
  destruct (leaflet w2) as [lm ms im fu].
  destruct (leaflet w) as [lm0 ms0 im0 fu0].
  cbn [lmap markers iconsMade fuse] in *. unfold set_fuse. cbn.
  by rewrite Hi, Hl, Hm, Hnf.
Qed.

(** The initializations a render leaves pending are those that were, and
    one more at most, which saw the flag as it is. *)
Lemma render_inits p c w :
  PendingInit c ∈ imports (sched (render p w)) →
  PendingInit c ∈ imports (sched w)
  ∨ initSawInitialized c = isMapInitialized (comp w).
Proof.
  unfold render.
  destruct (hoverEffectRun_frame p
              (updateEffectRun p (initEffectRun p (on_comp (set_mapRef true) w))))
    as (_ & _ & _ & _ & ->).
  set (w0 := on_comp (set_mapRef true) w).
  assert (PendingInit c ∈ imports (sched (initEffectRun p w0)) →
          PendingInit c ∈ imports (sched w)
          ∨ initSawInitialized c = isMapInitialized (comp w)) as Hinit.
  { unfold initEffectRun.
    destruct (match initEffect (sched w0) with
              | Some (old, _) => negb (sameInitDeps old _)
              | None => true
              end); [| by left].
    cbn. rewrite elem_of_app, list_elem_of_singleton.
    intros [? | [= ->]]; [by left | by right]. }
  intros Hin. apply Hinit. revert Hin. generalize (initEffectRun p w0). intros w1.
  unfold updateEffectRun, updateMarkers.
  destruct (match updateEffect (sched w1) with
            | Some old => negb (sameUpdateDeps old _)
            | None => true
            end); [| done].
  destruct (isMapInitialized (comp w1)); [| done]. cbn.
  destruct (mapInstanceRef (comp w1)); [| done].
  destruct (defaultIcon (comp w1)); [| done].
  cbn. rewrite elem_of_app, list_elem_of_singleton. by intros [? | ?].
Qed.

(** C6. While the flag is unset, or the instance or the default icon is
    missing, the update effect requests no pass and a direct call of
    [updateMarkers] returns at its guard: widget, component state and the
    queue of imports stay as they were. When a settling import sets the
    flag, the next render requests a pass for the places it is given
    (which then runs as any other). And once an instance is live, the
    flag is set, every initialization still pending returns at its guard,
    so that its import settling changes neither the component nor the
    widget, and every initialization a later render requests has seen the
    flag set. *)
Theorem update_waits_for_initialization :
  (∀ p w,
     isMapInitialized (comp w) = false ∨ mapInstanceRef (comp w) = false
     ∨ defaultIcon (comp w) = None →
     let w' := updateEffectRun p w in
     leaflet w' = leaflet w ∧ comp w' = comp w
     ∧ imports (sched w') = imports (sched w))
  ∧ (∀ ps d w, mapInstanceRef (comp w) = false ∨ d = None →
       updateMarkers ps d w = w)
  ∧ (∀ es f p,
       let w := run es initial in
       let w1 := step w (ImportSettles f) in
       isMapInitialized (comp w) = false → isMapInitialized (comp w1) = true →
       ∃ d q', defaultIcon (comp w1) = Some d
         ∧ imports (sched (step w1 (Render p)))
           = q' ++ [PendingUpdate {| updPlaces := MapProps.places p;
                                     updDefaultIcon := d |}])
  ∧ (∀ es,
       let w := run es initial in
       mapInstanceRef (comp w) = true →
       isMapInitialized (comp w) = true
       ∧ (∀ c, PendingInit c ∈ imports (sched w) → initGuard c w = true)
       ∧ (∀ c q f, imports (sched w) = PendingInit c :: q →
            let w' := step w (ImportSettles f) in
            comp w' = comp w ∧ leaflet w' = leaflet w)
       ∧ (∀ p c, PendingInit c ∈ imports (sched (step w (Render p))) →
            PendingInit c ∈ imports (sched w) ∨ initSawInitialized c = true)).
Proof.
  split_and!.
  - intros p w Hidle. cbn.
    by destruct (updateEffectRun_idle p w Hidle) as (Hl & Hc & Hi & _).
  - intros ps d w Hidle. unfold updateMarkers.
    destruct (mapInstanceRef (comp w)) eqn:Href; [| done].
    destruct d; [| done]. by destruct Hidle.
  - intros es f p w w1 Hoff Hon.
    assert (Inv w) as HI by apply Inv_reachable.
    clearbody w. rewrite step_render.
    apply (retry_aux f p w w1 HI eq_refl Hoff Hon).
  - intros es w Hlive.
    assert (Inv w) as HI by apply Inv_reachable.
    clearbody w. split_and!.
    + destruct HI as (_ & -> & _). done.
    + destruct HI as (_ & _ & _ & _ & _ & Hguard & _). by apply Hguard.
    + intros c q f Hq w'. subst w'. apply (blocked_aux c q f w HI Hlive Hq).
    + intros p c Hc. rewrite step_render in Hc.
      destruct (render_inits p c w Hc) as [? | ->]; [by left | right].
      destruct HI as (_ & -> & _). done.
Qed.
End GuardFacts.

(** *** Failures of a marker pass *)

Section FailureFacts.


End FailureFacts.

(** ** The itinerary page as rendered *)

Section ViewFacts.
Import ItineraryPage ItineraryView.

Lemma ui_run_snoc es e pg : ui_run (es ++ [e]) pg = ui_step (ui_run es pg) e.
Proof. unfold ui_run. by rewrite foldl_app. Qed.

Lemma length_zero_iff {A} (l : list A) : (length l =? 0)%nat = true ↔ l = [].
Proof. destruct l; cbn; split; done. Qed.

(** A click on a rendered button: nothing if the itinerary is empty, the
    handler otherwise. *)
Lemma press_eq k pg :
  ui_step pg (Press k)
  = if (length (itinerary pg) =? 0)%nat then pg
    else match k with
         | ShareButton => handleShare pg
         | DownloadButton => handleDownload pg
         | ClearButton => handleClearItinerary pg
         end.
Proof. by destruct k. Qed.

Lemma ui_step_toasts pg e :
  ∃ new, toasts (ui_step pg e) = toasts pg ++ new ∧ Forall notAvailable new.
Proof.
  destruct e as [k | dt | it].
  - rewrite press_eq. destruct (length (itinerary pg) =? 0)%nat eqn:Hn.
    + exists []. by rewrite app_nil_r.
    + destruct k.
      * unfold handleShare. rewrite Hn. eexists [_]. split; [done |].
        apply Forall_singleton. by left.
      * unfold handleDownload. rewrite Hn. eexists [_]. split; [done |].
        apply Forall_singleton. by right.
      * exists []. rewrite app_nil_r. split; [| done].
        unfold handleClearItinerary. by destruct (showConfirmClear pg).
  - exists []. by rewrite app_nil_r.
  - exists []. by rewrite app_nil_r.
Qed.

(** X1. Through the buttons as rendered, which are disabled while the
    itinerary is empty, the handlers never run on an empty itinerary:
    whatever is clicked, however time passes and however the store changes
    the itinerary in between, every toast the page emits is one of the two
    placeholder messages, never one of the errors about having no
    places. *)
Theorem rendered_buttons_never_report_empty (es : list UiEvent) (pg : Page) :
  ∃ new, toasts (ui_run es pg) = toasts pg ++ new ∧ Forall notAvailable new.
Proof.
  induction es as [| e es (new & Hnew & Hall)] using rev_ind.
  - exists []. by rewrite app_nil_r.
  - rewrite ui_run_snoc.
    destruct (ui_step_toasts (ui_run es pg) e) as (new' & -> & Hall').
    exists (new ++ new'). rewrite Hnew, <- app_assoc. split; [done |].
    by apply Forall_app.
Qed.

Lemma lone_timer_step pg e : own e → lone_timer pg → lone_timer (ui_step pg e).
Proof.
  intros Hown [Harmed Hidle]. destruct e as [k | dt | it]; [| | done].
  - rewrite press_eq. destruct (length (itinerary pg) =? 0)%nat eqn:Hn; [done |].
    assert (itinerary pg ≠ []) as Hne.
    { intros Hnil. rewrite Hnil in Hn. done. }
    destruct k.
    + unfold handleShare. by rewrite Hn.
    + unfold handleDownload. by rewrite Hn.
    + unfold handleClearItinerary. destruct (showConfirmClear pg) eqn:Hs.
      * split; [done |]. cbn. done.
      * split; [| done]. intros _. cbn. rewrite (Hidle eq_refl Hne). cbn.
        eexists. split; [done | lia].
  - unfold lone_timer. cbn. destruct (showConfirmClear pg) eqn:Hs.
    + destruct (Harmed eq_refl) as (t & Ht & Hlt). rewrite Ht.
      rewrite !filter_cons, !filter_nil.
      destruct (decide (t ≤ now pg + dt)) as [Hdue | Hdue].
      * rewrite decide_False by tauto. cbn. split; [done |]. by intros _ _.
      * rewrite decide_True by done. cbn. split; [| done].
        intros _. exists t. split; [done | lia].
    + destruct (bool_decide _); (split; [done |]);
        intros _ Hne; by rewrite (Hidle eq_refl Hne).
Qed.

Lemma lone_timer_run it es : Forall own es → lone_timer (ui_run es (mount it)).
Proof.
  induction es as [| e es IH] using rev_ind; intros Hown.
  - split; [done | by intros _ _].
  - apply Forall_app in Hown as [Hes He%Forall_inv].
    rewrite ui_run_snoc. apply lone_timer_step; [exact He | by apply IH].
Qed.

(** What the two clicks do on a page with no timer pending. *)
Lemma confirm_window pg dt :
  showConfirmClear pg = false → itinerary pg ≠ [] → timers pg = [] →
  let armed := ui_step pg (Press ClearButton) in
  showConfirmClear armed = true ∧ itinerary armed = itinerary pg
  ∧ clearCalls armed = clearCalls pg
  ∧ (dt < 3000 →
       showConfirmClear (ui_step armed (Wait dt)) = true
       ∧ let pg' := ui_run [Wait dt; Press ClearButton] armed in
         itinerary pg' = [] ∧ clearCalls pg' = S (clearCalls pg)
         ∧ showConfirmClear pg' = false)
  ∧ (3000 ≤ dt →
       showConfirmClear (ui_step armed (Wait dt)) = false
       ∧ let pg' := ui_run [Wait dt; Press ClearButton] armed in
         itinerary pg' = itinerary pg ∧ clearCalls pg' = clearCalls pg
         ∧ showConfirmClear pg' = true).
Proof.
  intros Hoff Hne Hno.
  assert ((length (itinerary pg) =? 0)%nat = false) as Hn.
  { destruct (itinerary pg); [done | by cbn]. }
  assert (ui_step pg (Press ClearButton) = setTimeout 3000 (setShowConfirmClear true pg))
    as Harm.
  { rewrite press_eq, Hn. unfold handleClearItinerary. by rewrite Hoff. }
  cbn zeta. rewrite Harm. unfold ui_run. cbn [foldl].
  change (ui_step ?x (Wait dt)) with (elapse dt x).
  set (armed := setTimeout 3000 (setShowConfirmClear true pg)).
  assert (timers armed = [now pg + 3000]) as Ht by (subst armed; cbn; by rewrite Hno).
  split_and!; try done.
  - intros Hlt.
    assert (elapse dt armed
            = {| itinerary := itinerary pg; showConfirmClear := true;
                 toasts := toasts pg; timers := [now pg + 3000];
                 now := now pg + dt; clearCalls := clearCalls pg |}) as ->.
    { unfold elapse. rewrite Ht. rewrite !filter_cons, !filter_nil.
      rewrite decide_False by (subst armed; cbn; lia).
      rewrite decide_True by (subst armed; cbn; lia). done. }
    rewrite press_eq. cbn. rewrite Hn. done.
  - intros Hge.
    assert (elapse dt armed
            = {| itinerary := itinerary pg; showConfirmClear := false;
                 toasts := toasts pg; timers := [];
                 now := now pg + dt; clearCalls := clearCalls pg |}) as ->.
    { unfold elapse. rewrite Ht. rewrite !filter_cons, !filter_nil.
      rewrite decide_True by (subst armed; cbn; lia).
      rewrite decide_False by (subst armed; cbn; lia). done. }
    rewrite press_eq. cbn. rewrite Hn. done.
Qed.

(** X2. On a page left to itself since it was mounted, driven through
    its buttons as rendered: a click on the enabled clear button while no
    confirmation shows arms the confirmation and changes nothing else; the
    confirmation still shows after [dt] milliseconds exactly when
    [dt < 3000]; and a second click after [dt] clears the itinerary, with
    one call of the store, exactly when [dt < 3000], and otherwise arms
    the confirmation again and leaves the itinerary alone. *)
Theorem confirmation_lasts_three_seconds (it : list TouristPlace) (es : list UiEvent) (dt : Z) :
  Forall own es →
  let pg := ui_run es (mount it) in
  showConfirmClear pg = false → itinerary pg ≠ [] →
  let armed := ui_step pg (Press ClearButton) in
  showConfirmClear armed = true ∧ itinerary armed = itinerary pg
  ∧ clearCalls armed = clearCalls pg
  ∧ (dt < 3000 →
       showConfirmClear (ui_step armed (Wait dt)) = true
       ∧ let pg' := ui_run [Wait dt; Press ClearButton] armed in
         itinerary pg' = [] ∧ clearCalls pg' = S (clearCalls pg)
         ∧ showConfirmClear pg' = false)
  ∧ (3000 ≤ dt →
       showConfirmClear (ui_step armed (Wait dt)) = false
       ∧ let pg' := ui_run [Wait dt; Press ClearButton] armed in
         itinerary pg' = itinerary pg ∧ clearCalls pg' = clearCalls pg
         ∧ showConfirmClear pg' = true).
Proof.
  intros Hown pg Hoff Hne.
  destruct (lone_timer_run it es Hown) as [_ Hidle]. fold pg in Hidle.
  apply confirm_window; [done | done | by apply Hidle].
Qed.
End ViewFacts.

Section ClearFacts.
Import ItineraryPage ItineraryView.

Lemma clearClicks_snoc es e :
  clearClicks (es ++ [e]) = (clearClicks es + clearClicks [e])%nat.
Proof.
  unfold clearClicks. induction es as [| x es IH]; cbn in *; [lia |].
  destruct x; rewrite ?IH; lia.
Qed.

(** X3. Over any sequence of clicks and waits on a mounted page, the
    store's clear has been called at most once for every two clicks on
    the clear button, and one more click is accounted for while the
    confirmation shows. *)
Theorem clear_takes_two_clicks (it : list TouristPlace) (es : list Event) :
  let pg := run es (mount it) in
  (2 * clearCalls pg + (if showConfirmClear pg then 1 else 0) ≤ clearClicks es)%nat.
Proof.
  cbn zeta. induction es as [| e es IH] using rev_ind; [cbn; lia |].
  rewrite page_run_snoc, clearClicks_snoc.
  set (pg := run es (mount it)) in *.
  destruct e as [| | | dt]; cbn [step clearClicks foldr].
  - unfold handleShare. destruct (_ =? _)%nat; cbn; lia.
  - unfold handleDownload. destruct (_ =? _)%nat; cbn; lia.
  - unfold handleClearItinerary. destruct (showConfirmClear pg); cbn in *; lia.
  - cbn. destruct (bool_decide _), (showConfirmClear pg); cbn in *; lia.
Qed.

Lemma filter_all {A} (P : A → Prop) `{!∀ x, Decision (P x)} (l : list A) :
  (∀ x, x ∈ l → P x) → filter P l = l.
Proof.
  induction l as [| x l IH]; intros Hall; [done |].
  rewrite filter_cons, decide_True by (apply Hall; left).
  f_equal. apply IH. intros y Hy. apply Hall. by right.
Qed.

Lemma filter_none {A} (P : A → Prop) `{!∀ x, Decision (P x)} (l : list A) :
  (∀ x, x ∈ l → ¬ P x) → filter P l = [].
Proof.
  induction l as [| x l IH]; intros Hall; [done |].
  rewrite filter_cons, decide_False by (apply Hall; left).
  apply IH. intros y Hy. apply Hall. by right.
Qed.

(** No timer is due later than 3000 ms from now. *)
Lemma timers_within it es :
  Forall forward es →
  let pg := run es (mount it) in ∀ d, d ∈ timers pg → d ≤ now pg + 3000.
Proof.
  cbn zeta. induction es as [| e es IH] using rev_ind; intros Hfw.
  - by intros d ?%elem_of_nil.
  - apply Forall_app in Hfw as [Hes He%Forall_inv]. specialize (IH Hes).
    rewrite page_run_snoc. set (pg := run es (mount it)) in *.
    destruct e as [| | | dt]; cbn [step].
    + unfold handleShare. by destruct (_ =? _)%nat.
    + unfold handleDownload. by destruct (_ =? _)%nat.
    + unfold handleClearItinerary. destruct (showConfirmClear pg); cbn; [done |].
      intros d [Hd | ->%list_elem_of_singleton]%elem_of_app; [by apply IH | lia].
    + cbn in He |- *. intros d [_ Hd]%list_elem_of_filter. specialize (IH d Hd). lia.
Qed.

(** X4. However the page was clicked before, as long as time did not run
    backwards: once 3000 ms or more pass without a click, the confirmation
    does not show and no timer is pending. *)
Theorem confirmation_never_outlives_three_seconds
    (it : list TouristPlace) (es : list Event) (dt : Z) :
  Forall forward es → 3000 ≤ dt →
  let pg := elapse dt (run es (mount it)) in
  showConfirmClear pg = false ∧ timers pg = [].
Proof.
  intros Hfw Hdt. cbn zeta.
  pose proof (timers_within it es Hfw) as Hwithin.
  destruct (page_invariant it es) as [_ Harmed].
  cbn zeta in Hwithin, Harmed. set (pg := run es (mount it)) in *.
  unfold elapse. cbn.
  assert (filter (λ d, d ≤ now pg + dt) (timers pg) = timers pg) as Hdue.
  { apply filter_all. intros d Hd. specialize (Hwithin d Hd). lia. }
  assert (filter (λ d, ¬ d ≤ now pg + dt) (timers pg) = []) as Hleft.
  { apply filter_none. intros d Hd. specialize (Hwithin d Hd). lia. }
  rewrite Hdue, Hleft. split; [| done].
  case_bool_decide as Hnil; [| done].
  destruct (showConfirmClear pg) eqn:Hs; [| done].
  destruct (Harmed Hs) as (es1 & es2 & _ & _ & _ & Hin & _).
  rewrite Hnil in Hin. by apply elem_of_nil in Hin.
Qed.
End ClearFacts.

Section ViewSamples.
Import ItineraryPage ItineraryView.

(** A click on the clear button, 2999 ms, a second click. *)
Lemma confirmation_lasts_three_seconds_witness :
  let armed := ui_step (mount [Sample.p1]) (Press ClearButton) in
  itinerary (ui_run [Wait 2999; Press ClearButton] armed) = [].
Proof.
  destruct (confirmation_lasts_three_seconds [Sample.p1] [] 2999)
    as (_ & _ & _ & H & _).
  - apply Forall_nil_2.
  - reflexivity.
  - discriminate.
  - destruct H as (_ & Hit & _); [reflexivity | exact Hit].
Defined.

(** Arming, confirming, arming again, then 3000 ms. *)
Lemma confirmation_never_outlives_three_seconds_witness :
  showConfirmClear
    (elapse 3000 (run [ClickClear; Elapse 1000; ClickClear; Elapse 1000; ClickClear]
                      (mount [Sample.p1]))) = false.
Proof.
  apply (confirmation_never_outlives_three_seconds [Sample.p1]
           [ClickClear; Elapse 1000; ClickClear; Elapse 1000; ClickClear] 3000).
  - repeat (apply Forall_cons_2 || apply Forall_nil_2); cbn; lia || exact I.
  - reflexivity.
Defined.
End ViewSamples.

(** ** More about the map view *)

Import MapLifecycle.

(** *** Outcomes of an initialization *)

Section InitOutcomes.

(** The world the setup leaves when nothing throws. *)
Lemma initializeMap_setup_done c w :
  nofault w → lmap (leaflet w) = None →
  initializeMap_setup c w
  = (Done (),
     {| leaflet := {| lmap := Some (builtMap c); markers := markers (leaflet w);
                      iconsMade := S (S (iconsMade (leaflet w))); fuse := None |};
        comp := {| defaultIcon := Some (defaultPin (iconsMade (leaflet w)));
                   highlightedIcon := Some (highlightedPin (iconsMade (leaflet w)));
                   isMapInitialized := true; mapRef := mapRef (comp w);
                   mapInstanceRef := true; markersRef := markersRef (comp w);
                   markersProto := markersProto (comp w) |};
        sched := sched w; toasts := toasts w; console := console w |}).
Proof.
  destruct w as [[lm ms im fu] [di hi ini mr mi reg pr] sch ts cs].
  unfold nofault. cbn. intros -> ->. by unfold_setup.
Qed.

Lemma initializeMap_done c w :
  nofault w → lmap (leaflet w) = None → initGuard c w = false →
  exec (initializeMap c) w
  = {| leaflet := {| lmap := Some (builtMap c); markers := markers (leaflet w);
                     iconsMade := S (S (iconsMade (leaflet w))); fuse := None |};
       comp := {| defaultIcon := Some (defaultPin (iconsMade (leaflet w)));
                  highlightedIcon := Some (highlightedPin (iconsMade (leaflet w)));
                  isMapInitialized := true; mapRef := mapRef (comp w);
                  mapInstanceRef := true; markersRef := markersRef (comp w);
                   markersProto := markersProto (comp w) |};
       sched := sched w; toasts := toasts w; console := console w |}.
Proof.
  intros Hnf Hl Hg. unfold exec, initializeMap, try_catch.
  rewrite initializeMap_try_eq. unfold call. rewrite Hnf, Hg.
  by rewrite initializeMap_setup_done.
Qed.

(** With a map already on the container the setup throws before it
    stores anything, whatever else fails. *)
Lemma initializeMap_setup_claimed c w :
  is_Some (lmap (leaflet w)) →
  (∃ e, (initializeMap_setup c w).1 = Thrown e)
  ∧ mapInstanceRef (comp (initializeMap_setup c w).2) = mapInstanceRef (comp w)
  ∧ isMapInitialized (comp (initializeMap_setup c w).2) = isMapInitialized (comp w)
  ∧ (fuse (leaflet w) = None →
     (initializeMap_setup c w).1 = Thrown "Map container is already initialized.").
Proof.
  destruct w as [[lm ms im fu] [di hi ini mr mi reg pr] sch ts cs]. cbn.
  intros [m ->]. fuse_cases fu; unfold_setup; split_and!; try done; by eexists.
Qed.

(** A failure of the import, of an icon or of the creation of the map
    leaves the container without a map. *)
Lemma initializeMap_setup_free c w n :
  fuse (leaflet w) = Some n → (n ≤ 2)%nat → lmap (leaflet w) = None →
  lmap (leaflet (initializeMap_setup c w).2) = None.
Proof.
  destruct w as [[lm ms im fu] [di hi ini mr mi reg pr] sch ts cs]. cbn.
  intros -> Hn ->. do 3 (destruct n as [| n]; [by unfold_setup |]). lia.
Qed.

End InitOutcomes.

Section InitRuns.

Lemma initializeMap_claimed c w :
  is_Some (lmap (leaflet w)) →
  let w' := exec (initializeMap c) w in
  mapInstanceRef (comp w') = mapInstanceRef (comp w)
  ∧ isMapInitialized (comp w') = isMapInitialized (comp w).
Proof.
  intros Hl. cbn zeta.
  unfold exec, initializeMap, try_catch. rewrite initializeMap_try_eq.
  pose proof (call_frame "import(leaflet)" w) as Hframe. cbn in Hframe.
  destruct (call "import(leaflet)" w) as [[[] | e] w1]; cbn in Hframe;
    destruct Hframe as (Hs & Hc & Ht & Hcs & Hm & Hlm & Hi).
  - destruct (initGuard c w1); [cbn; by rewrite Hc |].
    destruct (initializeMap_setup_claimed c w1) as ([e He] & Hr & Hf & _);
      [by rewrite Hlm |].
    destruct (initializeMap_setup c w1) as [[[] | e'] w2]; [done |].
    rewrite init_handler_eq. cbn in Hr, Hf |- *. by rewrite Hr, Hf, Hc.
  - rewrite init_handler_eq. cbn. by rewrite Hc.
Qed.

(** A map on the container without a stored instance: no event changes
    that. *)
Lemma stuck_step w e :
  Inv w → is_Some (lmap (leaflet w)) → mapInstanceRef (comp w) = false →
  is_Some (lmap (leaflet (step w e)))
  ∧ mapInstanceRef (comp (step w e)) = false
  ∧ markers (leaflet (step w e)) = markers (leaflet w)
  ∧ markersRef (comp (step w e)) = markersRef (comp w).
Proof.
  intros HI Hl Hoff. destruct e as [p | f |].
  - rewrite step_render. destruct (render_frame p w) as (-> & -> & _). done.
  - destruct (imports (sched w)) as [| [c | c] q] eqn:Hq.
    + unfold step. by rewrite Hq.
    + rewrite (settle_init_eq c q f w Hq).
      set (w0 := on_sched (set_imports q) (on_leaflet (set_fuse f) w)).
      destruct (initializeMap_claimed c w0) as (Hr & _); [done |].
      destruct (initializeMap_spec c w0) as (_ & Hm & Hreg & _ & _ & _ & Hkeep & _).
      cbn. rewrite Hr, Hm, Hreg. split_and!; try done.
      destruct (Hkeep Hl) as [m Hm']. rewrite Hm'. by eexists.
    + destruct HI as (_ & _ & _ & _ & _ & _ & Hupd & _).
      assert (live w) as Hlive by (apply (Hupd c); rewrite Hq; by left).
      unfold live in Hlive. congruence.
  - destruct HI as (_ & _ & _ & _ & _ & _ & _ & _ & Hfr).
    unfold frames_ok in Hfr. cbn [step].
    destruct (frames (sched w)) as [| [fid fc] [| ??]]; [done | | done].
    destruct Hfr as [Hlive _]. unfold live in Hlive. congruence.
Qed.

Lemma stuck_run w es :
  Inv w → is_Some (lmap (leaflet w)) → mapInstanceRef (comp w) = false →
  is_Some (lmap (leaflet (run es w)))
  ∧ mapInstanceRef (comp (run es w)) = false
  ∧ markers (leaflet (run es w)) = markers (leaflet w)
  ∧ markersRef (comp (run es w)) = markersRef (comp w).
Proof.
  revert w. induction es as [| e es IH]; intros w HI Hl Hoff; [done |].
  destruct (stuck_step w e HI Hl Hoff) as (Hl1 & Hoff1 & Hm1 & Hr1).
  cbn [run foldl]. fold (run es (step w e)).
  destruct (IH (step w e)) as (? & ? & -> & ->); [by apply Inv_step | done | done |].
  done.
Qed.

(** X6. Once a map sits on the container while no instance is stored
    (an initialization failed between the creation of the map and the
    storing of the instance), the component stays inert whatever happens
    next: the instance is never stored, the flag is never set, no marker
    is created or registered, and every initialization that gets past its
    guard and meets no further failure ends in the catch block with the
    widget's complaint that the container is already initialized, adding
    the error toast once more. *)
Theorem claimed_container_stays_inert (es es' : list Event) :
  let w := run es initial in
  is_Some (lmap (leaflet w)) → mapInstanceRef (comp w) = false →
  let w' := run es' w in
  mapInstanceRef (comp w') = false ∧ isMapInitialized (comp w') = false
  ∧ markers (leaflet w') = markers (leaflet w)
  ∧ markersRef (comp w') = markersRef (comp w)
  ∧ ∀ c, initGuard c w' = false →
      (initializeMap_try c w').1 = Thrown "Map container is already initialized."
      ∧ toasts (exec (initializeMap c) w')
        = toasts w' ++ [ToastError "Failed to load map. Please refresh the page."].
Proof.
  intros w Hl Hoff w'.
  assert (Inv w) as HI by apply Inv_reachable.
  assert (Inv w') as HI' by by apply Inv_run.
  destruct (stuck_run w es' HI Hl Hoff) as (Hl' & Hoff' & Hm' & Hr').
  fold w' in Hl', Hoff', Hm', Hr'. clearbody w w'.
  split_and!; try done.
  - destruct HI' as (_ & -> & _). done.
  - intros c Hg.
    assert ((initializeMap_try c w').1 = Thrown "Map container is already initialized.")
      as Htry.
    { rewrite initializeMap_try_eq. destruct HI' as (Hnf & _).
      unfold call. rewrite Hnf, Hg.
      by destruct (initializeMap_setup_claimed c w' Hl') as (_ & _ & _ & ->). }
    split; [done |].
    destruct (initializeMap_outcome c w') as (_ & Hout). cbn zeta in Hout.
    rewrite Htry in Hout. by destruct Hout.
Qed.

(** An initialized map stays as it is. *)
Lemma live_step w e :
  Inv w → live w →
  mapInstanceRef (comp (step w e)) = true
  ∧ defaultIcon (comp (step w e)) = defaultIcon (comp w)
  ∧ highlightedIcon (comp (step w e)) = highlightedIcon (comp w)
  ∧ iconsMade (leaflet (step w e)) = iconsMade (leaflet w).
Proof.
  intros HI Hlive. destruct e as [p | f |].
  - rewrite step_render. destruct (render_frame p w) as (-> & -> & _). done.
  - destruct (imports (sched w)) as [| [c | c] q] eqn:Hq.
    + unfold step. by rewrite Hq.
    + destruct (blocked_aux c q f w HI Hlive Hq) as (-> & ->). done.
    + rewrite (settle_update_eq c q f w Hq).
      destruct (updateMarkers_resume_spec c
                  (on_sched (set_imports q) (on_leaflet (set_fuse f) w)))
        as (_ & (Hd & Hh & _ & _ & Href) & _ & _ & Hi & _).
      cbn in Hd, Hh, Href, Hi |- *. by rewrite Hd, Hh, Href, Hi.
  - pose proof HI as (_ & _ & _ & _ & _ & _ & _ & _ & Hfr).
    unfold frames_ok in Hfr. cbn [step].
    destruct (frames (sched w)) as [| [fid fc] [| ??]]; [done | | done].
    cbn [foldl snd].
    destruct (highlightMarker_benign fc (on_sched (set_frames []) w))
      as ((Hd & Hh & _ & _ & Href) & _ & _ & _ & Hi & _).
    cbn in Hd, Hh, Href, Hi |- *. by rewrite Hd, Hh, Href, Hi.
Qed.

Lemma live_run w es :
  Inv w → live w →
  mapInstanceRef (comp (run es w)) = true
  ∧ defaultIcon (comp (run es w)) = defaultIcon (comp w)
  ∧ highlightedIcon (comp (run es w)) = highlightedIcon (comp w)
  ∧ iconsMade (leaflet (run es w)) = iconsMade (leaflet w).
Proof.
  revert w. induction es as [| e es IH]; intros w HI Hlive; [done |].
  destruct (live_step w e HI Hlive) as (Hl1 & <- & <- & <-).
  cbn [run foldl]. apply IH; [by apply Inv_step | done].
Qed.

(** X7. Initialization happens once: from the moment an instance is
    stored, whatever is rendered, whichever imports settle or fail and
    whichever frames fire, the instance stays stored, the flag stays set,
    the two icons in the state stay the same objects and no further icon
    is ever created. *)
Theorem initialization_is_permanent (es es' : list Event) :
  let w := run es initial in
  mapInstanceRef (comp w) = true →
  let w' := run es' w in
  mapInstanceRef (comp w') = true ∧ isMapInitialized (comp w') = true
  ∧ defaultIcon (comp w') = defaultIcon (comp w)
  ∧ highlightedIcon (comp w') = highlightedIcon (comp w)
  ∧ iconsMade (leaflet w') = iconsMade (leaflet w).
Proof.
  intros w Hlive w'.
  assert (Inv w) as HI by apply Inv_reachable.
  assert (Inv w') as HI' by by apply Inv_run.
  destruct (live_run w es' HI Hlive) as (? & ? & ? & ?).
  split_and!; try done. destruct HI' as (_ & -> & _). done.
Qed.
End InitRuns.

Section InitRetries.

Lemma initializeMap_free c w n :
  fuse (leaflet w) = Some n → (n ≤ 3)%nat → lmap (leaflet w) = None →
  let w1 := exec (initializeMap c) w in
  lmap (leaflet w1) = None
  ∧ mapInstanceRef (comp w1) = mapInstanceRef (comp w)
  ∧ isMapInitialized (comp w1) = isMapInitialized (comp w).
Proof.
  intros Hf Hn Hl. cbn zeta.
  unfold exec, initializeMap, try_catch. rewrite initializeMap_try_eq.
  unfold call. rewrite Hf. destruct n as [| n].
  - rewrite init_handler_eq. cbn. done.
  - set (w0 := on_leaflet (set_fuse (Some n)) w).
    destruct (initGuard c w0); [done |].
    pose proof (initializeMap_setup_free c w0 n eq_refl) as Hfree.
    destruct (initializeMap_setup_early c w0 n eq_refl) as ([e He] & Hr & Hi); [lia |].
    destruct (initializeMap_setup c w0) as [[[] | e'] w2]; [done |].
    rewrite init_handler_eq. cbn in Hfree, Hr, Hi |- *. rewrite Hr, Hi.
    split_and!; try done. apply Hfree; [lia | done].
Qed.

(** X8. An initialization that fails at the import, at one of the icons
    or at the creation of the map leaves the container without a map and
    the flag and the instance as they were; the next initialization that
    gets past its guard and meets no failure then builds the map and sets
    the flag. *)
Theorem early_failure_can_be_retried (c c' : InitClosure) (w : World) (n : nat) :
  fuse (leaflet w) = Some n → (n ≤ 3)%nat → lmap (leaflet w) = None →
  let w1 := on_leaflet (set_fuse None) (exec (initializeMap c) w) in
  lmap (leaflet w1) = None
  ∧ mapInstanceRef (comp w1) = mapInstanceRef (comp w)
  ∧ isMapInitialized (comp w1) = isMapInitialized (comp w)
  ∧ (initGuard c' w1 = false →
       let w2 := exec (initializeMap c') w1 in
       lmap (leaflet w2) = Some (builtMap c')
       ∧ mapInstanceRef (comp w2) = true ∧ isMapInitialized (comp w2) = true).
Proof.
  intros Hf Hn Hl. cbn zeta.
  destruct (initializeMap_free c w n Hf Hn Hl) as (Hl1 & Hr1 & Hi1).
  split_and!; try done.
  intros Hg. by rewrite initializeMap_done.
Qed.

(** Among the entries of a list whose [f]-images are pairwise distinct,
    at most one has a given image. *)
Lemma at_most_one {A B} `{EqDecision B} (f : A → B) (b : B) (P : A → Prop)
    `{!∀ x, Decision (P x)} (l : list A) :
  NoDup (f <$> l) → (∀ x, x ∈ l → P x → f x = b) → (length (filter P l) ≤ 1)%nat.
Proof.
  induction l as [| x l IH]; intros Hnd Hb; [cbn; lia |].
  apply NoDup_cons in Hnd as [Hx Hnd].
  rewrite filter_cons. destruct (decide (P x)) as [Hp | Hp].
  - assert (filter P l = []) as ->; [| cbn; lia].
    apply filter_none. intros y Hy Hpy. apply Hx.
    apply list_elem_of_fmap. exists y. split; [| done].
    transitivity b; [apply Hb; [by left | done] |].
    symmetry. apply Hb; [by right | done].
  - apply IH; [done |]. intros y Hy. apply Hb. by right.
Qed.

(** X9. Of the initializations that wait for their import, at most one
    can get past its guard, however many renders requested one. *)
Theorem at_most_one_initialization_can_run (es : list Event) :
  let w := run es initial in
  (length (filter (λ c, initGuard c w = false) (pendingInits w)) ≤ 1)%nat.
Proof.
  intros w. assert (Inv w) as HI by apply Inv_reachable. clearbody w.
  destruct HI as (_ & _ & _ & _ & (Hnd & _) & _).
  apply (at_most_one initCell
           (match initEffect (sched w) with Some (_, cell) => cell | None => 0%nat end));
    [done |].
  intros c _. unfold initGuard, isMounted.
  destruct (initEffect (sched w)) as [[deps cell] |]; [| done].
  case_bool_decide; [done |]. done.
Qed.
End InitRetries.

Section Strays.

Lemma highlighted_onMap c w h :
  onMap <$> markers (leaflet (highlighted c w)) !! h = onMap <$> markers (leaflet w) !! h.
Proof.
  assert (onMap <$> markers (leaflet (foldl (resetOne c) w (Object_entries w))) !! h
          = onMap <$> markers (leaflet w) !! h) as Hreset.
  { rewrite resetAll_lookup. destruct (touched c h _); [| done].
    by destruct (markers (leaflet w) !! h). }
  unfold highlighted.
  destruct (hoveredMarker _ w) as [h0 | |]; [| done | done].
  destruct (markers _ !! h0) as [m |] eqn:Hm; [| done].
  cbn. destruct (decide (h = h0)) as [-> | Hne].
  - rewrite list_lookup_alter_eq, <- Hreset. by destruct (markers _ !! h0).
  - by rewrite list_lookup_alter_ne.
Qed.

Lemma highlighted_onMapHandles c w h :
  h ∈ onMapHandles (highlighted c w) ↔ h ∈ onMapHandles w.
Proof.
  rewrite !elem_onMapHandles. pose proof (highlighted_onMap c w h) as Hh.
  destruct (markers (leaflet (highlighted c w)) !! h) as [m' |],
           (markers (leaflet w) !! h) as [m |]; cbn in Hh; try done.
  injection Hh as Hh. split; intros (? & [= <-] & ?); eexists; (split; [done |]); congruence.
Qed.

(** The marker passes a render leaves pending are those that were, and
    one more at most, for the places of the render. *)
Lemma render_updates p c w :
  PendingUpdate c ∈ imports (sched (render p w)) →
  PendingUpdate c ∈ imports (sched w) ∨ updPlaces c = MapProps.places p.
Proof.
  unfold render.
  destruct (hoverEffectRun_frame p
              (updateEffectRun p (initEffectRun p (on_comp (set_mapRef true) w))))
    as (_ & _ & _ & _ & ->).
  set (w0 := on_comp (set_mapRef true) w).
  assert (PendingUpdate c ∈ imports (sched (initEffectRun p w0)) →
          PendingUpdate c ∈ imports (sched w)) as Hinit.
  { unfold initEffectRun.
    destruct (match initEffect (sched w0) with
              | Some (old, _) => negb (sameInitDeps old _)
              | None => true
              end); [| done].
    cbn. rewrite elem_of_app, list_elem_of_singleton. by intros [? | [=]]. }
  revert Hinit. generalize (initEffectRun p w0). intros w1 Hinit.
  unfold updateEffectRun, updateMarkers.
  destruct (match updateEffect (sched w1) with
            | Some old => negb (sameUpdateDeps old _)
            | None => true
            end); [| by left; apply Hinit].
  destruct (isMapInitialized (comp w1)); [| by left; apply Hinit]. cbn.
  destruct (mapInstanceRef (comp w1)); [| by left; apply Hinit].
  destruct (defaultIcon (comp w1)); [| by left; apply Hinit].
  cbn. rewrite elem_of_app, list_elem_of_singleton.
  intros [? | [= ->]]; [left; by apply Hinit | by right].
Qed.

Lemma neat_transfer w w' :
  markers (leaflet w') = markers (leaflet w) →
  markersRef (comp w') = markersRef (comp w) →
  (∀ c, PendingUpdate c ∈ imports (sched w') → PendingUpdate c ∈ imports (sched w)) →
  neat w → neat w'.
Proof.
  intros Hm Hr Hq [Hon Hnd]. split.
  - intros h. rewrite elem_onMapHandles, elem_Object_values, Hm, Hr.
    rewrite <- elem_onMapHandles, <- elem_Object_values. apply Hon.
  - intros c Hc. by apply Hnd, Hq.
Qed.

Lemma neat_step w e : Inv w → tidy e → neat w → neat (step w e).
Proof.
  intros HI Htidy [Hon Hnd]. destruct e as [p | f |].
  - rewrite step_render. split.
    + intros h. rewrite elem_onMapHandles, elem_Object_values.
      destruct (render_frame p w) as (-> & -> & _). cbn.
      rewrite <- elem_onMapHandles, <- elem_Object_values. apply Hon.
    + intros c [Hc | Hc]%render_updates; [by apply Hnd | by rewrite Hc].
  - cbn in Htidy. subst f.
    destruct (imports (sched w)) as [| [c | c] q] eqn:Hq.
    + unfold step. rewrite Hq. split; [done | by rewrite Hq].
    + rewrite (settle_init_eq c q None w Hq).
      set (w0 := on_sched (set_imports q) (on_leaflet (set_fuse None) w)).
      destruct (initializeMap_spec c w0) as (Hs & Hm & Hr & _).
      apply (neat_transfer w);
        [etrans; [| exact Hm]; done | etrans; [| exact Hr]; done | |].
      * intros c'. cbn. rewrite Hs. cbn. rewrite Hq. by right.
      * split; [done | by rewrite Hq].
    + rewrite (settle_update_eq c q None w Hq).
      set (w0 := on_sched (set_imports q) (on_leaflet (set_fuse None) w)).
      assert (nofault w0) as Hnf0 by done.
      assert (mapInstanceRef (comp w0) = true) as Hlive0.
      { destruct HI as (_ & _ & _ & _ & _ & _ & Hupd & _).
        apply (Hupd c). rewrite Hq. by left. }
      assert (distinct_keys (updPlaces c)) as [Hc Hout] by (apply Hnd; by left).
      unfold exec. rewrite updateMarkers_resume_ok by done. cbn [snd].
      split.
      * intros h.
        rewrite elem_onMapHandles, elem_Object_values. cbn.
        rewrite <- elem_onMapHandles, <- elem_Object_values.
        rewrite passed_onMapHandles, passed_Object_values.
        rewrite rebuilt_onMap, rebuilt_values_distinct by done.
        split; [intros [[Hh Hn] | ?]; [| done] | by right].
        exfalso. apply Hn. apply elem_Object_values.
        change (∃ pid, markersRef (comp w) !! pid = Some h).
        apply elem_Object_values, Hon, elem_onMapHandles.
        by apply elem_onMapHandles in Hh.
      * intros c'. cbn.
        destruct (passed_markers c w0) as (_ & _ & -> & _).
        destruct (rebuilt_frame c w0) as (_ & -> & _). cbn.
        intros Hc'. apply Hnd. by right.
  - pose proof HI as (_ & _ & _ & _ & _ & _ & _ & _ & Hfr).
    unfold frames_ok in Hfr. cbn [step].
    destruct (frames (sched w)) as [| [fid fc] [| ??]] eqn:Hfs; [| | done].
    + cbn. by apply (neat_transfer w); [| | | split].
    + destruct Hfr as [Hlive _]. cbn [foldl snd].
      assert (Inv (on_sched (set_frames []) w)) as HI0 by by apply (Inv_transfer w).
      destruct (Inv_highlight fc (on_sched (set_frames []) w) HI0 Hlive eq_refl) as [_ ->].
      destruct (highlighted_frame fc (on_sched (set_frames []) w)) as (Hc & Hs & _).
      split.
      * intros h. rewrite highlighted_onMapHandles.
        rewrite elem_Object_values, Hc. cbn.
        rewrite <- elem_Object_values.
        rewrite elem_onMapHandles. cbn. rewrite <- elem_onMapHandles. apply Hon.
      * intros c. rewrite Hs. cbn. apply Hnd.
Qed.
End Strays.

Section Strays2.

Lemma neat_run es w : Inv w → Forall tidy es → neat w → neat (run es w).
Proof.
  revert w. induction es as [| e es IH]; intros w HI Htidy Hneat; [done |].
  apply Forall_cons in Htidy as [He Hes]. cbn [run foldl].
  apply IH; [by apply Inv_step | done | by apply neat_step].
Qed.

(** X10. As long as no rendered place list holds two places under one
    identifier or a place named [__proto__], and nothing fails, the
    markers on the map are at every moment exactly the registered ones:
    none is left behind by a pass and none is registered without being
    shown. *)
Theorem markers_on_map_are_the_registered (es : list Event) :
  Forall tidy es →
  let w := run es initial in
  onMapHandles w ≡ₚ Object_values w.
Proof.
  intros Htidy w.
  assert (Inv w) as HI by apply Inv_reachable.
  assert (neat w) as [Hon _].
  { apply neat_run; [apply Inv_initial | done |].
    split; [| by intros c ?%elem_of_nil].
    intros h. by vm_compute. }
  clearbody w. apply NoDup_Permutation.
  - apply NoDup_onMapHandles.
  - apply NoDup_Object_values. by destruct HI as (_ & _ & _ & (_ & ? & _) & _).
  - exact Hon.
Qed.
End Strays2.

Section Unmount.

Lemma unmount_frame w :
  leaflet (unmount w) = leaflet w
  ∧ comp (unmount w) = set_mapRef false (comp w)
  ∧ imports (sched (unmount w)) = imports (sched w)
  ∧ toasts (unmount w) = toasts w ∧ console (unmount w) = console w
  ∧ initEffect (sched (unmount w)) = None.
Proof. unfold unmount. by destruct (hoverEffect (sched w)) as [[? [?|]]|]. Qed.

Lemma unmount_frames w : frames_ok w → frames (sched (unmount w)) = [].
Proof.
  unfold frames_ok, unmount.
  destruct (frames (sched w)) as [| [fid fc] [| ??]] eqn:Hfs; [| | done].
  - intros _. destruct (hoverEffect (sched w)) as [[? [?|]]|]; cbn; by rewrite ?Hfs.
  - intros [_ [deps ->]]. cbn. rewrite Hfs. cbn.
    by rewrite decide_False by (intros H; by apply H).
Qed.

(** X11. When the component unmounts, nothing takes the map or the
    markers away; the requested highlight pass is canceled; an
    initialization still waiting for its import returns at its guard when
    the import settles, touching nothing; but a marker pass still waiting
    for its import runs in full when it settles: it registers a marker for
    every identifier of its list other than [__proto__] and puts these
    markers on the map of the unmounted component. *)
Theorem unmount_stops_all_but_marker_passes (es : list Event) :
  let w := run es initial in
  let u := unmount w in
  leaflet u = leaflet w
  ∧ markersRef (comp u) = markersRef (comp w)
  ∧ frames (sched u) = []
  ∧ (∀ c q, imports (sched u) = PendingInit c :: q →
       let u' := step u (ImportSettles None) in
       leaflet u' = leaflet u ∧ comp u' = comp u ∧ toasts u' = toasts u)
  ∧ (∀ c q, imports (sched u) = PendingUpdate c :: q →
       let u' := step u (ImportSettles None) in
       dom (markersRef (comp u')) = list_to_set (ids (updPlaces c)) ∖ {["__proto__"]}
       ∧ ∀ pid m, markerOf u' pid = Some m → onMap m = true).
Proof.
  intros w u. assert (Inv w) as HI by apply Inv_reachable.
  subst u. clearbody w.
  destruct (unmount_frame w) as (Hl & Hc & Hi & Ht & Hcs & He).
  pose proof HI as (Hnf & _ & _ & _ & _ & _ & Hupd & _ & Hfr).
  split_and!.
  - done.
  - by rewrite Hc.
  - by apply unmount_frames.
  - intros c q Hq. cbn zeta. rewrite (settle_init_eq c q None _ Hq).
    set (u0 := on_sched (set_imports q) (on_leaflet (set_fuse None) (unmount w))).
    assert (initGuard c u0 = true) as Hg.
    { rewrite (initGuard_frame c (unmount w) u0) by done.
      unfold initGuard, isMounted. by rewrite He. }
    destruct (initializeMap_spec c u0) as (_ & Hm & _ & _ & Hsame & _).
    destruct (Hsame Hg) as (Hc' & Hl' & Hi').
    destruct (initializeMap_outcome c u0) as (_ & Hout). cbn zeta in Hout.
    assert ((initializeMap_try c u0).1 = Done ()) as Htry.
    { rewrite initializeMap_try_eq. unfold call.
      change (fuse (leaflet u0)) with (@None nat). cbv beta iota. by rewrite Hg. }
    rewrite Htry in Hout. destruct Hout as [Ht' _].
    split_and!; [| done | done].
    remember (exec (initializeMap c) u0) as u1 eqn:Hu1. clear Hu1.
    cbn [on_leaflet leaflet] in Hm, Hl', Hi' |- *.
    rewrite Hl. unfold nofault in Hnf.
    destruct (leaflet u1) as [lm ms im fu]. subst u0.
    cbn [on_sched on_leaflet leaflet lmap markers iconsMade set_fuse] in *.
    rewrite Hl in *. destruct (leaflet w) as [lm0 ms0 im0 fu0]. cbn in *.
    unfold set_fuse. cbn. congruence.
  - intros c q Hq. cbn zeta. rewrite (settle_update_eq c q None _ Hq).
    set (u0 := on_sched (set_imports q) (on_leaflet (set_fuse None) (unmount w))).
    assert (mapInstanceRef (comp u0) = true) as Hlive0.
    { change (mapInstanceRef (comp (unmount w)) = true). rewrite Hc. cbn.
      apply (Hupd c). rewrite <- Hi, Hq. by left. }
    destruct (pass_facts c u0 eq_refl Hlive0) as (_ & _ & _ & _ & Hdom & Hmk).
    split.
    + exact Hdom.
    + intros pid m Hm. destruct (Hmk pid m) as (_ & _ & Hon & _); [exact Hm | exact Hon].
Qed.
End Unmount.

Section Rerun.

Lemma pendingInits_app w k :
  pendingInits (enqueue k w)
  = pendingInits w ++ match k with PendingInit c => [c] | PendingUpdate _ => [] end.
Proof. unfold pendingInits, enqueue. cbn. rewrite omap_app. by destruct k. Qed.

(** The second and third effect request no initialization. *)
Lemma pendingInits_effects p w :
  pendingInits (hoverEffectRun p (updateEffectRun p w)) = pendingInits w.
Proof.
  unfold pendingInits at 1.
  destruct (hoverEffectRun_frame p (updateEffectRun p w)) as (_ & _ & _ & _ & ->).
  fold (pendingInits (updateEffectRun p w)).
  unfold updateEffectRun, updateMarkers.
  destruct (match updateEffect (sched w) with
            | Some old => negb (sameUpdateDeps old _)
            | None => true
            end); [| done].
  destruct (isMapInitialized (comp w)); [| done]. cbn.
  destruct (mapInstanceRef (comp w)); [| done].
  destruct (defaultIcon (comp w)); [| done].
  rewrite pendingInits_app. by rewrite app_nil_r.
Qed.

Lemma render_requests_init p w :
  MapProps.center p = None →
  pendingInits (render p w)
  = pendingInits w
    ++ [{| initCell := nextCell (sched w);
           initSawInitialized := isMapInitialized (comp w);
           initCenter := {| lat := 23022500; lng := 72571400 |};
           initZoom := zoomValue p |}].
Proof.
  intros Hc. unfold render. rewrite pendingInits_effects.
  unfold initEffectRun, centerIdent, centerValue. rewrite Hc.
  assert (∀ old, sameInitDeps old
            {| d1Center := Fresh; d1Zoom := zoomValue p;
               d1Initialized := isMapInitialized (comp (on_comp (set_mapRef true) w)) |}
          = false) as Hfresh.
  { intros old. unfold sameInitDeps, sameIdent. cbn. by destruct (d1Center old). }
  destruct (initEffect (sched (on_comp (set_mapRef true) w))) as [[old cell] |];
    rewrite ?Hfresh; cbn [negb]; by rewrite pendingInits_app.
Qed.

Lemma render_keeps_init p w r ll cell :
  MapProps.center p = Some (r, ll) →
  initEffect (sched w)
  = Some ({| d1Center := Ref r; d1Zoom := zoomValue p;
             d1Initialized := isMapInitialized (comp w) |}, cell) →
  pendingInits (render p w) = pendingInits w.
Proof.
  intros Hc He. unfold render. rewrite pendingInits_effects.
  unfold initEffectRun, centerIdent. rewrite Hc. cbn. rewrite He.
  unfold sameInitDeps, sameIdent. cbn. by rewrite !bool_decide_eq_true_2.
Qed.

(** X12. With the [center] prop left out, the default centre is a new
    array at every render, so the first effect runs again at every render:
    each render requests one more initialization, which captures the flag
    as it is and the default centre, and [n] renders in a row leave [n]
    more initializations waiting for their import.  With a [center] that
    is the same array as at the previous run of the effect, the same zoom
    and the flag unchanged, a render requests none. *)
Theorem every_render_requests_an_initialization :
  (∀ p w, MapProps.center p = None →
     pendingInits (render p w)
     = pendingInits w
       ++ [{| initCell := nextCell (sched w);
              initSawInitialized := isMapInitialized (comp w);
              initCenter := {| lat := 23022500; lng := 72571400 |};
              initZoom := zoomValue p |}])
  ∧ (∀ ps w, Forall (λ p, MapProps.center p = None) ps →
       length (pendingInits (run (Render <$> ps) w))
       = (length (pendingInits w) + length ps)%nat)
  ∧ (∀ p w r ll cell, MapProps.center p = Some (r, ll) →
       initEffect (sched w)
       = Some ({| d1Center := Ref r; d1Zoom := zoomValue p;
                  d1Initialized := isMapInitialized (comp w) |}, cell) →
       pendingInits (render p w) = pendingInits w).
Proof.
  split_and!.
  - apply render_requests_init.
  - intros ps. induction ps as [| p ps IH]; intros w Hall; [cbn; lia |].
    apply Forall_cons in Hall as [Hp Hps].
    cbn [fmap list_fmap run foldl]. fold (run (Render <$> ps) (step w (Render p))).
    change (list_fmap _ _ Render ps) with (Render <$> ps).
    rewrite IH by done. rewrite step_render, render_requests_init by done.
    rewrite length_app. cbn. lia.
  - apply render_keeps_init.
Qed.
End Rerun.

Section Height.

Lemma startsWith_spec s sub : startsWith s sub = true ↔ ∃ post, s = sub +:+ post.
Proof.
  revert s. induction sub as [| a sub IH]; intros s; cbn.
  - split; [intros _; by exists s | done].
  - destruct s as [| b s].
    + split; [done | by intros [post [=]]].
    + rewrite andb_true_iff, bool_decide_eq_true, IH. split.
      * intros [-> [post ->]]. by exists post.
      * intros [post [= -> ->]]. split; [done | by exists post].
Qed.

Lemma includes_spec s sub :
  includes s sub = true ↔ ∃ pre post, s = pre +:+ sub +:+ post.
Proof.
  induction s as [| b s IH]; cbn [includes].
  - rewrite orb_false_r, startsWith_spec. split.
    + intros [post ->]. by exists EmptyString, post.
    + intros ([| ??] & post & Heq); [by exists post | done].
  - rewrite orb_true_iff, startsWith_spec, IH. split.
    + intros [[post ->] | (pre & post & ->)].
      * by exists EmptyString, post.
      * by exists (String b pre), post.
    + intros ([| a pre] & post & Heq).
      * left. by exists post.
      * right. injection Heq as -> ->. by exists pre, post.
Qed.

(** X13. The container gets the inline height of 400 pixels when no
    class name is given and when the class name has no occurrence of
    [h-]; it gets none as soon as [h-] occurs anywhere in the class name,
    also inside another class such as [max-h-96] or [mesh-x].  The class
    name the itinerary page passes keeps the 400 pixels. *)
Theorem height_depends_on_class_name :
  styleHeight None = Some "400px"
  ∧ (∀ pre post, styleHeight (Some (pre +:+ "h-" +:+ post)) = None)
  ∧ (∀ c, (∀ pre post, c ≠ pre +:+ "h-" +:+ post) → styleHeight (Some c) = Some "400px")
  ∧ styleHeight (Some "mb-6 lg:mb-0 sticky top-20") = Some "400px".
Proof.
  split_and!; [done | | | done].
  - intros pre post. unfold styleHeight.
    assert (includes (pre +:+ "h-" +:+ post) "h-" = true) as ->; [| done].
    apply includes_spec. by exists pre, post.
  - intros c Hc. unfold styleHeight.
    destruct (includes c "h-") eqn:Hin; [| done].
    apply includes_spec in Hin as (pre & post & ->). by destruct (Hc pre post).
Qed.
End Height.

Section Idempotence.

Lemma world_ext w w' :
  lmap (leaflet w) = lmap (leaflet w') → markers (leaflet w) = markers (leaflet w') →
  iconsMade (leaflet w) = iconsMade (leaflet w') → fuse (leaflet w) = fuse (leaflet w') →
  comp w = comp w' → sched w = sched w' → toasts w = toasts w' → console w = console w' →
  w = w'.
Proof.
  destruct w as [[] ? ? ? ?], w' as [[] ? ? ? ?]. cbn. by intros -> -> -> -> -> -> -> ->.
Qed.

Lemma lit_idemp hi m : lit hi (lit hi m) = lit hi m.
Proof.
  destruct m as [ll i pp po om]. unfold lit, with_popupOpen, with_icon. cbn. f_equal.
  by destruct (bool_decide (is_Some pp)), om, po.
Qed.

Lemma Object_entries_ext w w' : comp w = comp w' → Object_entries w = Object_entries w'.
Proof. unfold Object_entries. by intros ->. Qed.

(** Resetting twice is resetting once. *)
Lemma resetAll_idemp c w w1 :
  comp w1 = comp w →
  (∀ h, markers (leaflet w1) !! h
        = markers (leaflet (foldl (resetOne c) w (Object_entries w))) !! h) →
  ∀ h, markers (leaflet (foldl (resetOne c) w1 (Object_entries w1))) !! h
       = markers (leaflet w1) !! h.
Proof.
  intros Hc Hm h. rewrite (Object_entries_ext w1 w Hc), resetAll_lookup, Hm.
  rewrite resetAll_lookup. destruct (touched c h _); [| done].
  by destruct (markers (leaflet w) !! h).
Qed.

Lemma lit_reset_lit hi d m :
  lit hi (reset d (lit hi (reset d m))) = lit hi (reset d m).
Proof. by destruct m as [ll i pp po om]. Qed.

Lemma reset_lit_latlng hi d m : latlng (reset d (lit hi m)) = latlng m.
Proof. done. Qed.

Lemma highlighted_idemp c w :
  highlighted c (highlighted c w) = highlighted c w.
Proof.
  destruct (resetAll_frame c (Object_entries w) w)
    as (Hc & Hs & Ht & Hcs & Hl & Hf & Hi & Hlen).
  set (E := Object_entries w) in *. set (R := foldl (resetOne c) w E) in *.
  assert (∀ h, markers (leaflet R) !! h
               = if touched c h E then reset (frDefaultIcon c) <$> markers (leaflet w) !! h
                 else markers (leaflet w) !! h) as HR.
  { intros h. subst R. by rewrite resetAll_lookup. }
  assert ((∀ h0, hoveredMarker (frHovered c) w ≠ IsMarker h0) ∨
          (∃ h0, hoveredMarker (frHovered c) w = IsMarker h0
                 ∧ markers (leaflet R) !! h0 = None) →
          highlighted c R = R) as Hplain.
  { intros Hno.
    pose proof (resetAll_idemp c w R Hc (λ h, eq_refl)) as Hagain.
    destruct (resetAll_frame c (Object_entries R) R)
      as (Hc' & Hs' & Ht' & Hcs' & Hl' & Hf' & Hi' & Hlen').
    unfold highlighted. rewrite (hoveredMarker_ext _ w R) by done.
    destruct (hoveredMarker (frHovered c) w) as [h0 | |] eqn:Hh0.
    - destruct Hno as [Hno | (h1 & [= <-] & Hnone)]; [by destruct (Hno h0) |].
      rewrite Hagain, Hnone. apply world_ext; try done. by apply list_eq.
    - apply world_ext; try done. by apply list_eq.
    - apply world_ext; try done. by apply list_eq. }
  destruct (hoveredMarker (frHovered c) w) as [h0 | |] eqn:Hh0.
  - destruct (markers (leaflet R) !! h0) as [m |] eqn:Hm.
    + (* the selection names a marker *)
      assert (highlighted c w
              = on_leaflet (λ l, set_lmap (panView (latlng m) <$> lmap l) l)
                  (alter_marker (lit (frHighlightedIcon c)) h0 R)) as Hw1.
      { unfold highlighted. fold E. fold R. by rewrite Hh0, Hm. }
      rewrite Hw1.
      set (w1 := on_leaflet _ (alter_marker _ h0 R)).
      assert (comp w1 = comp w) as Hc1 by (subst w1; cbn; done).
      destruct (resetAll_frame c (Object_entries w1) w1)
        as (Hc' & Hs' & Ht' & Hcs' & Hl' & Hf' & Hi' & Hlen').
      set (R1 := foldl (resetOne c) w1 (Object_entries w1)) in *.
      assert (∀ h, markers (leaflet R1) !! h
                   = if touched c h E
                     then reset (frDefaultIcon c) <$> markers (leaflet w1) !! h
                     else markers (leaflet w1) !! h) as HR1.
      { intros h. subst R1. by rewrite (Object_entries_ext w1 w Hc1), resetAll_lookup. }
      assert (∀ h, h ≠ h0 → markers (leaflet R1) !! h = markers (leaflet w1) !! h) as Hagain.
      { intros h Hne. rewrite HR1.
        destruct (touched c h E) eqn:Hth; [| done].
        subst w1. cbn. rewrite list_lookup_alter_ne by done.
        rewrite HR, Hth. by destruct (markers (leaflet w) !! h). }
      assert (∃ m1, markers (leaflet R1) !! h0 = Some m1
                    ∧ lit (frHighlightedIcon c) m1 = lit (frHighlightedIcon c) m
                    ∧ latlng m1 = latlng m) as (m1 & Hm1 & Hlit & Hll).
      { rewrite HR1. subst w1. cbn. rewrite list_lookup_alter_eq, Hm. cbn.
        rewrite HR in Hm.
        destruct (touched c h0 E).
        - destruct (markers (leaflet w) !! h0) as [m0 |]; [| done].
          cbn in Hm. injection Hm as <-. eexists. split; [done |].
          split; [apply lit_reset_lit | done].
        - eexists. split; [done |]. split; [apply lit_idemp | done]. }
      unfold highlighted. fold R1.
      rewrite (hoveredMarker_ext _ w w1) by done. rewrite Hh0, Hm1.
      apply world_ext; cbn.
      * rewrite Hl', Hll. subst w1. cbn.
        destruct (lmap (leaflet R)) as [mp |]; [| done]. done.
      * apply list_eq. intros h. destruct (decide (h = h0)) as [-> | Hne].
        -- rewrite list_lookup_alter_eq, Hm1. cbn. rewrite Hlit.
           subst w1. cbn. by rewrite list_lookup_alter_eq, Hm.
        -- rewrite list_lookup_alter_ne by done. by apply Hagain.
      * by rewrite Hi'.
      * by rewrite Hf'.
      * by rewrite Hc'.
      * by rewrite Hs'.
      * by rewrite Ht'.
      * by rewrite Hcs'.
    + (* the handle names no marker *)
      assert (highlighted c w = R) as ->.
      { unfold highlighted. fold E. fold R. by rewrite Hh0, Hm. }
      apply Hplain. right. by exists h0.
  - assert (highlighted c w = R) as ->.
    { unfold highlighted. fold E. fold R. by rewrite Hh0. }
    apply Hplain. by left.
  - assert (highlighted c w = R) as ->.
    { unfold highlighted. fold E. fold R. by rewrite Hh0. }
    apply Hplain. by left.
Qed.
End Idempotence.

Section Idempotence2.
(** X14. Running the highlight pass a second time leaves everything as
    the first pass left it: markers, popups and view. *)
Theorem highlight_pass_is_idempotent (c : FrameClosure) (w : World) :
  nofault w → mapInstanceRef (comp w) = true →
  handles_valid w → injective (markersRef (comp w)) →
  let w1 := exec (highlightMarker c) w in
  exec (highlightMarker c) w1 = w1.
Proof.
  intros Hnf Href Hvalid Hinj. cbn zeta.
  rewrite (highlightMarker_exec c w) by done.
  destruct (highlighted_frame c w) as (Hc & _ & _ & _ & Hf & _ & Hlen & _).
  rewrite highlightMarker_exec.
  - apply highlighted_idemp.
  - unfold nofault. by rewrite Hf.
  - by rewrite Hc.
Qed.
End Idempotence2.

Section FailedPass.

(** The first pass fails when it binds the popup of its first marker. *)
Lemma pass_fails_at_popup c p ps w :
  updPlaces c = p :: ps →
  mapInstanceRef (comp w) = true → markersRef (comp w) = ∅ →
  fuse (leaflet w) = Some 3%nat →
  exec (updateMarkers_resume c) w
  = add_console "Error updating markers: marker.bindPopup"
      (on_comp registry_fresh
         (on_leaflet (λ l, set_fuse None (set_markers (markers l ++
            [{| latlng := TouristPlace.location p; icon := updDefaultIcon c;
                popup := None; popupOpen := false; onMap := true |}]) l)) w)).
Proof.
  destruct w as [[lm ms im fu] [di hi ini mr mi reg pr] sch ts cs]. cbn.
  intros Hps -> -> ->.
  unfold exec, updateMarkers_resume, updateMarkers_try, try_catch, L_import.
  rewrite Hps. unfold Object_values. 
  unfold_monad. unfold_world. rewrite map_to_list_empty. cbn [fmap list_fmap forEach].
  unfold addMarker, L_marker, marker_addTo, marker_bindPopup, the_map.
  unfold_monad. unfold_world. rewrite alter_snoc. reflexivity.
Qed.

(** A marker that is on the map without being registered outlives every
    pass that meets no failure. *)
Lemma stray_survives c w h :
  nofault w → mapInstanceRef (comp w) = true →
  h ∈ onMapHandles w → h ∉ Object_values w →
  let w' := exec (updateMarkers_resume c) w in
  nofault w' ∧ mapInstanceRef (comp w') = true
  ∧ h ∈ onMapHandles w' ∧ h ∉ Object_values w'.
Proof.
  intros Hnf Href Hon Hreg. cbn zeta.
  destruct (pass_facts c w Hnf Href) as (_ & _ & _ & (_ & _ & _ & _ & Href') & _).
  unfold exec in *. rewrite updateMarkers_resume_ok in * by done. cbn [snd] in *.
  split_and!.
  - unfold nofault, passed. cbn zeta.
    destruct (rebuilt_frame c w) as (_ & _ & _ & _ & _ & Hf & _).
    destruct (updPlaces c); [by rewrite Hf |].
    destruct (boundsOf _); cbn; by rewrite Hf.
  - by rewrite Href'.
  - rewrite passed_onMapHandles, rebuilt_onMap. by left.
  - rewrite passed_Object_values, elem_Object_values.
    intros (pid & Hpid).
    destruct (rebuilt_registry c w) as (_ & Hh & _).
    destruct (Hh pid h Hpid) as (k & p & -> & _).
    apply elem_onMapHandles in Hon as (m & Hm%lookup_lt_Some & _). lia.
Qed.

Lemma stray_survives_all later w h :
  nofault w → mapInstanceRef (comp w) = true →
  h ∈ onMapHandles w → h ∉ Object_values w →
  let w' := foldl (λ w' c', exec (updateMarkers_resume c') w') w later in
  h ∈ onMapHandles w' ∧ h ∉ Object_values w'.
Proof.
  cbn zeta. revert w. induction later as [| c later IH]; intros w Hnf Href Hon Hreg; [done |].
  cbn [foldl]. destruct (stray_survives c w h Hnf Href Hon Hreg) as (? & ? & ? & ?).
  by apply IH.
Qed.

(** X16. When the first marker pass fails at the popup of its first
    marker, the marker is already on the map and not yet registered: the
    failure is logged, the registry stays empty, and since a pass removes
    registered markers only, the marker stays on the map through every
    later pass that meets no failure, never registered. *)
Theorem failed_pass_leaves_marker_for_good
    (c : UpdateClosure) (p : TouristPlace) (ps : list TouristPlace)
    (later : list UpdateClosure) (w : World) :
  updPlaces c = p :: ps →
  mapInstanceRef (comp w) = true → markersRef (comp w) = ∅ →
  fuse (leaflet w) = Some 3%nat →
  let h := length (markers (leaflet w)) in
  let w1 := exec (updateMarkers_resume c) w in
  let w2 := foldl (λ w' c', exec (updateMarkers_resume c') w') w1 later in
  markers (leaflet w1) !! h
  = Some {| latlng := TouristPlace.location p; icon := updDefaultIcon c;
            popup := None; popupOpen := false; onMap := true |}
  ∧ markersRef (comp w1) = ∅
  ∧ toasts w1 = toasts w
  ∧ console w1 = console w ++ ["Error updating markers: marker.bindPopup"]
  ∧ h ∈ onMapHandles w2 ∧ h ∉ Object_values w2.
Proof.
  intros Hps Href Hreg Hf. cbn zeta.
  rewrite (pass_fails_at_popup c p ps w Hps Href Hreg Hf).
  set (w1 := add_console _ _).
  assert (markers (leaflet w1) !! length (markers (leaflet w))
          = Some {| latlng := TouristPlace.location p; icon := updDefaultIcon c;
                    popup := None; popupOpen := false; onMap := true |}) as Hm.
  { subst w1. cbn. by rewrite lookup_app_r, Nat.sub_diag by lia. }
  assert (length (markers (leaflet w)) ∈ onMapHandles w1) as Hon.
  { apply elem_onMapHandles. by eexists. }
  assert (length (markers (leaflet w)) ∉ Object_values w1) as Hno.
  { rewrite elem_Object_values. intros (pid & Hpid). subst w1. by cbn in Hpid. }
  destruct (stray_survives_all later w1 _ eq_refl Href Hon Hno) as [? ?].
  split_and!; done.
Qed.
End FailedPass.

Section Settling.

(** What a settling import leaves of the queue. *)
Lemma settle_pops k q f w :
  imports (sched w) = k :: q → imports (sched (step w (ImportSettles f))) = q.
Proof.
  intros Hq. destruct k as [c | c].
  - rewrite (settle_init_eq c q f w Hq).
    destruct (initializeMap_spec c (on_sched (set_imports q) (on_leaflet (set_fuse f) w)))
      as (Hs & _).
    cbn in Hs |- *. by rewrite Hs.
  - rewrite (settle_update_eq c q f w Hq).
    destruct (updateMarkers_resume_spec c
                (on_sched (set_imports q) (on_leaflet (set_fuse f) w)))
      as (_ & _ & Hs & _).
    cbn in Hs |- *. by rewrite Hs.
Qed.

(** The imports settle one after the other; the pass requested last is
    the one that shapes the registry. *)
Lemma drain q c w :
  Inv w → live w → imports (sched w) = q ++ [PendingUpdate c] →
  let w' := run (replicate (S (length q)) (ImportSettles None)) w in
  imports (sched w') = []
  ∧ dom (markersRef (comp w')) = list_to_set (ids (updPlaces c)) ∖ {["__proto__"]}
  ∧ ∀ pid m, markerOf w' pid = Some m →
      icon m = updDefaultIcon c ∧ popupOpen m = false ∧ onMap m = true
      ∧ ∃ p, p ∈ updPlaces c ∧ TouristPlace.id p = pid
             ∧ latlng m = TouristPlace.location p.
Proof.
  cbn zeta. revert w. induction q as [| k q IH]; intros w HI Hlive Hq.
  - cbn [length replicate run foldl]. cbn [app] in Hq.
    rewrite (settle_update_eq c [] None w Hq).
    set (w0 := on_sched (set_imports []) (on_leaflet (set_fuse None) w)).
    destruct (pass_facts c w0 eq_refl Hlive) as (Hs & _ & _ & _ & Hdom & Hmk).
    split_and!.
    + cbn. by rewrite Hs.
    + exact Hdom.
    + exact Hmk.
  - cbn [length replicate run foldl].
    fold (run (replicate (S (length q)) (ImportSettles None)) (step w (ImportSettles None))).
    apply IH.
    + by apply Inv_step.
    + by destruct (live_step w (ImportSettles None) HI Hlive) as (? & _).
    + by apply (settle_pops k).
Qed.

Lemma updateEffectRun_new_list p w d :
  isMapInitialized (comp w) = true → mapInstanceRef (comp w) = true →
  defaultIcon (comp w) = Some d →
  (∀ deps, updateEffect (sched w) = Some deps → d2Places deps ≠ MapProps.placesRef p) →
  imports (sched (updateEffectRun p w))
  = imports (sched w)
    ++ [PendingUpdate {| updPlaces := MapProps.places p; updDefaultIcon := d |}].
Proof.
  intros Hflag Href Hd Hnew. unfold updateEffectRun, updateMarkers.
  rewrite Hflag, Hd. cbn [set_updateEffect on_sched comp]. rewrite Href.
  destruct (updateEffect (sched w)) as [old |] eqn:Ho; [| done].
  unfold sameUpdateDeps. cbn [d2Places].
  rewrite (bool_decide_eq_false_2 (d2Places old = MapProps.placesRef p)) by by apply Hnew.
  done.
Qed.

(** On a live map a render with a new list requests a pass for it, after
    whatever is already waiting. *)
Lemma render_requests_pass p w d :
  isMapInitialized (comp w) = true → mapInstanceRef (comp w) = true →
  defaultIcon (comp w) = Some d →
  (∀ deps, updateEffect (sched w) = Some deps → d2Places deps ≠ MapProps.placesRef p) →
  ∃ q, imports (sched (render p w))
       = q ++ [PendingUpdate {| updPlaces := MapProps.places p; updDefaultIcon := d |}].
Proof.
  intros Hflag Href Hd Hnew. unfold render.
  destruct (hoverEffectRun_frame p
              (updateEffectRun p (initEffectRun p (on_comp (set_mapRef true) w))))
    as (_ & _ & _ & _ & ->).
  pose proof (initEffectRun_frame p (on_comp (set_mapRef true) w)) as Hframe.
  cbn in Hframe. destruct Hframe as (_ & Hc & _ & _ & _ & _ & _ & Hu).
  eexists. apply updateEffectRun_new_list.
  - by rewrite Hc.
  - by rewrite Hc.
  - by rewrite Hc.
  - intros deps Hdeps. rewrite Hu in Hdeps. by apply Hnew.
Qed.

(** X15. On an initialized map, once a place list that is a new array
    has been rendered and every import then waiting has settled without a
    failure, in the order requested, nothing is left waiting and the
    registry holds exactly the identifiers of that list other than
    [__proto__], each with a marker on the map at the coordinates of a
    place of the list under that identifier, whatever lists were rendered
    before. *)
Theorem settled_map_shows_latest_places (es : list Event) (p : MapProps) :
  let w := run es initial in
  mapInstanceRef (comp w) = true →
  (∀ deps, updateEffect (sched w) = Some deps → d2Places deps ≠ MapProps.placesRef p) →
  let w1 := step w (Render p) in
  let w2 := run (replicate (length (imports (sched w1))) (ImportSettles None)) w1 in
  imports (sched w2) = []
  ∧ dom (markersRef (comp w2)) = list_to_set (ids (MapProps.places p)) ∖ {["__proto__"]}
  ∧ ∀ pid m, markerOf w2 pid = Some m →
      onMap m = true
      ∧ ∃ pl, pl ∈ MapProps.places p ∧ TouristPlace.id pl = pid
              ∧ latlng m = TouristPlace.location pl.
Proof.
  intros w Hlive Hnew.
  assert (Inv w) as HI by apply Inv_reachable. clearbody w.
  cbn zeta. rewrite step_render.
  pose proof HI as (_ & Hflag & Hparts & _).
  destruct (Hparts Hlive) as (_ & _ & [d Hd] & _).
  destruct (render_requests_pass p w d) as [q Hq]; [congruence | done | done | done |].
  assert (Inv (render p w)) as HI1 by by apply Inv_render.
  assert (live (render p w)) as Hlive1.
  { unfold live. destruct (render_frame p w) as (_ & -> & _). done. }
  rewrite Hq, length_app, Nat.add_1_r.
  destruct (drain q _ (render p w) HI1 Hlive1 Hq) as (Himp & Hdom & Hmk).
  split_and!; [done | done |].
  intros pid m Hm. destruct (Hmk pid m Hm) as (_ & _ & Hon & Hpl). done.
Qed.
End Settling.

(** ** Failures and the renders they cause *)

Section Rerender.

(** *** Icons are new objects *)






(** *** The setup by the call that fails *)







(** *** A render of a component that is not initialized *)




(** *** Settling imports and the renders they cause *)














End Rerender.

Section Failures.
Import Sample Scenario.



End Failures.

(** ** The theorems on sample inputs *)

Import Sample.

(** Adding [p1] to an itinerary that holds it. *)
Lemma itinerary_ids_after_ops_witness :
  ItineraryStore.add p1 (ItineraryStore.run [ItineraryStore.Add p1; ItineraryStore.Add p2] [])
  = ItineraryStore.run [ItineraryStore.Add p1; ItineraryStore.Add p2] [].
Proof.
  apply (itinerary_ids_after_ops [ItineraryStore.Add p1; ItineraryStore.Add p2]).
  vm_compute. left.
Defined.

(** [p1] is added, removed and added again: it is in the itinerary, and
    among the removed identifiers. *)
Lemma readded_place_is_kept :
  let ops := [ItineraryStore.Add p1; ItineraryStore.Remove "p1"; ItineraryStore.Add p1] in
  ids (ItineraryStore.run ops []) = ["p1"]
  ∧ ItineraryStore.adds ops ∖ ItineraryStore.removes ops = ∅.
Proof. split; by vm_compute. Qed.

(** Hovering [p1] on the sample map with two places. *)
Lemma hover_highlight_pass_witness :
  let fc := {| frHovered := HoverId "p1"; frDefaultIcon := pin; frHighlightedIcon := bigPin |} in
  let w' := exec (highlightMarker fc) shown in
  markerOf w' "p1" = Some (lit bigPin (newMarker pin p1))
  ∧ lmap (leaflet w') = panView (latlng (newMarker pin p1)) <$> lmap (leaflet shown).
Proof.
  intros fc w'.
  destruct (Inv_reachable shownBy) as (_ & _ & _ & Hreg & _).
  destruct (hover_highlight_pass fc shown) as (_ & _ & H & _);
    [reflexivity | reflexivity | exact Hreg |].
  destruct (H "p1" (newMarker pin p1)) as (_ & Hlit & _ & _ & Hpan & _);
    [reflexivity | discriminate | by vm_compute |].
  exact (conj Hlit Hpan).
Defined.

(** A place under the empty identifier is registered and hovered: the
    pass leaves its marker with the default icon, the popup closed and
    the view where it was.  A place is registered and [constructor] is
    hovered: the pass throws. *)
Lemma empty_identifier_is_never_highlighted :
  let c := {| updPlaces := [unnamed]; updDefaultIcon := pin |} in
  let fc := {| frHovered := HoverId EmptyString; frDefaultIcon := pin; frHighlightedIcon := bigPin |} in
  let fc' := {| frHovered := HoverId "constructor"; frDefaultIcon := pin;
                frHighlightedIcon := bigPin |} in
  let w := exec (updateMarkers_resume c) ready in
  let w' := exec (highlightMarker fc) w in
  markersRef (comp w) !! EmptyString = Some 0%nat
  ∧ (icon <$> markerOf w' EmptyString) = Some pin
  ∧ (popupOpen <$> markerOf w' EmptyString) = Some false
  ∧ lmap (leaflet w') = lmap (leaflet w)
  ∧ (highlightMarker fc' w).1 = Thrown "TypeError: marker.setIcon is not a function".
Proof. split_and!; by vm_compute. Qed.

(** A place named [__proto__] next to [p1]: hovering it lights its marker,
    which the registry answers with through its prototype; hovering [p1]
    afterwards lights that marker too and the first one stays lit, the
    reset going over the own properties only. *)
Lemma prototype_marker_keeps_highlight :
  let c := {| updPlaces := [proto; p1]; updDefaultIcon := pin |} in
  let w := exec (updateMarkers_resume c) ready in
  let fc s := {| frHovered := HoverId s; frDefaultIcon := pin;
                 frHighlightedIcon := bigPin |} in
  let w1 := exec (highlightMarker (fc "__proto__")) w in
  let w2 := exec (highlightMarker (fc "p1")) w1 in
  (isHighlighted <$> markers (leaflet w1)) = [true; false]
  ∧ (isHighlighted <$> markers (leaflet w2)) = [true; true].
Proof. split; by vm_compute. Qed.



(** The update effect of a component that is still mounting. *)
Lemma update_waits_for_initialization_witness :
  let w' := updateEffectRun (props [p1] 0 HoverUndefined) mounting in
  leaflet w' = leaflet mounting ∧ comp w' = comp mounting
  ∧ imports (sched w') = imports (sched mounting).
Proof.
  destruct update_waits_for_initialization as (H & _).
  apply (H (props [p1] 0 HoverUndefined) mounting). left. reflexivity.
Defined.

(** Share and download on an empty itinerary. *)
Lemma share_download_only_notify_witness :
  ItineraryPage.toasts (ItineraryPage.handleShare (ItineraryPage.mount []))
  = [ToastError "You don't have any places to share"]
  ∧ ItineraryPage.toasts (ItineraryPage.handleDownload (ItineraryPage.mount []))
    = [ToastError "You don't have any places to download"].
Proof.
  destruct (share_download_only_notify (ItineraryPage.mount [])) as (H & _).
  apply H. reflexivity.
Defined.


(** A first click on the clear button. *)
Lemma clear_needs_confirmation_witness :
  let pg' := ItineraryPage.handleClearItinerary (ItineraryPage.mount [p1]) in
  ItineraryPage.itinerary pg' = [p1] ∧ ItineraryPage.clearCalls pg' = 0%nat.
Proof.
  destruct clear_needs_confirmation as (H & _).
  destruct (H (ItineraryPage.mount [p1])) as (Hit & Hcalls & _); [reflexivity |].
  exact (conj Hit Hcalls).
Defined.

Import Scenario.

(** The view cannot be set; then another render and its import. *)
Lemma claimed_container_stays_inert_witness :
  isMapInitialized
    (comp (run [Render (props [p1] 0 HoverUndefined); ImportSettles None]
               (run stuckBy initial))) = false.
Proof.
  destruct (claimed_container_stays_inert stuckBy
              [Render (props [p1] 0 HoverUndefined); ImportSettles None])
    as (_ & H & _).
  - eexists. vm_compute. reflexivity.
  - reflexivity.
  - exact H.
Defined.

(** The sample map, then a render with another list and a failing pass. *)
Lemma initialization_is_permanent_witness :
  defaultIcon (comp (run [Render (props [p2] 2 HoverNull); ImportSettles None;
                          ImportSettles (Some 2%nat)] (run shownBy initial)))
  = defaultIcon (comp (run shownBy initial)).
Proof.
  destruct (initialization_is_permanent shownBy
              [Render (props [p2] 2 HoverNull); ImportSettles None;
               ImportSettles (Some 2%nat)]) as (_ & _ & H & _).
  - reflexivity.
  - exact H.
Defined.

(** The import fails; the next initialization goes through. *)
Lemma early_failure_can_be_retried_witness :
  let w := on_leaflet (set_fuse (Some 0%nat)) mounting in
  lmap (leaflet (on_leaflet (set_fuse None) (exec (initializeMap firstInit) w))) = None.
Proof.
  destruct (early_failure_can_be_retried firstInit firstInit
              (on_leaflet (set_fuse (Some 0%nat)) mounting) 0) as (H & _).
  - reflexivity.
  - lia.
  - reflexivity.
  - exact H.
Defined.

Lemma markers_on_map_are_the_registered_witness :
  onMapHandles (run tidyRun initial) ≡ₚ Object_values (run tidyRun initial).
Proof.
  apply (markers_on_map_are_the_registered tidyRun).
  repeat apply Forall_cons_2; try apply Forall_nil_2; try exact eq_refl; try exact I.
  - split; cbn.
    + apply NoDup_cons. split; [| apply NoDup_singleton].
      intros [H | H]%elem_of_cons; [discriminate H | by apply elem_of_nil in H].
    + intros [H | [H | H]%elem_of_cons]%elem_of_cons;
        [discriminate H | discriminate H | by apply elem_of_nil in H].
  - split; cbn.
    + apply NoDup_cons. split; [| apply NoDup_singleton].
      intros [H | H]%elem_of_cons; [discriminate H | by apply elem_of_nil in H].
    + intros [H | [H | H]%elem_of_cons]%elem_of_cons;
        [discriminate H | discriminate H | by apply elem_of_nil in H].
  - split; cbn.
    + apply NoDup_singleton.
    + intros [H | H]%elem_of_cons; [discriminate H | by apply elem_of_nil in H].
Defined.

(** Hovering [p1] on the sample map with two places, twice. *)
Lemma highlight_pass_is_idempotent_witness :
  let fc := {| frHovered := HoverId "p1"; frDefaultIcon := pin; frHighlightedIcon := bigPin |} in
  exec (highlightMarker fc) (exec (highlightMarker fc) shown)
  = exec (highlightMarker fc) shown.
Proof.
  intros fc.
  destruct (Inv_reachable shownBy) as (_ & _ & _ & (Hv & Hi & _) & _).
  apply (highlight_pass_is_idempotent fc shown); [reflexivity | reflexivity | exact Hv | exact Hi].
Defined.

(** The sample map with two places, then a render with one. *)
Lemma settled_map_shows_latest_places_witness :
  let w1 := step (run shownBy initial) (Render (props [p2] 2 HoverUndefined)) in
  imports (sched (run (replicate (length (imports (sched w1))) (ImportSettles None)) w1))
  = [].
Proof.
  destruct (settled_map_shows_latest_places shownBy (props [p2] 2 HoverUndefined))
    as (H & _).
  - reflexivity.
  - intros deps Hdeps. vm_compute in Hdeps. injection Hdeps as <-. cbn. lia.
  - exact H.
Defined.

(** The first pass of the sample component fails at its first popup; a
    pass for another list follows. *)
Lemma failed_pass_leaves_marker_for_good_witness :
  let w := on_leaflet (set_fuse (Some 3%nat)) ready in
  let w1 := exec (updateMarkers_resume {| updPlaces := [p1; p2]; updDefaultIcon := pin |}) w in
  let w2 := exec (updateMarkers_resume {| updPlaces := [p2]; updDefaultIcon := pin |}) w1 in
  0%nat ∈ onMapHandles w2 ∧ 0%nat ∉ Object_values w2.
Proof.
  destruct (failed_pass_leaves_marker_for_good
              {| updPlaces := [p1; p2]; updDefaultIcon := pin |} p1 [p2]
              [{| updPlaces := [p2]; updDefaultIcon := pin |}]
              (on_leaflet (set_fuse (Some 3%nat)) ready))
    as (_ & _ & _ & _ & Hon & Hno); [reflexivity | reflexivity | reflexivity | reflexivity |].
  exact (conj Hon Hno).
Defined.
